(** * SQLite-Visualizer-Library: autocomplete engine and query history log

    A shallow embedding of [src/core/sqlAutocomplete.ts] (class
    [SQLAutocomplete]) and of the class [QueryHistoryManager]
    ([src/core/database.ts], lines 425-541), with the properties of the
    specification proved about them.  Further sections embed the rest of
    the history log, the hotkey manager ([src/core/hotkeys.ts]), the
    migration manager, and the computations of the components and of the
    database manager that do not go through the SQL engine: accepting a
    suggestion, the search box, the filter, the pages and the page buttons
    of the data explorer, the values of the SQL export and the columns of an
    index.

    Strings.  A JavaScript string is modelled as a list of 8-bit characters.
    The case mappings and the regular-expression classes [\w] and [\s] are
    those of JavaScript on ASCII text; the characters above 127 are kept as
    they are by the case mappings and belong to neither class.  Text outside
    ASCII is therefore outside the model.

    Numbers.  Cursor offsets, indices, timestamps and sizes are integers
    ([Z]); an elapsed time is a rational.

    The log at run time.  [add] puts items in the log; [loadFromStorage]
    puts there every object of the stored array that passes its filter on
    the timestamps, whatever its other properties.  The log is therefore a
    list of entries, an entry being an item or an object of another shape,
    seen through what the class reads of it. *)

From Stdlib Require Import Ascii String Numbers.DecimalString Numbers.DecimalPos Numbers.DecimalZ.
From Stdlib Require Import QArith ZArith Lia Bool List Sorted.
Import ListNotations.

Local Open Scope bool_scope.
Local Open Scope Z_scope.

(* ================================================================== *)
(** * JavaScript strings *)
(* ================================================================== *)

Module JS.

Definition jsstring := list ascii.

(** A string literal of the source. *)
Definition lit (s : string) : jsstring := list_ascii_of_string s.

Definition code (c : ascii) : nat := nat_of_ascii c.

Definition isUpper (c : ascii) : bool := (65 <=? code c)%nat && (code c <=? 90)%nat.
Definition isLower (c : ascii) : bool := (97 <=? code c)%nat && (code c <=? 122)%nat.
Definition isDigit (c : ascii) : bool := (48 <=? code c)%nat && (code c <=? 57)%nat.

(** The class [\w] of a regular expression without the [u] and [i] flags:
    [A-Za-z0-9_]. *)
Definition isWordChar (c : ascii) : bool :=
  isUpper c || isLower c || isDigit c || (code c =? 95)%nat.

(** The class [\s] (and the characters removed by [trim]) below 128:
    tab, line feed, vertical tab, form feed, carriage return, space. *)
Definition isSpace (c : ascii) : bool :=
  ((9 <=? code c)%nat && (code c <=? 13)%nat) || (code c =? 32)%nat.

Definition toUpperChar (c : ascii) : ascii :=
  if isLower c then ascii_of_nat (code c - 32) else c.

Definition toLowerChar (c : ascii) : ascii :=
  if isUpper c then ascii_of_nat (code c + 32) else c.

(** [String.prototype.toUpperCase] and [toLowerCase]. *)
Definition toUpperCase (s : jsstring) : jsstring := map toUpperChar s.
Definition toLowerCase (s : jsstring) : jsstring := map toLowerChar s.

(** Strict equality [===] of two strings. *)
Fixpoint streq (a b : jsstring) : bool :=
  match a, b with
  | [], [] => true
  | x :: a', y :: b' => Ascii.eqb x y && streq a' b'
  | _, _ => false
  end.

(** [s.startsWith(p)]. *)
Fixpoint startsWith (s p : jsstring) {struct p} : bool :=
  match p with
  | [] => true
  | y :: p' =>
      match s with
      | [] => false
      | x :: s' => Ascii.eqb x y && startsWith s' p'
      end
  end.

(** [s.substring(0, e)]: the end index is clamped to [0, s.length]. *)
Definition substring0 (s : jsstring) (e : Z) : jsstring :=
  firstn (Z.to_nat e) s.

(** [s.lastIndexOf(p)]: the candidates are tried from the rightmost position
    where [p] still fits down to position 0; -1 when none matches. *)
Fixpoint lastIndexOfFrom (s p : jsstring) (k : nat) : Z :=
  if startsWith (skipn k s) p then Z.of_nat k
  else match k with
       | O => -1
       | S k' => lastIndexOfFrom s p k'
       end.

Definition lastIndexOf (s p : jsstring) : Z :=
  if (length p <=? length s)%nat
  then lastIndexOfFrom s p (length s - length p)
  else -1.

Fixpoint takeWhile {A} (f : A -> bool) (l : list A) : list A :=
  match l with
  | [] => []
  | x :: l' => if f x then x :: takeWhile f l' else []
  end.

Fixpoint dropWhile {A} (f : A -> bool) (l : list A) : list A :=
  match l with
  | [] => []
  | x :: l' => if f x then dropWhile f l' else l
  end.

(** [s.trim()]. *)
Definition trim (s : jsstring) : jsstring :=
  rev (dropWhile isSpace (rev (dropWhile isSpace s))).

(** [Array.prototype.slice(0, e)] for an integer [e]: a negative end counts
    from the end of the array. *)
Definition slice0 {A} (l : list A) (e : Z) : list A :=
  if e <? 0 then firstn (Z.to_nat (Z.of_nat (length l) + e)) l
  else firstn (Z.to_nat e) l.

(** [Array.prototype.sort(cmp)]: a stable sort; [cmp a b > 0] asks for [a]
    after [b].  Insertion from the right keeps equal elements in order. *)
Fixpoint insertBy {A} (cmp : A -> A -> Z) (x : A) (l : list A) : list A :=
  match l with
  | [] => [x]
  | y :: l' => if cmp x y >? 0 then y :: insertBy cmp x l' else x :: l
  end.

Definition sort {A} (cmp : A -> A -> Z) (l : list A) : list A :=
  fold_right (insertBy cmp) [] l.

(** [x || d] on numbers: 0 is falsy. *)
Definition orDefault (x d : Z) : Z := if x =? 0 then d else x.

(** The decimal text of an integer, as a template literal prints it. *)
Definition decimal (z : Z) : jsstring :=
  list_ascii_of_string (NilZero.string_of_int (Z.to_int z)).

End JS.

Import JS.

(* ================================================================== *)
(** * Types ([src/types/index.ts]) *)
(* ================================================================== *)

Record ColumnInfo := {
  col_name : jsstring;
  col_type : jsstring;
  notnull : bool;
  dflt_value : option jsstring;
  pk : bool
}.

Record IndexInfo := {
  idx_name : jsstring;
  unique : bool;
  idx_columns : list jsstring
}.

Record ForeignKeyInfo := {
  fk_from : jsstring;
  fk_to : jsstring;
  fromColumn : jsstring;
  toColumn : jsstring
}.

Record TableInfo := {
  name : jsstring;
  sql : jsstring;
  columns : list ColumnInfo;
  indexes : list IndexInfo;
  foreignKeys : list ForeignKeyInfo
}.

Record DatabaseSchema := {
  tables : list TableInfo;
  version : jsstring
}.

(** A cell of a result row ([any]): a number, a string or [null]. *)
Inductive SqlValue :=
| SqlNull
| SqlNumber (q : Q)
| SqlText (s : jsstring).

Record QueryResult := {
  res_columns : list jsstring;
  values : list (list SqlValue);
  rowsAffected : option Z
}.

(** [result?] and [error?] are [None] when [undefined]. *)
Record QueryHistoryItem := {
  id : jsstring;
  query : jsstring;
  timestamp : Z;
  executionTime : Q;
  result : option QueryResult;
  error : option jsstring
}.

(* ================================================================== *)
(** * The autocomplete engine ([src/core/sqlAutocomplete.ts]) *)
(* ================================================================== *)

(** The three values the field [type] of a suggestion takes. *)
Inductive SuggestionType := keyword | table | column.

Record Suggestion := { label : jsstring; type : SuggestionType }.

Definition SuggestionType_eqb (a b : SuggestionType) : bool :=
  match a, b with
  | keyword, keyword | table, table | column, column => true
  | _, _ => false
  end.

(** An object of the class: its two private fields. *)
Record SQLAutocomplete := {
  schema : option DatabaseSchema;
  keywords : list jsstring
}.

(** The initial value of the field [keywords], in declaration order.
    ['NOT'] is listed twice. *)
Definition vocabulary : list jsstring := map lit
  [ "SELECT"; "FROM"; "WHERE"; "JOIN"; "INNER"; "LEFT"; "RIGHT"; "FULL";
    "OUTER"; "ON"; "AS"; "AND"; "OR"; "NOT"; "IN"; "LIKE"; "BETWEEN"; "IS";
    "NULL"; "ORDER"; "BY"; "GROUP"; "HAVING"; "LIMIT"; "OFFSET"; "INSERT";
    "INTO"; "VALUES"; "UPDATE"; "SET"; "DELETE"; "CREATE"; "TABLE"; "ALTER";
    "DROP"; "INDEX"; "PRIMARY"; "KEY"; "FOREIGN"; "REFERENCES"; "UNIQUE";
    "NOT"; "DEFAULT"; "AUTOINCREMENT"; "INTEGER"; "TEXT"; "REAL"; "BLOB";
    "NUMERIC"; "BOOLEAN"; "DATE"; "DATETIME"; "COUNT"; "SUM"; "AVG"; "MAX";
    "MIN"; "DISTINCT"; "EXPLAIN"; "QUERY"; "PLAN" ]%string.

(** [new SQLAutocomplete()]. *)
Definition newSQLAutocomplete : SQLAutocomplete :=
  {| schema := None; keywords := vocabulary |}.

Definition updateSchema (this : SQLAutocomplete) (s : DatabaseSchema)
  : SQLAutocomplete :=
  {| schema := Some s; keywords := keywords this |}.

(** [beforeCursor.match(/(\w+)$/)]: the start positions are tried from the
    left; at a position, the greedy [\w+] followed by [$] matches exactly when
    the rest of the string is a non-empty run of word characters. *)
Fixpoint matchTrailingWord (s : jsstring) : option jsstring :=
  match s with
  | [] => None
  | _ :: s' => if forallb isWordChar s then Some s else matchTrailingWord s'
  end.

(** [/KW\s+(\w+)/] anchored at the start of [s]: the keyword, then the
    greedy run of white space (not empty), then the greedy run of word
    characters (not empty), which is the captured group.  The two classes
    are disjoint, so no shorter run of white space gives a match. *)
Definition matchKeywordWordHere (kw s : jsstring) : option jsstring :=
  if startsWith s kw then
    let rest := skipn (length kw) s in
    let ws := takeWhile isSpace rest in
    let w := takeWhile isWordChar (dropWhile isSpace rest) in
    match ws, w with
    | _ :: _, _ :: _ => Some w
    | _, _ => None
    end
  else None.

(** [s.match(/KW\s+(\w+)/)]: the first position, from the left, where the
    expression matches; the result is group 1. *)
Fixpoint matchKeywordWord (kw s : jsstring) : option jsstring :=
  match matchKeywordWordHere kw s with
  | Some w => Some w
  | None =>
      match s with
      | [] => None
      | _ :: s' => matchKeywordWord kw s'
      end
  end.

Record Context := {
  afterSelect : bool;
  afterFrom : bool;
  afterJoin : bool;
  afterWhere : bool;
  afterOn : bool
}.

Definition getContext (query : jsstring) : Context :=
  let upperQuery := toUpperCase query in
  let lastSelect := lastIndexOf upperQuery (lit "SELECT") in
  let lastFrom := lastIndexOf upperQuery (lit "FROM") in
  let lastJoin := lastIndexOf upperQuery (lit "JOIN") in
  let lastWhere := lastIndexOf upperQuery (lit "WHERE") in
  let lastOn := lastIndexOf upperQuery (lit "ON") in
  {| afterSelect := (lastSelect >? lastFrom) && (lastSelect >? lastJoin);
     afterFrom := (lastFrom >? lastSelect) && (lastFrom >? lastJoin);
     afterJoin := lastJoin >? lastFrom;
     afterWhere := lastWhere >? lastFrom;
     afterOn := lastOn >? lastJoin |}.

Definition shouldSuggestKeywords (context : Context) : bool := true.

Definition shouldSuggestTables (context : Context) : bool :=
  afterFrom context || afterJoin context.

Definition shouldSuggestColumns (context : Context) : bool :=
  afterSelect context || afterWhere context || afterOn context.

(** The columns pushed for one referenced table name: those of the first
    table of the schema with that name, compared in lower case. *)
Definition columnsOfReference (ts : list TableInfo) (tableName : jsstring)
  : list jsstring :=
  match find (fun t => streq (toLowerCase (name t)) (toLowerCase tableName)) ts with
  | Some t => map col_name (columns t)
  | None => []
  end.

(** Every column of every table, as [table.column]. *)
Definition qualifiedColumns (ts : list TableInfo) : list jsstring :=
  flat_map (fun t => map (fun c => name t ++ lit "." ++ col_name c) (columns t)) ts.

Definition optList {A} (o : option A) : list A :=
  match o with Some x => [x] | None => [] end.

Definition getRelevantColumns (this : SQLAutocomplete) (query : jsstring)
  : list jsstring :=
  match schema this with
  | None => []
  | Some sch =>
      let upperQuery := toUpperCase query in
      let fromMatch := matchKeywordWord (lit "FROM") upperQuery in
      let joinMatch := matchKeywordWord (lit "JOIN") upperQuery in
      let tableRefs := optList fromMatch ++ optList joinMatch in
      let cols := flat_map (columnsOfReference (tables sch)) tableRefs in
      match cols with
      | [] => qualifiedColumns (tables sch)
      | _ :: _ => cols
      end
  end.

(** The rank table [order] of the comparator. *)
Definition order (t : SuggestionType) : Z :=
  match t with keyword => 0 | table => 1 | column => 2 end.

(** [(order[a.type] || 3) - (order[b.type] || 3)]. *)
Definition compareSuggestions (a b : Suggestion) : Z :=
  orDefault (order (type a)) 3 - orDefault (order (type b)) 3.

(** [this.schema?.tables.map((t) => t.name) || []]. *)
Definition tableNames (this : SQLAutocomplete) : list jsstring :=
  match schema this with
  | Some sch => map name (tables sch)
  | None => []
  end.

(** The three groups of candidates, in the order they are pushed. *)
Definition keywordCandidates (this : SQLAutocomplete) (currentWord : jsstring)
  : list Suggestion :=
  map (fun kw => {| label := kw; type := keyword |})
      (filter (fun kw => startsWith kw (toUpperCase currentWord)) (keywords this)).

Definition tableCandidates (this : SQLAutocomplete) (currentWord : jsstring)
  : list Suggestion :=
  map (fun t => {| label := t; type := table |})
      (filter (fun t => startsWith (toLowerCase t) (toLowerCase currentWord))
              (tableNames this)).

Definition columnCandidates (this : SQLAutocomplete)
  (beforeCursor currentWord : jsstring) : list Suggestion :=
  map (fun c => {| label := c; type := column |})
      (filter (fun c => startsWith (toLowerCase c) (toLowerCase currentWord))
              (getRelevantColumns this beforeCursor)).

Definition getSuggestions (this : SQLAutocomplete) (query : jsstring)
  (cursorPosition : Z) : list Suggestion :=
  let beforeCursor := substring0 query cursorPosition in
  let currentWord :=
    match matchTrailingWord beforeCursor with
    | Some w => toUpperCase w
    | None => []
    end in
  let context := getContext beforeCursor in
  let suggestions :=
    (if shouldSuggestKeywords context then keywordCandidates this currentWord else [])
    ++ (if shouldSuggestTables context then tableCandidates this currentWord else [])
    ++ (if shouldSuggestColumns context
        then columnCandidates this beforeCursor currentWord else []) in
  sort compareSuggestions suggestions.

(** The schema of the tests: one table [users] with columns [id], [name]. *)
Definition usersSchema : DatabaseSchema :=
  {| tables :=
       [ {| name := lit "users"; sql := lit "CREATE TABLE users...";
            columns :=
              [ {| col_name := lit "id"; col_type := lit "INTEGER";
                   notnull := true; dflt_value := None; pk := true |};
                {| col_name := lit "name"; col_type := lit "TEXT";
                   notnull := false; dflt_value := None; pk := false |} ];
            indexes := []; foreignKeys := [] |} ];
     version := lit "1.0.0" |}.

Definition usersEngine : SQLAutocomplete := updateSchema newSQLAutocomplete usersSchema.

(** ** Auxiliary definitions for the statements *)

(** The value of [wordMatch ? wordMatch[1] : ''] . *)
Definition rawWord (beforeCursor : jsstring) : jsstring :=
  match matchTrailingWord beforeCursor with
  | Some w => w
  | None => []
  end.

(** The value of the local [currentWord] of [getSuggestions]. *)
Definition currentWordOf (beforeCursor : jsstring) : jsstring :=
  toUpperCase (rawWord beforeCursor).

Definition ofType (t : SuggestionType) (s : Suggestion) : bool :=
  SuggestionType_eqb (type s) t.

(** The labels of the candidates of one kind. *)
Definition labelsOf (t : SuggestionType) (l : list Suggestion) : list jsstring :=
  map label (filter (ofType t) l).

(** The groups that [getSuggestions] pushes, each under its guard. *)
Definition tableGroup (this : SQLAutocomplete) (beforeCursor : jsstring)
  : list Suggestion :=
  if shouldSuggestTables (getContext beforeCursor)
  then tableCandidates this (currentWordOf beforeCursor) else [].

Definition columnGroup (this : SQLAutocomplete) (beforeCursor : jsstring)
  : list Suggestion :=
  if shouldSuggestColumns (getContext beforeCursor)
  then columnCandidates this beforeCursor (currentWordOf beforeCursor) else [].

Definition keywordGroup (this : SQLAutocomplete) (beforeCursor : jsstring)
  : list Suggestion :=
  keywordCandidates this (currentWordOf beforeCursor).

Definition NOT_candidate : Suggestion := {| label := lit "NOT"; type := keyword |}.

(** The tables of the current snapshot; none before [updateSchema]. *)
Definition schemaTables (this : SQLAutocomplete) : list TableInfo :=
  match schema this with
  | Some sch => tables sch
  | None => []
  end.

(** ** The notions of the specification *)

(** [w] is the maximal trailing run of word characters of [before]: a suffix
    made of word characters that no word character precedes. *)
Definition CurrentWord (before w : jsstring) : Prop :=
  exists pre, before = pre ++ w /\ forallb isWordChar w = true /\
    (forall pre' c, pre = pre' ++ [c] -> isWordChar c = false).



(** At index [i] of [s] stand the keyword [kw] (in any case), a non-empty
    run of white space, and the word [w]: a non-empty run of word characters
    that no word character follows. *)
Definition ReferenceAt (kw s : jsstring) (i : nat) (w : jsstring) : Prop :=
  exists k ws rest,
    skipn i s = k ++ ws ++ w ++ rest /\
    toUpperCase k = kw /\
    ws <> [] /\ forallb isSpace ws = true /\
    w <> [] /\ forallb isWordChar w = true /\
    (forall c r, rest = c :: r -> isWordChar c = false).

(** [r] is the word of the first (leftmost) such reference, if any. *)
Definition FirstReference (kw s : jsstring) (r : option jsstring) : Prop :=
  match r with
  | Some w => exists i, ReferenceAt kw s i w /\
                        forall j w', (j < i)%nat -> ~ ReferenceAt kw s j w'
  | None => forall i w, ~ ReferenceAt kw s i w
  end.

(** The name [r] denotes the table [t] of the snapshot [ts]: [t] is the
    first table of [ts] whose name is [r], the case of the letters ignored. *)
Definition Denotes (ts : list TableInfo) (r : jsstring) (t : TableInfo) : Prop :=
  exists front back,
    ts = front ++ t :: back /\
    toLowerCase (name t) = toLowerCase r /\
    forall t', In t' front -> toLowerCase (name t') <> toLowerCase r.

(** [cols] is what a reference contributes to the columns offered: the
    names of the columns of the table it denotes, in their order; nothing
    when there is no reference, or when no table has that name. *)
Definition ColumnsOfRef (ts : list TableInfo) (ref : option jsstring)
  (cols : list jsstring) : Prop :=
  match ref with
  | None => cols = []
  | Some r =>
      (exists t, Denotes ts r t /\ cols = map col_name (columns t)) \/
      ((forall t, In t ts -> toLowerCase (name t) <> toLowerCase r) /\ cols = [])
  end.
(* ================================================================== *)
(** * The query history log (class [QueryHistoryManager]) *)
(* ================================================================== *)

(** ** The host: clock, random numbers, local storage, console *)

(** The number that a value converts to ([ToNumber]). *)
Inductive JsNumber :=
| NaN
| NegInfinity
| Finite (q : Q)
| PosInfinity.

(** An object that has not the shape of a [QueryHistoryItem], by what the
    class reads of it: [id] and [query] when they are strings ([None] for a
    missing property and for a value of another type), and the number that
    [timestamp] converts to ([NaN] for a missing property).  The last field
    is the number that [timestamp] converts to once the object has been
    written by [JSON.stringify] and read back by [JSON.parse]: the same,
    unless the value holds an infinite number, which is written as [null]. *)
Record ForeignObject := {
  f_id : option jsstring;
  f_query : option jsstring;
  f_timestamp : JsNumber;
  f_rewritten : JsNumber
}.

(** An element of [this.history] at run time.  The source types the array
    [QueryHistoryItem[]]; [add] puts items there, [loadFromStorage] whatever
    object passes its filter. *)
Inductive Entry :=
| Item (it : QueryHistoryItem)
| Foreign (o : ForeignObject).

(** [h.query], when it is a string. *)
Definition queryOf (h : Entry) : option jsstring :=
  match h with
  | Item it => Some (query it)
  | Foreign o => f_query o
  end.

(** [h.id], when it is a string. *)
Definition idOf (h : Entry) : option jsstring :=
  match h with
  | Item it => Some (id it)
  | Foreign o => f_id o
  end.

(** [h.query === text]. *)
Definition hasQuery (h : Entry) (text : jsstring) : bool :=
  match queryOf h with
  | Some q => streq q text
  | None => false
  end.

(** [h.id === itemId]. *)
Definition hasId (h : Entry) (itemId : jsstring) : bool :=
  match idOf h with
  | Some i => streq i itemId
  | None => false
  end.

(** [h.timestamp > cutoff], the timestamp converted to a number. *)
Definition laterThan (h : Entry) (cutoff : Z) : bool :=
  match h with
  | Item it => timestamp it >? cutoff
  | Foreign o =>
      match f_timestamp o with
      | Finite q => negb (Qle_bool q (inject_Z cutoff))
      | PosInfinity => true
      | NaN | NegInfinity => false
      end
  end.

(** [now - h.timestamp > 60000], the timestamp converted to a number. *)
Definition olderThanMinute (now : Z) (h : Entry) : bool :=
  match h with
  | Item it => now - timestamp it >? 60000
  | Foreign o =>
      match f_timestamp o with
      | Finite q => negb (Qle_bool (inject_Z now - q)%Q (inject_Z 60000))
      | NegInfinity => true
      | NaN | PosInfinity => false
      end
  end.

(** An element of a stored array, by what the callback of
    [loadFromStorage] does with it.  [ElemThrowing]: the comparison throws,
    on [null], where reading [item.timestamp] throws, and on an object whose
    [timestamp] has no primitive value (an object with its own [toString]
    and [valueOf], which are not functions).  [ElemOther]: a number, a
    string or a boolean, where [item.timestamp] is [undefined] and the
    comparison is false.  [ElemObject]: any other object (or array), where
    the comparison is made with the number that its [timestamp] converts
    to. *)
Inductive StoredElement :=
| ElemThrowing
| ElemOther
| ElemObject (e : Entry).

(** The text stored under a key, by what [JSON.parse] makes of it. *)
Inductive StoredText :=
| TextEmpty                               (* [''] *)
| TextMalformed                           (* not JSON: [JSON.parse] throws *)
| TextNotArray                            (* JSON, but not an array *)
| TextArray (elems : list StoredElement). (* a JSON array *)

Record LocalStorage := {
  stored : jsstring -> option StoredText; (* [None]: [getItem] returns [null] *)
  getItemThrows : bool;
  setItemThrows : bool                    (* quota exceeded, access denied, ... *)
}.

Inductive Host :=
| NoLocalStorage              (* no [window], or [window.localStorage] falsy *)
| Blocked                     (* reading [window.localStorage] throws *)
| Browser (ls : LocalStorage).

Inductive JsError := SyntaxError | TypeError | ReferenceError | DOMException.

Record World := {
  clock : nat -> Z;           (* the successive values of [Date.now()] *)
  ticks : nat;                (* how many were read *)
  random : nat -> jsstring;   (* the successive random suffixes *)
  draws : nat;
  host : Host;
  console : list jsstring     (* the warnings, last first *)
}.

Record QueryHistoryManager := {
  history : list Entry;
  maxHistorySize : Z;
  storageKey : jsstring
}.

Record State := { self : QueryHistoryManager; world : World }.

(** ** Computations that read and write the state and may throw *)

Inductive Completion (A : Type) :=
| Normal (a : A)
| Throw (e : JsError).
Arguments Normal {A} a.
Arguments Throw {A} e.

Definition M (A : Type) : Type := State -> Completion A * State.

Definition ret {A} (a : A) : M A := fun s => (Normal a, s).

Definition bind {A B} (m : M A) (k : A -> M B) : M B :=
  fun s => match m s with
           | (Normal a, s') => k a s'
           | (Throw e, s') => (Throw e, s')
           end.

Definition throw {A} (e : JsError) : M A := fun s => (Throw e, s).

(** [try { body } catch (error) { handler }]. *)
Definition tryCatch {A} (body : M A) (handler : JsError -> M A) : M A :=
  fun s => match body s with
           | (Normal a, s') => (Normal a, s')
           | (Throw e, s') => handler e s'
           end.

Declare Scope js_scope.
Delimit Scope js_scope with js.
Notation "x <- m ;; k" := (bind m (fun x => k))
  (at level 61, m at next level, right associativity) : js_scope.
Notation "m ;; k" := (bind m (fun _ => k))
  (at level 61, right associativity) : js_scope.
Local Open Scope js_scope.

(** [Array.prototype.filter] with a callback that has effects. *)
Fixpoint filterM {A} (f : A -> M bool) (l : list A) : M (list A) :=
  match l with
  | [] => ret []
  | x :: l' =>
      b <- f x ;;
      r <- filterM f l' ;;
      ret (if b then x :: r else r)
  end.

Definition setTicks (w : World) (n : nat) : World :=
  {| clock := clock w; ticks := n; random := random w; draws := draws w;
     host := host w; console := console w |}.

Definition setDraws (w : World) (n : nat) : World :=
  {| clock := clock w; ticks := ticks w; random := random w; draws := n;
     host := host w; console := console w |}.

Definition setHost (w : World) (h : Host) : World :=
  {| clock := clock w; ticks := ticks w; random := random w; draws := draws w;
     host := h; console := console w |}.

Definition setConsole (w : World) (c : list jsstring) : World :=
  {| clock := clock w; ticks := ticks w; random := random w; draws := draws w;
     host := host w; console := c |}.

Definition onWorld (f : World -> World) (s : State) : State :=
  {| self := self s; world := f (world s) |}.

(** [Date.now()]. *)
Definition Date_now : M Z :=
  fun s => (Normal (clock (world s) (ticks (world s))),
            onWorld (fun w => setTicks w (S (ticks w))) s).

(** [Math.random().toString(36).substr(2, 9)]. *)
Definition Math_random_suffix : M jsstring :=
  fun s => (Normal (random (world s) (draws (world s))),
            onWorld (fun w => setDraws w (S (draws w))) s).

Definition console_warn (msg : jsstring) : M unit :=
  fun s => (Normal tt, onWorld (fun w => setConsole w (msg :: console w)) s).

(** [typeof window !== 'undefined' && window.localStorage]. *)
Definition hasLocalStorage : M bool :=
  fun s => match host (world s) with
           | NoLocalStorage => (Normal false, s)
           | Blocked => (Throw DOMException, s)
           | Browser _ => (Normal true, s)
           end.

Definition localStorage_getItem (key : jsstring) : M (option StoredText) :=
  fun s => match host (world s) with
           | Browser ls =>
               if getItemThrows ls then (Throw DOMException, s)
               else (Normal (stored ls key), s)
           | Blocked => (Throw DOMException, s)
           | NoLocalStorage => (Throw ReferenceError, s)
           end.

Definition putItem (ls : LocalStorage) (key : jsstring) (text : StoredText)
  : LocalStorage :=
  {| stored := fun k => if streq k key then Some text else stored ls k;
     getItemThrows := getItemThrows ls;
     setItemThrows := setItemThrows ls |}.

Definition localStorage_setItem (key : jsstring) (text : StoredText) : M unit :=
  fun s => match host (world s) with
           | Browser ls =>
               if setItemThrows ls then (Throw DOMException, s)
               else (Normal tt, onWorld (fun w => setHost w (Browser (putItem ls key text))) s)
           | Blocked => (Throw DOMException, s)
           | NoLocalStorage => (Throw ReferenceError, s)
           end.

(** The value [JSON.parse] returns. *)
Inductive Parsed :=
| NotAnArray
| AnArray (elems : list StoredElement).

Definition JSON_parse (text : StoredText) : M Parsed :=
  match text with
  | TextEmpty | TextMalformed => throw SyntaxError
  | TextNotArray => ret NotAnArray
  | TextArray elems => ret (AnArray elems)
  end.

(** An entry as it is read back from what [JSON.stringify] writes of it. *)
Definition written (h : Entry) : Entry :=
  match h with
  | Item it => Item it
  | Foreign o =>
      Foreign {| f_id := f_id o; f_query := f_query o;
                 f_timestamp := f_rewritten o; f_rewritten := f_rewritten o |}
  end.

(** [JSON.stringify] of the array of entries. *)
Definition JSON_stringify (items : list Entry) : StoredText :=
  TextArray (map ElemObject (map written items)).

(** [parsed.filter(cb)]: a value that is not an array has no such method. *)
Definition Parsed_filter (parsed : Parsed) (cb : StoredElement -> M bool)
  : M (list StoredElement) :=
  match parsed with
  | NotAnArray => throw TypeError
  | AnArray elems => filterM cb elems
  end.

(** The array that the filter of [loadFromStorage] returns, as entries: the
    filter keeps objects only. *)
Definition entriesOf (elems : list StoredElement) : list Entry :=
  flat_map (fun e => match e with ElemObject x => [x] | _ => [] end) elems.

(** ** The fields of [this] *)

Definition getHistory : M (list Entry) :=
  fun s => (Normal (history (self s)), s).

Definition setHistory (l : list Entry) : M unit :=
  fun s => (Normal tt,
            {| self := {| history := l;
                          maxHistorySize := maxHistorySize (self s);
                          storageKey := storageKey (self s) |};
               world := world s |}).

Definition getMaxHistorySize : M Z := fun s => (Normal (maxHistorySize (self s)), s).

Definition setMaxHistorySize (m : Z) : M unit :=
  fun s => (Normal tt,
            {| self := {| history := history (self s);
                          maxHistorySize := m;
                          storageKey := storageKey (self s) |};
               world := world s |}).

Definition getStorageKey : M jsstring := fun s => (Normal (storageKey (self s)), s).

(** ** The methods *)

Definition thirtyDays : Z := 30 * 24 * 60 * 60 * 1000.

(** The callback [(item) => item.timestamp > thirtyDaysAgo]. *)
Definition keepOnLoad (thirtyDaysAgo : Z) (item : StoredElement) : M bool :=
  match item with
  | ElemThrowing => throw TypeError
  | ElemOther => ret false
  | ElemObject h => ret (laterThan h thirtyDaysAgo)
  end.

Definition loadFromStorage : M unit :=
  tryCatch
    (available <- hasLocalStorage ;;
     if available then
       key <- getStorageKey ;;
       stored <- localStorage_getItem key ;;
       match stored with
       | None | Some TextEmpty => ret tt          (* [if (stored)]: falsy *)
       | Some text =>
           parsed <- JSON_parse text ;;
           now <- Date_now ;;
           let thirtyDaysAgo := now - thirtyDays in
           kept <- Parsed_filter parsed (keepOnLoad thirtyDaysAgo) ;;
           setHistory (entriesOf kept)
       end
     else ret tt)
    (fun _ => console_warn (lit "Failed to load query history from storage:")).

Definition saveToStorage : M unit :=
  tryCatch
    (available <- hasLocalStorage ;;
     if available then
       h <- getHistory ;;
       let recentHistory := slice0 h 50 in
       key <- getStorageKey ;;
       localStorage_setItem key (JSON_stringify recentHistory)
     else ret tt)
    (fun _ => console_warn (lit "Failed to save query history to storage:")).

Definition generateId : M jsstring :=
  now <- Date_now ;;
  r <- Math_random_suffix ;;
  ret (decimal now ++ lit "-" ++ r).

(** The field initialisers of the class. *)
Definition initialFields : QueryHistoryManager :=
  {| history := []; maxHistorySize := 100;
     storageKey := lit "sqlite-visualizer-history" |}.

(** The body of [constructor(maxSize = 100)]. *)
Definition constructor (maxSize : option Z) : M unit :=
  setMaxHistorySize (match maxSize with Some m => m | None => 100 end) ;;
  loadFromStorage.

(** [new QueryHistoryManager(maxSize)] in the world [w]. *)
Definition newQueryHistoryManager (maxSize : option Z) (w : World)
  : Completion unit * State :=
  constructor maxSize {| self := initialFields; world := w |}.

(** The callback of the filter of [add]: [Date.now()] is read only when the
    texts are equal. *)
Definition keepOnAdd (text : jsstring) (h : Entry) : M bool :=
  if negb (hasQuery h text) then ret true
  else now <- Date_now ;; ret (olderThanMinute now h).

Definition add (queryText : jsstring) (time : Q) (res : option QueryResult)
  (err : option jsstring) : M unit :=
  newId <- generateId ;;
  now <- Date_now ;;
  let item := {| id := newId; query := trim queryText; timestamp := now;
                 executionTime := time; result := res; error := err |} in
  h <- getHistory ;;
  kept <- filterM (keepOnAdd (query item)) h ;;
  setHistory kept ;;
  h1 <- getHistory ;;
  setHistory (Item item :: h1) ;;
  h2 <- getHistory ;;
  m <- getMaxHistorySize ;;
  (if Z.of_nat (length h2) >? m then setHistory (slice0 h2 m) else ret tt) ;;
  saveToStorage.

Definition getAll : M (list Entry) := getHistory.

Definition getRecent (limit : Z) : M (list Entry) :=
  h <- getHistory ;; ret (slice0 h limit).

Definition clear : M unit :=
  setHistory [] ;;
  saveToStorage.

Definition remove (itemId : jsstring) : M unit :=
  h <- getHistory ;;
  setHistory (filter (fun item => negb (hasId item itemId)) h) ;;
  saveToStorage.

(** The arguments of one call of [add]. *)
Record AddCall := {
  call_query : jsstring;
  call_time : Q;
  call_result : option QueryResult;
  call_error : option jsstring
}.

Definition addCall (c : AddCall) : M unit :=
  add (call_query c) (call_time c) (call_result c) (call_error c).

(** A sequence of calls of [add], one after the other. *)
Fixpoint addAll (calls : list AddCall) : M unit :=
  match calls with
  | [] => ret tt
  | c :: rest => addCall c ;; addAll rest
  end.

(** The operations that change the log. *)
Inductive Mutation :=
| DoAdd (c : AddCall)
| DoClear
| DoRemove (itemId : jsstring).

Definition perform (op : Mutation) : M unit :=
  match op with
  | DoAdd c => addCall c
  | DoClear => clear
  | DoRemove itemId => remove itemId
  end.

(** ** Auxiliary definitions for the statements *)

(** What the filter of [add] keeps of [l], the clock being read from its
    [n]-th value on, and the number of values read. *)
Fixpoint dedup (clk : nat -> Z) (n : nat) (text : jsstring)
  (l : list Entry) : list Entry * nat :=
  match l with
  | [] => ([], n)
  | h :: l' =>
      if negb (hasQuery h text)
      then let (r, n') := dedup clk n text l' in (h :: r, n')
      else let (r, n') := dedup clk (S n) text l' in
           (if olderThanMinute (clk n) h then h :: r else r, n')
  end.

(** The entry that [add] builds: the clock is read for the identifier, then
    for the timestamp. *)
Definition addedItem (w : World) (c : AddCall) : QueryHistoryItem :=
  {| id := decimal (clock w (ticks w)) ++ lit "-" ++ random w (draws w);
     query := trim (call_query c);
     timestamp := clock w (S (ticks w));
     executionTime := call_time c;
     result := call_result c;
     error := call_error c |}.

(** What [add] keeps of the list it finds. *)
Definition keptOnAdd (s : State) (c : AddCall) : list Entry :=
  fst (dedup (clock (world s)) (S (S (ticks (world s)))) (trim (call_query c))
             (history (self s))).

(** The number of values of the clock read when [add] returns. *)
Definition ticksAfterAdd (s : State) (c : AddCall) : nat :=
  snd (dedup (clock (world s)) (S (S (ticks (world s)))) (trim (call_query c))
             (history (self s))).

(** The step [if (length > max) slice(0, max)]. *)
Definition truncate (m : Z) (l : list Entry) : list Entry :=
  if Z.of_nat (length l) >? m then slice0 l m else l.

(** The world after [saveToStorage] wrote (or failed to write) the list [h]
    under [key]. *)
Definition savedWorld (key : jsstring) (h : list Entry) (w : World)
  : World :=
  match host w with
  | NoLocalStorage => w
  | Blocked =>
      setConsole w (lit "Failed to save query history to storage:" :: console w)
  | Browser ls =>
      if setItemThrows ls
      then setConsole w (lit "Failed to save query history to storage:" :: console w)
      else setHost w (Browser (putItem ls key (JSON_stringify (slice0 h 50))))
  end.

(** The list and the world that [add] leaves. *)
Definition addedHistory (s : State) (c : AddCall) : list Entry :=
  truncate (maxHistorySize (self s)) (Item (addedItem (world s) c) :: keptOnAdd s c).

Definition addedWorld (s : State) (c : AddCall) : World :=
  savedWorld (storageKey (self s)) (addedHistory s c)
    (setDraws (setTicks (world s) (ticksAfterAdd s c)) (S (draws (world s)))).

Definition withHistory (m : QueryHistoryManager) (l : list Entry)
  : QueryHistoryManager :=
  {| history := l; maxHistorySize := maxHistorySize m; storageKey := storageKey m |}.

(** The text found under the key of the log, if the storage can be read. *)
Definition storedLog (w : World) : option StoredText :=
  match host w with
  | Browser ls => stored ls (lit "sqlite-visualizer-history")
  | _ => None
  end.

(** Reading the storage fails: the access or [getItem] throws, or the text
    is not JSON, or not an array, or an array with an element on which the
    filter throws ([null], for one). *)
Definition loadFails (w : World) : Prop :=
  match host w with
  | NoLocalStorage => False
  | Blocked => True
  | Browser ls =>
      getItemThrows ls = true \/
      match stored ls (lit "sqlite-visualizer-history") with
      | Some TextMalformed | Some TextNotArray => True
      | Some (TextArray elems) => In ElemThrowing elems
      | Some TextEmpty | None => False
      end
  end.

(** There is no storage, or nothing under the key. *)
Definition storageEmpty (w : World) : Prop :=
  match host w with
  | NoLocalStorage => True
  | Blocked => False
  | Browser ls =>
      getItemThrows ls = false /\
      match stored ls (lit "sqlite-visualizer-history") with
      | None | Some TextEmpty => True
      | _ => False
      end
  end.


Definition isItem (e : Entry) : Prop :=
  match e with Item _ => True | Foreign _ => False end.

(** [a] and [b] are items, and [a] is at least as recent as [b]. *)
Definition atLeastAsRecent (a b : Entry) : Prop :=
  match a, b with
  | Item x, Item y => timestamp y <= timestamp x
  | _, _ => False
  end.

(** Newest first: the list holds items only, and each of them is at least
    as recent as those behind it. *)
Definition newestFirst (l : list Entry) : Prop :=
  Forall isItem l /\ StronglySorted atLeastAsRecent l.

Definition monotone (clk : nat -> Z) : Prop :=
  forall i j, (i <= j)%nat -> clk i <= clk j.

Definition isThrowing (e : StoredElement) : bool :=
  match e with ElemThrowing => true | _ => false end.

(** The callback of the filter of [loadFromStorage], on an element on which
    it does not throw. *)
Definition isRecent (cutoff : Z) (e : StoredElement) : bool :=
  match e with
  | ElemObject h => laterThan h cutoff
  | _ => false
  end.

(** The list that [loadFromStorage] leaves in [this.history]. *)
Definition loadedHistory (m : QueryHistoryManager) (w : World)
  : list Entry :=
  match host w with
  | Browser ls =>
      if getItemThrows ls then history m
      else match stored ls (storageKey m) with
           | Some (TextArray elems) =>
               if existsb isThrowing elems then history m
               else entriesOf (filter (isRecent (clock w (ticks w) - thirtyDays)) elems)
           | _ => history m
           end
  | _ => history m
  end.

(** The list that an operation leaves, whatever the storage does. *)
Definition mutatedHistory (op : Mutation) (s : State) : list Entry :=
  match op with
  | DoAdd c => addedHistory s c
  | DoClear => []
  | DoRemove itemId =>
      filter (fun item => negb (hasId item itemId)) (history (self s))
  end.

(** Two worlds with the same clock and the same random numbers; their
    storage and console may differ. *)
Definition sameSources (w1 w2 : World) : Prop :=
  clock w1 = clock w2 /\ ticks w1 = ticks w2 /\
  random w1 = random w2 /\ draws w1 = draws w2.

(** The timestamps of the items of the list are values of the clock already
    read. *)
Definition stamped (s : State) : Prop :=
  forall h, In (Item h) (history (self s)) ->
  forall k, (ticks (world s) <= k)%nat -> timestamp h <= clock (world s) k.

(** A world for the examples: the clock advances by one second at each
    reading, the storage is empty and works. *)
Definition sampleWorld : World :=
  {| clock := fun n => 1000 * Z.of_nat n;
     ticks := 0;
     random := fun _ => lit "k3j9x0q2a";
     draws := 0;
     host := Browser {| stored := fun _ => None;
                        getItemThrows := false;
                        setItemThrows := false |};
     console := [] |}.

Definition sampleState (m : Z) : State :=
  {| self := {| history := []; maxHistorySize := m;
                storageKey := lit "sqlite-visualizer-history" |};
     world := sampleWorld |}.

Definition sampleCall (text : string) : AddCall :=
  {| call_query := lit text; call_time := 1 # 100;
     call_result := Some {| res_columns := []; values := []; rowsAffected := None |};
     call_error := None |}.


(** A world whose storage holds text that is not JSON. *)
Definition corruptWorld : World :=
  setHost sampleWorld
    (Browser {| stored := fun _ => Some TextMalformed;
                getItemThrows := false;
                setItemThrows := true |}).

(** An object with nothing but a [timestamp], a string of digits: what
    [JSON.parse] makes of [{"timestamp":"9999999999999"}]. *)
Definition timestampOnly : ForeignObject :=
  {| f_id := None; f_query := None;
     f_timestamp := Finite (9999999999999 # 1);
     f_rewritten := Finite (9999999999999 # 1) |}.

(** A world whose storage holds the array with that one object. *)
Definition wrongShapeWorld : World :=
  setHost sampleWorld
    (Browser {| stored := fun _ => Some (TextArray [ElemObject (Foreign timestampOnly)]);
                getItemThrows := false;
                setItemThrows := false |}).

(** Two entries, one and two seconds old for a clock that reads 5000. *)
Definition sampleItems : list QueryHistoryItem :=
  [ {| id := lit "4000-k3j9x0q2a"; query := lit "SELECT 2"; timestamp := 4000;
       executionTime := 1 # 100; result := None; error := Some (lit "no such table") |};
    {| id := lit "3000-k3j9x0q2a"; query := lit "SELECT 1"; timestamp := 3000;
       executionTime := 1 # 100; result := None; error := None |} ].

(** A world whose storage holds these two entries. *)
Definition restartWorld : World :=
  {| clock := fun n => 5000 + 1000 * Z.of_nat n;
     ticks := 0;
     random := fun _ => lit "k3j9x0q2a";
     draws := 0;
     host := Browser {| stored := fun _ => Some (JSON_stringify (map Item sampleItems));
                        getItemThrows := false;
                        setItemThrows := false |};
     console := [] |}.

(** ** Tactics for running the methods *)

Ltac js_simpl :=
  cbn [world self host clock ticks random draws console history maxHistorySize
       storageKey].

Ltac done_run := eexists; split; [reflexivity | split; reflexivity].

(** Fifteen calls [add(`SELECT ${i}`, 1)], as in the test of the size limit. *)
Definition fifteenCalls : list AddCall :=
  map (fun i => {| call_query := lit "SELECT " ++ decimal (Z.of_nat i);
                   call_time := 1; call_result := None; call_error := None |})
      (seq 0 15).

(** The list of [s] after running [m]. *)
Definition historyAfter {A} (m : M A) (s : State) : list Entry :=
  history (self (snd (m s))).

(* ================================================================== *)
(** * Further methods of the classes *)
(* ================================================================== *)

(** ** [QueryHistoryManager.search] *)

(** [s.includes(p)]: [p] occurs in [s] at some position. *)
Fixpoint includes (s p : jsstring) : bool :=
  startsWith s p ||
  match s with
  | [] => false
  | _ :: s' => includes s' p
  end.

(** The callback [(item) => item.query.toLowerCase().includes(lowerQuery)]:
    on a [query] that is not a string the call of [toLowerCase] throws. *)
Definition matchesSearch (lowerQuery : jsstring) (item : Entry) : M bool :=
  match queryOf item with
  | Some q => ret (includes (toLowerCase q) lowerQuery)
  | None => throw TypeError
  end.

Definition search (queryText : jsstring) : M (list Entry) :=
  let lowerQuery := toLowerCase queryText in
  h <- getHistory ;;
  filterM (matchesSearch lowerQuery) h.

(** Every entry of the list has a string under [query]. *)
Definition queriesAreStrings (l : list Entry) : Prop :=
  forall h, In h l -> queryOf h <> None.

(** What the filter of [search] keeps, when every [query] is a string. *)
Definition containsQuery (lowerQuery : jsstring) (h : Entry) : bool :=
  match queryOf h with
  | Some q => includes (toLowerCase q) lowerQuery
  | None => false
  end.

(** [l1] is [l2] with some elements left out, the order kept. *)
Inductive Subsequence {A : Type} : list A -> list A -> Prop :=
| Subsequence_nil : Subsequence [] []
| Subsequence_skip (x : A) (l1 l2 : list A) :
    Subsequence l1 l2 -> Subsequence l1 (x :: l2)
| Subsequence_keep (x : A) (l1 l2 : list A) :
    Subsequence l1 l2 -> Subsequence (x :: l1) (x :: l2).

(** [text] contains [needle], the case of the letters ignored. *)
Definition ContainsIgnoringCase (text needle : jsstring) : Prop :=
  exists pre post, toLowerCase text = pre ++ toLowerCase needle ++ post.

(** ** Identifiers *)

(** The identifier built from the [j]-th value of the clock and a suffix. *)
Definition idAt (clk : nat -> Z) (j : nat) (suffix : jsstring) : jsstring :=
  decimal (clk j) ++ lit "-" ++ suffix.

(** [a] and [b] are items, and [a] got its identifier at a later reading of
    the clock than [b]. *)
Definition idAfter (clk : nat -> Z) (a b : Entry) : Prop :=
  exists x y i j ra rb,
    a = Item x /\ b = Item y /\
    id x = idAt clk i ra /\ id y = idAt clk j rb /\ (j < i)%nat.

(** The list holds items only, with identifiers built from readings already
    made. *)
Definition idsStamped (s : State) : Prop :=
  forall h, In h (history (self s)) ->
  exists it j r, h = Item it /\ (j < ticks (world s))%nat /\
                 id it = idAt (clock (world s)) j r.

Definition strictlyIncreasing (clk : nat -> Z) : Prop :=
  forall i j, (i < j)%nat -> clk i < clk j.

(** ** Accepting a suggestion ([QueryBuilder.handleSuggestionSelect]) *)

(** [s.substring(b)]: the start index is clamped to [0, s.length]. *)
Definition substringFrom (s : jsstring) (b : Z) : jsstring :=
  skipn (Z.to_nat b) s.

(** The new text of the editor and the new position of the cursor, for the
    text [queryText], the selection [selectionStart, selectionEnd) of the
    text area and the suggestion chosen. *)
Definition handleSuggestionSelect (queryText : jsstring)
  (selectionStart selectionEnd : Z) (suggestion : Suggestion) : jsstring * Z :=
  let before := substring0 queryText selectionStart in
  let after := substringFrom queryText selectionEnd in
  let wordMatch := matchTrailingWord before in
  let wordStart :=
    match wordMatch with
    | Some w => selectionStart - Z.of_nat (length w)
    | None => selectionStart
    end in
  let newQuery := substring0 queryText wordStart ++ label suggestion ++ lit " " ++ after in
  let newPos := wordStart + Z.of_nat (length (label suggestion)) + 1 in
  (newQuery, newPos).

(** ** The hotkey manager ([src/core/hotkeys.ts]) *)

(** [parts.join(sep)]. *)
Fixpoint join (sep : jsstring) (parts : list jsstring) : jsstring :=
  match parts with
  | [] => []
  | p :: rest =>
      match rest with
      | [] => p
      | _ :: _ => p ++ sep ++ join sep rest
      end
  end.

Module Hotkeys.

(** The fields of a [KeyboardEvent] that the manager reads. *)
Record KeyboardEvent := {
  ctrlKey : bool;
  metaKey : bool;
  altKey : bool;
  shiftKey : bool;
  key : jsstring
}.

Section Manager.

(** The callbacks [() => void]. *)
Variable Handler : Type.

(** A [Map<string, Handler>]: the entries in insertion order, one per key. *)
Definition HandlerMap : Type := list (jsstring * Handler).

(** [map.set(k, v)]: the value of an existing key is replaced in place, a
    new key is appended. *)
Fixpoint mapSet (k : jsstring) (v : Handler) (m : HandlerMap) : HandlerMap :=
  match m with
  | [] => [(k, v)]
  | (k', v') :: m' =>
      if streq k' k then (k, v) :: m' else (k', v') :: mapSet k v m'
  end.

(** [map.get(k)]; [None] is [undefined]. *)
Fixpoint mapGet (k : jsstring) (m : HandlerMap) : option Handler :=
  match m with
  | [] => None
  | (k', v') :: m' => if streq k' k then Some v' else mapGet k m'
  end.

(** [map.delete(k)]. *)
Definition mapDelete (k : jsstring) (m : HandlerMap) : HandlerMap :=
  filter (fun kv => negb (streq (fst kv) k)) m.

Record HotkeyManager := {
  handlers : HandlerMap;
  isEnabled : bool
}.

(** [new HotkeyManager()]. *)
Definition newHotkeyManager : HotkeyManager :=
  {| handlers := []; isEnabled := true |}.

Definition register (this : HotkeyManager) (name : jsstring) (handler : Handler)
  : HotkeyManager :=
  {| handlers := mapSet (toLowerCase name) handler (handlers this);
     isEnabled := isEnabled this |}.

Definition unregister (this : HotkeyManager) (name : jsstring) : HotkeyManager :=
  {| handlers := mapDelete (toLowerCase name) (handlers this);
     isEnabled := isEnabled this |}.

Definition enable (this : HotkeyManager) : HotkeyManager :=
  {| handlers := handlers this; isEnabled := true |}.

Definition disable (this : HotkeyManager) : HotkeyManager :=
  {| handlers := handlers this; isEnabled := false |}.

(** The last part of the key string: the name of a special key, or the key
    in lower case. *)
Definition keyPart (k : jsstring) : jsstring :=
  if streq k (lit "Enter") then lit "enter"
  else if streq k (lit "Escape") then lit "esc"
  else if streq k (lit "Tab") then lit "tab"
  else if streq k (lit "Backspace") then lit "backspace"
  else if streq k (lit "Delete") then lit "delete"
  else if streq k (lit "ArrowUp") then lit "arrowup"
  else if streq k (lit "ArrowDown") then lit "arrowdown"
  else if (length k =? 1)%nat then toLowerCase k
  else toLowerCase k.

Definition getKeyString (event : KeyboardEvent) : jsstring :=
  let parts :=
    (if ctrlKey event || metaKey event then [lit "ctrl"] else [])
    ++ (if altKey event then [lit "alt"] else [])
    ++ (if shiftKey event then [lit "shift"] else [])
    ++ [keyPart (key event)] in
  join (lit "+") parts.

(** [handleKeyDown]: the handler that is called, if any; when there is one,
    [preventDefault] and [stopPropagation] are called on the event first. *)
Definition handleKeyDown (this : HotkeyManager) (event : KeyboardEvent)
  : option Handler :=
  if negb (isEnabled this) then None
  else mapGet (getKeyString event) (handlers this).

End Manager.

Arguments mapSet {Handler} k v m.
Arguments mapGet {Handler} k m.
Arguments mapDelete {Handler} k m.
Arguments handlers {Handler} h.
Arguments isEnabled {Handler} h.
Arguments newHotkeyManager {Handler}.
Arguments register {Handler} this name handler.
Arguments unregister {Handler} this name.
Arguments enable {Handler} this.
Arguments disable {Handler} this.
Arguments handleKeyDown {Handler} this event.

(** The keys of the table that [getDefaultHotkeys] returns. *)
Definition defaultHotkeyNames : list jsstring := map lit
  [ "ctrl+enter"; "ctrl+/"; "ctrl+shift+enter"; "ctrl+shift+c"; "ctrl+shift+v";
    "ctrl+shift+f"; "ctrl+shift+u"; "ctrl+shift+l"; "ctrl+d"; "ctrl+l";
    "ctrl+shift+d"; "alt+arrowup"; "alt+arrowdown"; "ctrl+shift+k"; "ctrl+k";
    "ctrl+shift+i"; "ctrl+shift+o"; "ctrl+space"; "ctrl+shift+space"; "f5";
    "ctrl+f"; "ctrl+h"; "ctrl+g"; "ctrl+shift+h" ]%string.

End Hotkeys.


(** ** Sample inputs for the hotkey manager *)

(** Ctrl+Enter. *)
Definition ctrlEnterEvent : Hotkeys.KeyboardEvent :=
  {| Hotkeys.ctrlKey := true; Hotkeys.metaKey := false; Hotkeys.altKey := false;
     Hotkeys.shiftKey := false; Hotkeys.key := lit "Enter" |}.

(** Ctrl and the space bar. *)
Definition ctrlSpaceEvent : Hotkeys.KeyboardEvent :=
  {| Hotkeys.ctrlKey := true; Hotkeys.metaKey := false; Hotkeys.altKey := false;
     Hotkeys.shiftKey := false; Hotkeys.key := lit " " |}.

(** The manager of the query builder, with its three handlers, named here by
    what they do. *)
Definition queryBuilderHotkeys : Hotkeys.HotkeyManager jsstring :=
  Hotkeys.register
    (Hotkeys.register
       (Hotkeys.register Hotkeys.newHotkeyManager (lit "ctrl+enter") (lit "execute"))
       (lit "ctrl+space") (lit "autocomplete"))
    (lit "ctrl+shift+f") (lit "format").

(** ** The migration manager (class [MigrationManager]) *)

Module Migrations.

Record Migration := {
  id : jsstring;
  name : jsstring;
  up : jsstring;
  down : jsstring;
  timestamp : Z
}.

Record MigrationManager := { migrations : list Migration }.

(** [new MigrationManager()]. *)
Definition newMigrationManager : MigrationManager := {| migrations := [] |}.

(** The methods read the clock and the random numbers of the host and
    update [this]: they take and return both. *)
Definition Run (A : Type) : Type :=
  MigrationManager -> World -> A * MigrationManager * World.

(** [Date.now()]. *)
Definition now (w : World) : Z * World :=
  (clock w (ticks w), setTicks w (S (ticks w))).

(** [Math.random().toString(36).substr(2, 9)]. *)
Definition randomSuffix (w : World) : jsstring * World :=
  (random w (draws w), setDraws w (S (draws w))).

Definition generateId (w : World) : jsstring * World :=
  let (t, w1) := now w in
  let (r, w2) := randomSuffix w1 in
  (decimal t ++ lit "-" ++ r, w2).

Definition createMigration (name0 up0 down0 : jsstring) : Run Migration :=
  fun this w =>
    let (newId, w1) := generateId w in
    let (t, w2) := now w1 in
    let migration :=
      {| id := newId; name := name0; up := up0; down := down0; timestamp := t |} in
    (migration, {| migrations := migrations this ++ [migration] |}, w2).

Definition getAll (this : MigrationManager) : list Migration := migrations this.

(** [null] is [None]. *)
Definition getById (this : MigrationManager) (id0 : jsstring) : option Migration :=
  find (fun m => streq (id m) id0) (migrations this).

Definition newline : jsstring := ["010"%char].

(** The callbacks of [map] in the two methods below. *)
Definition migrationBlock (m : Migration) : jsstring :=
  lit "-- Migration: " ++ name m ++ newline ++ up m.

Definition rollbackBlock (m : Migration) : jsstring :=
  lit "-- Rollback: " ++ name m ++ newline ++ down m.

Definition generateMigrationSQL (this : MigrationManager) : jsstring :=
  join (newline ++ newline) (map migrationBlock (migrations this)).

(** [this.migrations.reverse()] reverses the array of [this] in place and
    returns it: the text comes with the manager as the call leaves it. *)
Definition generateRollbackSQL (this : MigrationManager)
  : jsstring * MigrationManager :=
  let reversed := rev (migrations this) in
  (join (newline ++ newline) (map rollbackBlock reversed),
   {| migrations := reversed |}).

(** The scripts of a migration to create. *)
Record Script := { scriptName : jsstring; scriptUp : jsstring; scriptDown : jsstring }.

(** A series of calls of [createMigration]. *)
Fixpoint createAll (scripts : list Script) (this : MigrationManager) (w : World)
  : MigrationManager * World :=
  match scripts with
  | [] => (this, w)
  | sc :: rest =>
      let '(_, this1, w1) :=
        createMigration (scriptName sc) (scriptUp sc) (scriptDown sc) this w in
      createAll rest this1 w1
  end.

Definition scriptOf (m : Migration) : Script :=
  {| scriptName := name m; scriptUp := up m; scriptDown := down m |}.

(** The identifier of [m] was built from an earlier reading of the clock
    than reading [n], and its [timestamp] is the reading after that one. *)
Definition stamped (clk : nat -> Z) (n : nat) (m : Migration) : Prop :=
  exists j r, (S j < n)%nat /\ id m = idAt clk j r /\ timestamp m = clk (S j).

(** [a] got its identifier at an earlier reading of the clock than [b]. *)
Definition idBefore (clk : nat -> Z) (a b : Migration) : Prop :=
  exists i j ra rb, id a = idAt clk i ra /\ id b = idAt clk j rb /\ (i < j)%nat.

End Migrations.

(** Two migrations to create. *)
Definition sampleScripts : list Migrations.Script :=
  [ {| Migrations.scriptName := lit "create users";
       Migrations.scriptUp := lit "CREATE TABLE users (id INTEGER)";
       Migrations.scriptDown := lit "DROP TABLE users" |};
    {| Migrations.scriptName := lit "add email";
       Migrations.scriptUp := lit "ALTER TABLE users ADD COLUMN email TEXT";
       Migrations.scriptDown := lit "ALTER TABLE users DROP COLUMN email" |} ].

(** ** The pages of the data explorer (component [DataExplorer]) *)

Module DataExplorer.

(** [l.slice(b, e)] for integers [b] and [e]: a negative index counts from
    the end of the array, and both are clamped to the array. *)
Definition slice {A} (l : list A) (b e : Z) : list A :=
  let len := Z.of_nat (length l) in
  let k := if b <? 0 then Z.max (len + b) 0 else Z.min b len in
  let final := if e <? 0 then Z.max (len + e) 0 else Z.min e len in
  firstn (Z.to_nat (final - k)) (skipn (Z.to_nat k) l).

(** [Math.ceil(n / d)] for integers [n] and [d] with [d > 0]; the page
    sizes offered are 25, 50, 100 and 200. *)
Definition ceilDiv (n d : Z) : Z := - ((- n) / d).

Section Pages.

Context {Row : Type}.
Variable processedData : list Row.
Variable pageSize : Z.
Variable currentPage : Z.

Definition totalPages : Z := ceilDiv (Z.of_nat (length processedData)) pageSize.
Definition startIndex : Z := (currentPage - 1) * pageSize.
Definition endIndex : Z := startIndex + pageSize.
Definition paginatedData : list Row := slice processedData startIndex endIndex.

(** [Showing {startIndex + 1} to {Math.min(endIndex, processedData.length)}]. *)
Definition shownFrom : Z := startIndex + 1.
Definition shownTo : Z := Z.min endIndex (Z.of_nat (length processedData)).

End Pages.

(** The number on the [i]-th page button. *)
Definition pageNum (totalPages currentPage i : Z) : Z :=
  if totalPages <=? 5 then i + 1
  else if currentPage <=? 3 then i + 1
  else if currentPage >=? totalPages - 2 then totalPages - 4 + i
  else currentPage - 2 + i.

(** [Array.from({ length: Math.min(5, totalPages) }, (_, i) => pageNum)]. *)
Definition pageButtons (totalPages currentPage : Z) : list Z :=
  map (fun i => pageNum totalPages currentPage (Z.of_nat i))
      (seq 0 (Z.to_nat (Z.min 5 totalPages))).

(** The pages [1 .. totalPages], one after the other. *)
Definition allPages {Row} (processedData : list Row) (pageSize : Z) : list (list Row) :=
  map (fun p => paginatedData processedData pageSize (Z.of_nat p))
      (seq 1 (Z.to_nat (totalPages processedData pageSize))).

End DataExplorer.

(** ** The search box of the history panel (component [QueryHistory]) *)

(** [l.filter(cb)] outside the class, with a callback that may throw: the
    first exception ends the filter. *)
Fixpoint filterThrowing {A} (f : A -> Completion bool) (l : list A)
  : Completion (list A) :=
  match l with
  | [] => Normal []
  | x :: l' =>
      match f x with
      | Throw e => Throw e
      | Normal b =>
          match filterThrowing f l' with
          | Throw e => Throw e
          | Normal r => Normal (if b then x :: r else r)
          end
      end
  end.

(** [filteredHistory]: a search text that is blank ([!searchQuery.trim()])
    shows the whole list; otherwise the callback calls [toLowerCase] on the
    [query] of each entry, which throws when that is not a string. *)
Definition filteredHistory (queryHistory : list Entry) (searchQuery : jsstring)
  : Completion (list Entry) :=
  match trim searchQuery with
  | [] => Normal queryHistory
  | _ :: _ =>
      let lowerQuery := toLowerCase searchQuery in
      filterThrowing
        (fun item =>
           match queryOf item with
           | Some q => Normal (includes (toLowerCase q) lowerQuery)
           | None => Throw TypeError
           end)
        queryHistory
  end.

(** ** The filter of the data explorer (component [DataExplorer]) *)

Module RowFilter.

Section Rows.

(** [String(n)] for a number [n]. *)
Variable numberToString : Q -> jsstring.

(** [String(cell || '')]: [null], the number 0 and the empty string are
    falsy and give the empty string. *)
Definition cellText (cell : SqlValue) : jsstring :=
  match cell with
  | SqlNull => []
  | SqlNumber q => if Qeq_bool q 0 then [] else numberToString q
  | SqlText s => s
  end.

(** The step [// Apply filter] of [processedData]. *)
Definition filterRows (data : list (list SqlValue)) (filterText : jsstring)
  : list (list SqlValue) :=
  match trim filterText with
  | [] => data
  | _ :: _ =>
      let lowerFilter := toLowerCase filterText in
      filter (fun row =>
                existsb (fun cell => includes (toLowerCase (cellText cell)) lowerFilter)
                        row)
             data
  end.

End Rows.

(** A cell that [cell || ''] turns into the empty string. *)
Definition falsy (cell : SqlValue) : Prop :=
  match cell with
  | SqlNull => True
  | SqlNumber q => q == 0
  | SqlText s => s = []
  end.

End RowFilter.

(** ** The values of the SQL export ([DatabaseManager.exportAsSQL]) *)

Module SqlExport.

(** [val.replace(/'/g, "''")]. *)
Definition doubleQuotes (s : jsstring) : jsstring :=
  flat_map (fun c => if Ascii.eqb c "'" then ["'"; "'"]%char else [c]) s.

Section Values.

(** [String(n)] for a number [n], as [join] prints it. *)
Variable numberToString : Q -> jsstring.

(** The callback of [row.map]. *)
Definition sqlValue (val : SqlValue) : jsstring :=
  match val with
  | SqlNull => lit "NULL"
  | SqlText s => lit "'" ++ doubleQuotes s ++ lit "'"
  | SqlNumber q => numberToString q
  end.

(** The statement pushed for one row of the table [tableName]. *)
Definition insertStatement (tableName : jsstring) (row : list SqlValue) : jsstring :=
  lit "INSERT INTO " ++ tableName ++ lit " VALUES ("
    ++ join (lit ", ") (map sqlValue row) ++ lit ");".

End Values.

(** How SQL reads the body of a string literal, behind its opening quote:
    two quotes in a row stand for one quote of the text, a single quote ends
    the literal. The result is the text and what follows the literal. *)
Fixpoint readStringBody (s : jsstring) : option (jsstring * jsstring) :=
  match s with
  | [] => None
  | c :: s1 =>
      if Ascii.eqb c "'" then
        match s1 with
        | c2 :: s2 =>
            if Ascii.eqb c2 "'"
            then match readStringBody s2 with
                 | Some (text, rest) => Some ("'"%char :: text, rest)
                 | None => None
                 end
            else Some ([], s1)
        | [] => Some ([], [])
        end
      else match readStringBody s1 with
           | Some (text, rest) => Some (c :: text, rest)
           | None => None
           end
  end.

Definition readStringLiteral (s : jsstring) : option (jsstring * jsstring) :=
  match s with
  | c :: body => if Ascii.eqb c "'" then readStringBody body else None
  | [] => None
  end.

End SqlExport.

(** ** Sample inputs for the search box, the filter and the export *)

(** A manager that holds the two sample entries. *)
Definition sampleLog : State :=
  {| self := {| history := map Item sampleItems; maxHistorySize := 100;
                storageKey := lit "sqlite-visualizer-history" |};
     world := sampleWorld |}.

(** Numbers printed in a fixed way, for the examples. *)
Definition sampleNumberToString (q : Q) : jsstring := lit "7".

Definition sampleRows : list (list SqlValue) :=
  [ [SqlNumber 0; SqlNull]; [SqlText (lit "0"); SqlNull] ].

(** ** The indexes of a table ([DatabaseManager.getTableIndexes]) *)

Module Indexes.

Definition notClosing (c : ascii) : bool := negb (Ascii.eqb c ")").

(** [sql.match] with the pattern of a parenthesised group: the match starts
    at the first opening parenthesis that is followed by one character or
    more other than a closing parenthesis and then by a closing parenthesis;
    the result is the group, the text between the two. *)
Fixpoint matchParenthesised (s : jsstring) : option jsstring :=
  match s with
  | [] => None
  | c :: s' =>
      if Ascii.eqb c "(" then
        match takeWhile notClosing s', dropWhile notClosing s' with
        | (_ :: _) as group, _ :: _ => Some group
        | _, _ => matchParenthesised s'
        end
      else matchParenthesised s'
  end.

(** [s.split(sep)] for a separator of one character. *)
Fixpoint split (sep : ascii) (s : jsstring) : list jsstring :=
  match s with
  | [] => [[]]
  | c :: s' =>
      if Ascii.eqb c sep then [] :: split sep s'
      else match split sep s' with
           | p :: ps => (c :: p) :: ps
           | [] => [[c]]
           end
  end.

Definition doubleQuote : ascii := "034"%char.

(** The class of the pattern of [replace]: the double quote and the
    backquote. *)
Definition isQuote (c : ascii) : bool :=
  Ascii.eqb c doubleQuote || Ascii.eqb c "`".

(** The callback of [split(',').map]: [trim], then [replace] of every
    quote of that class by the empty string. *)
Definition columnName (col : jsstring) : jsstring :=
  filter (fun c => negb (isQuote c)) (trim col).

(** The callback of [values.map], for a row [[name, sql]]; the text [sql]
    is [None] when the cell is [null], as for the indexes that SQLite
    creates by itself. *)
Definition indexOfRow (rowName : jsstring) (sql : option jsstring) : IndexInfo :=
  {| idx_name := rowName;
     unique :=
       match sql with
       | Some text => includes (toUpperCase text) (lit "UNIQUE")
       | None => false
       end;
     idx_columns :=
       match sql with
       | Some text =>
           match matchParenthesised text with
           | Some group => map columnName (split "," group)
           | None => []
           end
       | None => []
       end |}.

(** A column name made of letters, digits and underscores. *)
Definition PlainName (c : jsstring) : Prop :=
  c <> [] /\ forallb isWordChar c = true.

(** [w] is the name [c] as the text of an index may write it: bare, between
    double quotes or between backquotes, with white space around. *)
Definition WrittenAs (c w : jsstring) : Prop :=
  exists l q r,
    forallb isSpace l = true /\ forallb isSpace r = true /\
    (q = [] \/ q = [doubleQuote] \/ q = ["`"%char]) /\
    w = l ++ q ++ c ++ q ++ r.

End Indexes.

(** The text of an index on two columns, one of them quoted. *)
Definition sampleIndexSql : jsstring :=
  lit "CREATE UNIQUE INDEX idx_users ON users (" ++ [Indexes.doubleQuote]
    ++ lit "name" ++ [Indexes.doubleQuote] ++ lit ", email)".
(* ================================================================== *)
(** * Facts about the string primitives *)
(* ================================================================== *)

Section StringFacts.

Lemma ascii_eqb_true (a b : ascii) : Ascii.eqb a b = true <-> a = b.
Proof. apply Ascii.eqb_eq. Qed.

Lemma streq_true (a b : jsstring) : streq a b = true <-> a = b.
Proof.
  revert b; induction a as [|x a IH]; intros [|y b]; simpl; split; intro H;
    try reflexivity; try discriminate.
  - apply andb_true_iff in H as [Hx Hr].
    apply ascii_eqb_true in Hx. apply IH in Hr. now subst.
  - inversion H; subst. rewrite Ascii.eqb_refl. simpl. now apply IH.
Qed.

(** [startsWith s p] holds exactly when [p] is a prefix of [s]. *)
Lemma startsWith_app (s p : jsstring) :
  startsWith s p = true <-> exists r, s = p ++ r.
Proof.
  revert s; induction p as [|y p IH]; intros s; simpl.
  - split; [intros _; now exists s | reflexivity].
  - destruct s as [|x s].
    + split; [discriminate | intros [r Hr]; discriminate].
    + rewrite andb_true_iff, ascii_eqb_true, IH. split.
      * intros [-> [r ->]]. now exists r.
      * intros [r Hr]. inversion Hr; subst. split; [reflexivity | now exists r].
Qed.

Lemma startsWith_nil (s : jsstring) : startsWith s [] = true.
Proof. destruct s; reflexivity. Qed.

Lemma startsWith_firstn (s p : jsstring) :
  startsWith s p = true <-> firstn (length p) s = p.
Proof.
  rewrite startsWith_app. split.
  - intros [r ->]. rewrite firstn_app, Nat.sub_diag, firstn_all. simpl.
    apply app_nil_r.
  - intros H. exists (skipn (length p) s).
    rewrite <- H at 1. symmetry. apply firstn_skipn.
Qed.

Lemma toUpperChar_idem (c : ascii) : toUpperChar (toUpperChar c) = toUpperChar c.
Proof. destruct c as [[] [] [] [] [] [] [] []]; reflexivity. Qed.

Lemma toLowerChar_upper (c : ascii) : toLowerChar (toUpperChar c) = toLowerChar c.
Proof. destruct c as [[] [] [] [] [] [] [] []]; reflexivity. Qed.

Lemma isSpace_upper (c : ascii) : isSpace (toUpperChar c) = isSpace c.
Proof. destruct c as [[] [] [] [] [] [] [] []]; reflexivity. Qed.

Lemma isWordChar_upper (c : ascii) : isWordChar (toUpperChar c) = isWordChar c.
Proof. destruct c as [[] [] [] [] [] [] [] []]; reflexivity. Qed.

Lemma isSpace_not_word (c : ascii) : isSpace c = true -> isWordChar c = false.
Proof. destruct c as [[] [] [] [] [] [] [] []]; vm_compute; congruence. Qed.

Lemma toUpperCase_idem (s : jsstring) : toUpperCase (toUpperCase s) = toUpperCase s.
Proof.
  unfold toUpperCase. rewrite map_map. apply map_ext. apply toUpperChar_idem.
Qed.

Lemma toLowerCase_upper (s : jsstring) : toLowerCase (toUpperCase s) = toLowerCase s.
Proof.
  unfold toLowerCase, toUpperCase. rewrite map_map. apply map_ext.
  apply toLowerChar_upper.
Qed.

Lemma toUpperCase_app (a b : jsstring) :
  toUpperCase (a ++ b) = toUpperCase a ++ toUpperCase b.
Proof. apply map_app. Qed.


Lemma toUpperCase_firstn n (s : jsstring) :
  toUpperCase (firstn n s) = firstn n (toUpperCase s).
Proof. symmetry. apply firstn_map. Qed.

Lemma toUpperCase_skipn n (s : jsstring) :
  toUpperCase (skipn n s) = skipn n (toUpperCase s).
Proof. symmetry. apply skipn_map. Qed.

End StringFacts.

(* ================================================================== *)
(** * The sort of the suggestions *)
(* ================================================================== *)

Section SortFacts.

Context {A : Type} (cmp : A -> A -> Z).

Lemma insertBy_skip (x : A) (l1 l2 : list A) :
  (forall y, In y l1 -> cmp x y > 0) ->
  insertBy cmp x (l1 ++ l2) = l1 ++ insertBy cmp x l2.
Proof.
  induction l1 as [|y l1 IH]; intros H; simpl; [reflexivity|].
  assert (Hy : (cmp x y >? 0) = true) by (apply Z.gtb_lt; specialize (H y (or_introl eq_refl)); lia).
  rewrite Hy, IH; [reflexivity|]. intros z Hz. apply H. now right.
Qed.

Lemma insertBy_stop (x : A) (l : list A) :
  (forall y, In y l -> cmp x y <= 0) -> insertBy cmp x l = x :: l.
Proof.
  destruct l as [|y l]; intros H; simpl; [reflexivity|].
  assert (Hy : (cmp x y >? 0) = false).
  { specialize (H y (or_introl eq_refl)). destruct (Z.gtb_spec (cmp x y) 0); [lia | reflexivity]. }
  now rewrite Hy.
Qed.

End SortFacts.


(* ================================================================== *)
(** * The autocomplete engine: order and groups of the result *)
(* ================================================================== *)

Lemma ofType_true t s : ofType t s = true <-> type s = t.
Proof. unfold ofType. destruct (type s), t; simpl; split; congruence. Qed.

Lemma filter_ofType_type t l y : In y (filter (ofType t) l) -> type y = t.
Proof. intros H. apply filter_In in H as [_ H]. now apply ofType_true. Qed.

(** The comparator ranks a table 1, a column 2 and a keyword 3, so the
    stable sort lists the tables, then the columns, then the keywords, each
    group in its order of arrival. *)
Lemma sort_by_type (l : list Suggestion) :
  sort compareSuggestions l =
  filter (ofType table) l ++ filter (ofType column) l ++ filter (ofType keyword) l.
Proof.
  induction l as [|x l IH]; [reflexivity|].
  change (sort compareSuggestions (x :: l))
    with (insertBy compareSuggestions x (sort compareSuggestions l)).
  rewrite IH. clear IH.
  destruct x as [lab []]; cbn [filter ofType type SuggestionType_eqb].
  - (* keyword: rank 3, behind the tables and the columns *)
    rewrite app_assoc, insertBy_skip.
    + rewrite insertBy_stop; [now rewrite <- app_assoc|].
      intros y Hy. apply filter_ofType_type in Hy.
      unfold compareSuggestions. rewrite Hy. simpl. lia.
    + intros y Hy. unfold compareSuggestions.
      apply in_app_or in Hy as [Hy|Hy]; apply filter_ofType_type in Hy;
        rewrite Hy; simpl; unfold orDefault; simpl; lia.
  - (* table: rank 1, in front *)
    rewrite insertBy_stop; [reflexivity|].
    intros y Hy. unfold compareSuggestions.
    apply in_app_or in Hy as [Hy|Hy]; [|apply in_app_or in Hy as [Hy|Hy]];
      apply filter_ofType_type in Hy; rewrite Hy; simpl; unfold orDefault; simpl; lia.
  - (* column: rank 2, behind the tables *)
    rewrite insertBy_skip.
    + rewrite insertBy_stop; [reflexivity|].
      intros y Hy. unfold compareSuggestions.
      apply in_app_or in Hy as [Hy|Hy]; apply filter_ofType_type in Hy;
        rewrite Hy; simpl; unfold orDefault; simpl; lia.
    + intros y Hy. apply filter_ofType_type in Hy.
      unfold compareSuggestions. rewrite Hy. simpl. unfold orDefault. simpl. lia.
Qed.

Lemma filter_ofType_same (t : SuggestionType) (l : list Suggestion) :
  (forall x, In x l -> type x = t) -> filter (ofType t) l = l.
Proof.
  induction l as [|x l IH]; intros H; simpl; [reflexivity|].
  assert (E : ofType t x = true) by (apply ofType_true, H; now left).
  rewrite E, IH; [reflexivity|]. intros y Hy. apply H. now right.
Qed.

Lemma filter_ofType_other (t t' : SuggestionType) (l : list Suggestion) :
  t <> t' -> (forall x, In x l -> type x = t') -> filter (ofType t) l = [].
Proof.
  intros Hne. induction l as [|x l IH]; intros H; simpl; [reflexivity|].
  assert (E : ofType t x = false).
  { destruct (ofType t x) eqn:E; [|reflexivity].
    apply ofType_true in E. rewrite (H x (or_introl eq_refl)) in E. congruence. }
  rewrite E. apply IH. intros y Hy. apply H. now right.
Qed.

(** Sorting the keywords, then the tables, then the columns. *)
Lemma sort_three_groups (ks ts cs : list Suggestion) :
  (forall x, In x ks -> type x = keyword) ->
  (forall x, In x ts -> type x = table) ->
  (forall x, In x cs -> type x = column) ->
  sort compareSuggestions (ks ++ ts ++ cs) = ts ++ cs ++ ks.
Proof.
  intros Hk Ht Hc. rewrite sort_by_type, !filter_app.
  rewrite (filter_ofType_same _ _ Hk), (filter_ofType_same _ _ Ht),
    (filter_ofType_same _ _ Hc).
  rewrite (filter_ofType_other table keyword ks ltac:(discriminate) Hk).
  rewrite (filter_ofType_other table column cs ltac:(discriminate) Hc).
  rewrite (filter_ofType_other column keyword ks ltac:(discriminate) Hk).
  rewrite (filter_ofType_other column table ts ltac:(discriminate) Ht).
  rewrite (filter_ofType_other keyword table ts ltac:(discriminate) Ht).
  rewrite (filter_ofType_other keyword column cs ltac:(discriminate) Hc).
  cbn [app]. now rewrite !app_nil_r.
Qed.

Lemma type_of_map (t : SuggestionType) (l : list jsstring) (x : Suggestion) :
  In x (map (fun s => {| label := s; type := t |}) l) -> type x = t.
Proof. intros H. apply in_map_iff in H as [s [<- _]]. reflexivity. Qed.

Lemma type_of_guarded (t : SuggestionType) (b : bool) (l : list Suggestion) :
  (forall x, In x l -> type x = t) ->
  forall x, In x (if b then l else []) -> type x = t.
Proof. destruct b; [trivial | intros _ x []]. Qed.

Lemma type_keywordGroup this b x : In x (keywordGroup this b) -> type x = keyword.
Proof. apply type_of_map. Qed.

Lemma type_tableGroup this b x : In x (tableGroup this b) -> type x = table.
Proof. apply type_of_guarded, type_of_map. Qed.

Lemma type_columnGroup this b x : In x (columnGroup this b) -> type x = column.
Proof. apply type_of_guarded, type_of_map. Qed.

Lemma currentWordOf_eq (beforeCursor : jsstring) :
  match matchTrailingWord beforeCursor with
  | Some w => toUpperCase w
  | None => []
  end = currentWordOf beforeCursor.
Proof.
  unfold currentWordOf, rawWord. now destruct (matchTrailingWord beforeCursor).
Qed.

(** [getSuggestions] returns the table group, then the column group, then
    the keyword group. *)
Lemma getSuggestions_groups (this : SQLAutocomplete) (q : jsstring) (p : Z) :
  getSuggestions this q p =
    tableGroup this (substring0 q p) ++ columnGroup this (substring0 q p)
    ++ keywordGroup this (substring0 q p).
Proof.
  unfold getSuggestions. cbv zeta.
  generalize (substring0 q p). intros b.
  rewrite (currentWordOf_eq b). unfold shouldSuggestKeywords.
  apply (sort_three_groups (keywordGroup this b) (tableGroup this b) (columnGroup this b)).
  - apply type_keywordGroup.
  - apply type_tableGroup.
  - apply type_columnGroup.
Qed.

(* ------------------------------------------------------------------ *)
(** ** The current word *)

Lemma matchTrailingWord_tail (a : ascii) (s : jsstring) :
  forallb isWordChar (a :: s) = false ->
  matchTrailingWord (a :: s) = matchTrailingWord s.
Proof.
  intros H. change (matchTrailingWord (a :: s))
    with (if forallb isWordChar (a :: s) then Some (a :: s) else matchTrailingWord s).
  now rewrite H.
Qed.

Lemma rawWord_is_CurrentWord (before : jsstring) : CurrentWord before (rawWord before).
Proof.
  unfold rawWord. induction before as [|a s IH].
  - exists []. repeat split. intros [|] c; discriminate.
  - destruct (forallb isWordChar (a :: s)) eqn:E.
    + simpl matchTrailingWord. simpl in E. rewrite E.
      exists []. repeat split; [exact E|]. intros [|] c; discriminate.
    + rewrite (matchTrailingWord_tail _ _ E).
      destruct IH as [pre [Hs [Hw Hmax]]].
      exists (a :: pre). split; [simpl; now rewrite <- Hs|]. split; [exact Hw|].
      intros pre' c Hc. destruct pre' as [|b pre'].
      * inversion Hc; subst. simpl in Hs, E.
        rewrite <- Hs in Hw. rewrite Hw, andb_true_r in E. exact E.
      * inversion Hc; subst. eapply Hmax; reflexivity.
Qed.

Lemma CurrentWord_rawWord (before w : jsstring) :
  CurrentWord before w -> rawWord before = w.
Proof.
  intros [pre [-> [Hw Hmax]]]. unfold rawWord.
  induction pre as [|a pre IH].
  - simpl. destruct w as [|c w]; [reflexivity|].
    simpl matchTrailingWord. simpl in Hw. now rewrite Hw.
  - assert (E : forallb isWordChar ((a :: pre) ++ w) = false).
    { destruct (exists_last (l := a :: pre)) as [pre' [c Hc]]; [discriminate|].
      rewrite Hc, forallb_app, forallb_app. simpl.
      now rewrite (Hmax _ _ Hc), andb_false_r. }
    simpl app in *. rewrite (matchTrailingWord_tail _ _ E).
    apply IH. intros pre' c Hc. apply (Hmax (a :: pre') c). simpl. now rewrite Hc.
Qed.

Lemma CurrentWord_currentWordOf (before w : jsstring) :
  CurrentWord before w -> currentWordOf before = toUpperCase w.
Proof. intros H. unfold currentWordOf. now rewrite (CurrentWord_rawWord _ _ H). Qed.

(** A word that follows a character outside [\w] and runs to the end. *)
Lemma CurrentWord_after (pre : jsstring) (c : ascii) (w : jsstring) :
  isWordChar c = false -> forallb isWordChar w = true ->
  CurrentWord (pre ++ c :: w) w.
Proof.
  intros Hc Hw. exists (pre ++ [c]). split; [now rewrite <- app_assoc|].
  split; [exact Hw|]. intros pre' c' H.
  apply app_inj_tail in H as [_ <-]. exact Hc.
Qed.

Lemma In_keywordGroup this b c :
  In c (keywordGroup this b) ->
  type c = keyword /\ startsWith (label c) (toUpperCase (currentWordOf b)) = true.
Proof.
  intros H. apply in_map_iff in H as [t [<- Ht]].
  apply filter_In in Ht as [_ Ht]. split; [reflexivity | exact Ht].
Qed.

Lemma In_tableGroup this b c :
  In c (tableGroup this b) ->
  type c = table /\
  startsWith (toLowerCase (label c)) (toLowerCase (currentWordOf b)) = true.
Proof.
  unfold tableGroup. destruct (shouldSuggestTables _); [|intros []].
  intros H. apply in_map_iff in H as [t [<- Ht]].
  apply filter_In in Ht as [_ Ht]. split; [reflexivity | exact Ht].
Qed.

Lemma In_columnGroup this b c :
  In c (columnGroup this b) ->
  type c = column /\
  startsWith (toLowerCase (label c)) (toLowerCase (currentWordOf b)) = true.
Proof.
  unfold columnGroup. destruct (shouldSuggestColumns _); [|intros []].
  intros H. apply in_map_iff in H as [t [<- Ht]].
  apply filter_In in Ht as [_ Ht]. split; [reflexivity | exact Ht].
Qed.

(** C1. For every query [q] and cursor offset [0 <= p <= len q],
    [getSuggestions q p] returns a list (the function is total), and every
    candidate of it matches the current word [w] at [p], the maximal trailing
    run of word characters of the first [p] characters of [q]: the label of a
    keyword candidate starts with [w] in upper case, and the label of a table
    or column candidate, put in lower case, starts with [w] in lower case.
    With [w] empty this holds of any label. *)
Theorem getSuggestions_prefix_match
  (this : SQLAutocomplete) (q : jsstring) (p : Z) (w : jsstring) :
  0 <= p <= Z.of_nat (length q) ->
  CurrentWord (firstn (Z.to_nat p) q) w ->
  (exists l, getSuggestions this q p = l) /\
  forall c, In c (getSuggestions this q p) ->
    match type c with
    | keyword => startsWith (label c) (toUpperCase w) = true
    | table | column => startsWith (toLowerCase (label c)) (toLowerCase w) = true
    end.
Proof.
  intros _ Hw. split; [eexists; reflexivity|].
  intros c Hc. rewrite getSuggestions_groups in Hc.
  unfold substring0 in Hc.
  apply in_app_or in Hc as [Hc|Hc]; [|apply in_app_or in Hc as [Hc|Hc]].
  - apply In_tableGroup in Hc as [-> Hc].
    now rewrite (CurrentWord_currentWordOf _ _ Hw), toLowerCase_upper in Hc.
  - apply In_columnGroup in Hc as [-> Hc].
    now rewrite (CurrentWord_currentWordOf _ _ Hw), toLowerCase_upper in Hc.
  - apply In_keywordGroup in Hc as [-> Hc].
    now rewrite (CurrentWord_currentWordOf _ _ Hw), toUpperCase_idem in Hc.
Qed.

Lemma getSuggestions_prefix_match_witness :
  0 <= 16 <= Z.of_nat (length (lit "SELECT * FROM us")) /\
  CurrentWord (firstn (Z.to_nat 16) (lit "SELECT * FROM us")) (lit "us") /\
  forall c, In c (getSuggestions usersEngine (lit "SELECT * FROM us") 16) ->
    match type c with
    | keyword => startsWith (label c) (toUpperCase (lit "us")) = true
    | table | column =>
        startsWith (toLowerCase (label c)) (toLowerCase (lit "us")) = true
    end.
Proof.
  assert (Hp : 0 <= 16 <= Z.of_nat (length (lit "SELECT * FROM us"))) by (simpl; lia).
  assert (Hw : CurrentWord (firstn (Z.to_nat 16) (lit "SELECT * FROM us")) (lit "us"))
    by (apply (CurrentWord_after (lit "SELECT * FROM") " " (lit "us")); reflexivity).
  split; [exact Hp|]. split; [exact Hw|].
  exact (proj2 (getSuggestions_prefix_match usersEngine
                  (lit "SELECT * FROM us") 16 (lit "us") Hp Hw)).
Defined.

(* ------------------------------------------------------------------ *)
(** ** Duplicates and order of the returned list *)

Lemma vocabulary_NOT_twice :
  vocabulary = firstn 13 vocabulary ++ lit "NOT" :: firstn 27 (skipn 14 vocabulary)
               ++ lit "NOT" :: skipn 42 vocabulary.
Proof. vm_compute. reflexivity. Qed.

Lemma map_filter_twice {A B} (f : A -> bool) (mk : A -> B) (x : A)
  (l k1 k2 k3 : list A) :
  l = k1 ++ x :: k2 ++ x :: k3 -> f x = true ->
  exists m1 m2 m3, map mk (filter f l) = m1 ++ mk x :: m2 ++ mk x :: m3.
Proof.
  intros -> Hf.
  exists (map mk (filter f k1)), (map mk (filter f k2)), (map mk (filter f k3)).
  rewrite filter_app. cbn [filter]. rewrite Hf.
  rewrite filter_app. cbn [filter]. rewrite Hf.
  rewrite map_app. cbn [map]. rewrite map_app. reflexivity.
Qed.

(** C9. The vocabulary lists ['NOT'] twice, so the returned list is not free
    of duplicates: for an engine with the vocabulary of the class, whenever
    the current word is a prefix of ['NOT'] (compared in upper case), the
    candidate [{label: 'NOT', type: 'keyword'}] stands at two positions of the
    result; [getSuggestions "NO" 2] is exactly that candidate twice, whatever
    the schema. *)
Theorem getSuggestions_NOT_twice :
  (forall this q p w,
     keywords this = vocabulary ->
     CurrentWord (substring0 q p) w ->
     startsWith (lit "NOT") (toUpperCase w) = true ->
     exists l1 l2 l3,
       getSuggestions this q p = l1 ++ NOT_candidate :: l2 ++ NOT_candidate :: l3) /\
  (forall this,
     keywords this = vocabulary ->
     getSuggestions this (lit "NO") 2 = [NOT_candidate; NOT_candidate]) /\
  count_occ (list_eq_dec ascii_dec) vocabulary (lit "NOT") = 2%nat.
Proof.
  split; [|split].
  - intros this q p w Hk Hw Hpre.
    rewrite getSuggestions_groups.
    generalize (tableGroup this (substring0 q p)), (columnGroup this (substring0 q p)).
    intros tg cg.
    unfold keywordGroup, keywordCandidates.
    rewrite (CurrentWord_currentWordOf _ _ Hw), toUpperCase_idem, Hk.
    destruct (map_filter_twice (fun kw => startsWith kw (toUpperCase w))
                (fun kw => {| label := kw; type := keyword |}) (lit "NOT")
                vocabulary _ _ _ vocabulary_NOT_twice Hpre) as [m1 [m2 [m3 Hm]]].
    rewrite Hm. exists (tg ++ cg ++ m1), m2, m3.
    now rewrite <- !app_assoc.
  - intros this Hk. rewrite getSuggestions_groups.
    unfold tableGroup, columnGroup, keywordGroup, keywordCandidates. rewrite Hk.
    assert (Ht : shouldSuggestTables (getContext (substring0 (lit "NO") 2)) = false)
      by (vm_compute; reflexivity).
    assert (Hc : shouldSuggestColumns (getContext (substring0 (lit "NO") 2)) = false)
      by (vm_compute; reflexivity).
    rewrite Ht, Hc. cbn [app]. vm_compute. reflexivity.
  - vm_compute. reflexivity.
Qed.

Lemma getSuggestions_NOT_twice_witness :
  keywords usersEngine = vocabulary /\
  CurrentWord (substring0 (lit "SELECT * FROM t WHERE no") 24) (lit "no") /\
  startsWith (lit "NOT") (toUpperCase (lit "no")) = true /\
  exists l1 l2 l3,
    getSuggestions usersEngine (lit "SELECT * FROM t WHERE no") 24
    = l1 ++ NOT_candidate :: l2 ++ NOT_candidate :: l3.
Proof.
  assert (Hw : CurrentWord (substring0 (lit "SELECT * FROM t WHERE no") 24) (lit "no"))
    by (apply (CurrentWord_after (lit "SELECT * FROM t WHERE") " " (lit "no"));
        reflexivity).
  split; [reflexivity|]. split; [exact Hw|]. split; [reflexivity|].
  exact (proj1 getSuggestions_NOT_twice usersEngine (lit "SELECT * FROM t WHERE no") 24
           (lit "no") eq_refl Hw eq_refl).
Defined.

(** C4 (the code departs from it). The comparator reads the rank of a
    ['keyword'] as [0 || 3], which is 3, so the keyword candidates are sorted
    behind the table and column candidates, in every result: with the schema
    of one table [users] and the query ["SELECT * FROM "], cursor at the end,
    the table candidate [users] comes first and the keywords follow.  The
    comment of the source, and the specification, put the keywords first. *)
Theorem getSuggestions_keywords_sorted_last :
  compareSuggestions {| label := lit "SELECT"; type := keyword |}
                     {| label := lit "users"; type := table |} = 2 /\
  getSuggestions usersEngine (lit "SELECT * FROM ") 14
  = {| label := lit "users"; type := table |}
    :: map (fun kw => {| label := kw; type := keyword |}) vocabulary /\
  (forall this q p,
     exists front back,
       getSuggestions this q p = front ++ back /\
       (forall x, In x front -> type x = table \/ type x = column) /\
       (forall x, In x back -> type x = keyword)).
Proof.
  split; [|split]; [vm_compute; reflexivity .. |].
  intros this q p. rewrite getSuggestions_groups.
  exists (tableGroup this (substring0 q p) ++ columnGroup this (substring0 q p)),
         (keywordGroup this (substring0 q p)).
  split; [now rewrite app_assoc|]. split.
  - intros x Hx. apply in_app_or in Hx as [Hx|Hx].
    + left. now apply (type_tableGroup this (substring0 q p)).
    + right. now apply (type_columnGroup this (substring0 q p)).
  - apply type_keywordGroup.
Qed.

(* ------------------------------------------------------------------ *)
(** ** The examples of the specification and of the tests *)

Example suggestions_after_FROM :
  labelsOf table (getSuggestions usersEngine (lit "SELECT * FROM ") 14) = [lit "users"] /\
  labelsOf column (getSuggestions usersEngine (lit "SELECT * FROM ") 14) = [].
Proof. split; vm_compute; reflexivity. Qed.

Example suggestions_after_SELECT :
  labelsOf column (getSuggestions usersEngine (lit "SELECT ") 7)
    = [lit "users.id"; lit "users.name"] /\
  labelsOf table (getSuggestions usersEngine (lit "SELECT ") 7) = [] /\
  labelsOf keyword (getSuggestions usersEngine (lit "SELECT ") 7) = vocabulary.
Proof. repeat split; vm_compute; reflexivity. Qed.

Example suggestions_SEL :
  getSuggestions newSQLAutocomplete (lit "SEL") 3
  = [{| label := lit "SELECT"; type := keyword |}].
Proof. vm_compute. reflexivity. Qed.

Example suggestions_cursor_beyond_end :
  getSuggestions usersEngine (lit "SELECT * FROM ") 15
  = getSuggestions usersEngine (lit "SELECT * FROM ") 14.
Proof. vm_compute. reflexivity. Qed.

Lemma keywords_updateSchema (this : SQLAutocomplete) (s : DatabaseSchema) :
  keywords (updateSchema this s) = keywords this.
Proof. reflexivity. Qed.

(* ------------------------------------------------------------------ *)
(** ** The context flags *)









(* ------------------------------------------------------------------ *)
(** ** The table references of the text *)

Section WhileFacts.

Context {A : Type} (f : A -> bool).

Lemma takeWhile_dropWhile (l : list A) : takeWhile f l ++ dropWhile f l = l.
Proof.
  induction l as [|x l IH]; simpl; [reflexivity|].
  destruct (f x); simpl; [now rewrite IH | reflexivity].
Qed.

Lemma forallb_takeWhile (l : list A) : forallb f (takeWhile f l) = true.
Proof.
  induction l as [|x l IH]; simpl; [reflexivity|].
  destruct (f x) eqn:E; simpl; [now rewrite E | reflexivity].
Qed.

Lemma dropWhile_head (l : list A) (c : A) (r : list A) :
  dropWhile f l = c :: r -> f c = false.
Proof.
  induction l as [|x l IH]; simpl; [discriminate|].
  destruct (f x) eqn:E; [exact IH|]. intros H. inversion H; now subst.
Qed.

Lemma takeWhile_app_run (a b : list A) :
  forallb f a = true -> (forall c r, b = c :: r -> f c = false) ->
  takeWhile f (a ++ b) = a.
Proof.
  intros Ha Hb. induction a as [|x a IH]; simpl in *.
  - destruct b as [|c r]; [reflexivity|]. simpl. now rewrite (Hb c r eq_refl).
  - apply andb_true_iff in Ha as [Hx Ha]. rewrite Hx. now rewrite IH.
Qed.

Lemma dropWhile_app_run (a b : list A) :
  forallb f a = true -> (forall c r, b = c :: r -> f c = false) ->
  dropWhile f (a ++ b) = b.
Proof.
  intros Ha Hb. induction a as [|x a IH]; simpl in *.
  - destruct b as [|c r]; [reflexivity|]. simpl. now rewrite (Hb c r eq_refl).
  - apply andb_true_iff in Ha as [Hx Ha]. rewrite Hx. now apply IH.
Qed.

Lemma takeWhile_map (g : A -> A) (l : list A) :
  (forall x, f (g x) = f x) -> takeWhile f (map g l) = map g (takeWhile f l).
Proof.
  intros Hg. induction l as [|x l IH]; simpl; [reflexivity|].
  rewrite Hg. destruct (f x); simpl; [now rewrite IH | reflexivity].
Qed.

Lemma dropWhile_map (g : A -> A) (l : list A) :
  (forall x, f (g x) = f x) -> dropWhile f (map g l) = map g (dropWhile f l).
Proof.
  intros Hg. induction l as [|x l IH]; simpl; [reflexivity|].
  rewrite Hg. destruct (f x); simpl; [exact IH | reflexivity].
Qed.

End WhileFacts.

Lemma word_head_not_space (w : jsstring) :
  w <> [] -> forallb isWordChar w = true ->
  forall rest c r, w ++ rest = c :: r -> isSpace c = false.
Proof.
  intros Hne Hw rest c r H. destruct w as [|x w]; [congruence|].
  simpl in *. inversion H; subst. apply andb_true_iff in Hw as [Hx _].
  destruct (isSpace c) eqn:E; [|reflexivity].
  apply isSpace_not_word in E. congruence.
Qed.

Lemma forallb_toUpperCase (f : ascii -> bool) (l : jsstring) :
  (forall c, f (toUpperChar c) = f c) ->
  forallb f (toUpperCase l) = forallb f l.
Proof.
  intros Hf. induction l as [|x l IH]; simpl; [reflexivity|]. now rewrite Hf, IH.
Qed.

Lemma ReferenceAt_matchHere (kw s : jsstring) (i : nat) (w : jsstring) :
  ReferenceAt kw s i w ->
  matchKeywordWordHere kw (toUpperCase (skipn i s)) = Some (toUpperCase w).
Proof.
  intros [k [ws [rest [Hs [Hk [Hws1 [Hws2 [Hw1 [Hw2 Hrest]]]]]]]]].
  rewrite Hs. rewrite !toUpperCase_app, Hk.
  unfold matchKeywordWordHere.
  assert (Hst : startsWith (kw ++ toUpperCase ws ++ toUpperCase w ++ toUpperCase rest) kw = true)
    by (apply startsWith_app; eexists; reflexivity).
  rewrite Hst. rewrite skipn_app, Nat.sub_diag, skipn_all. simpl app.
  assert (Hw2' : forallb isWordChar (toUpperCase w) = true)
    by (rewrite forallb_toUpperCase; [exact Hw2 | exact isWordChar_upper]).
  assert (Hws2' : forallb isSpace (toUpperCase ws) = true)
    by (rewrite forallb_toUpperCase; [exact Hws2 | exact isSpace_upper]).
  assert (Hw1' : toUpperCase w <> []) by (destruct w; [congruence | discriminate]).
  assert (Hhead : forall c r, toUpperCase w ++ toUpperCase rest = c :: r -> isSpace c = false)
    by (apply word_head_not_space; assumption).
  rewrite (takeWhile_app_run isSpace _ _ Hws2' Hhead).
  rewrite (dropWhile_app_run isSpace _ _ Hws2' Hhead).
  rewrite (takeWhile_app_run isWordChar _ _ Hw2').
  - destruct ws as [|x ws]; [congruence|]. simpl.
    destruct w as [|y w]; [congruence|]. reflexivity.
  - intros c r Hc. destruct rest as [|c0 r0]; [discriminate|].
    simpl in Hc. inversion Hc; subst. rewrite isWordChar_upper.
    now apply (Hrest c0 r0).
Qed.

Lemma matchHere_ReferenceAt (kw s : jsstring) (i : nat) (W : jsstring) :
  matchKeywordWordHere kw (toUpperCase (skipn i s)) = Some W ->
  exists w, ReferenceAt kw s i w /\ W = toUpperCase w.
Proof.
  unfold matchKeywordWordHere. set (t := skipn i s).
  destruct (startsWith (toUpperCase t) kw) eqn:Hst; [|discriminate].
  apply startsWith_firstn in Hst.
  rewrite <- toUpperCase_skipn.
  unfold toUpperCase at 2 3.
  rewrite (dropWhile_map isSpace toUpperChar _ isSpace_upper).
  rewrite (takeWhile_map isSpace toUpperChar _ isSpace_upper).
  rewrite (takeWhile_map isWordChar toUpperChar _ isWordChar_upper).
  set (r0 := skipn (length kw) t).
  destruct (takeWhile isSpace r0) as [|x ws] eqn:Ews; [discriminate|].
  destruct (takeWhile isWordChar (dropWhile isSpace r0)) as [|y w] eqn:Ew;
    [discriminate|].
  intros H. inversion H; subst W. clear H.
  exists (y :: w). split; [|reflexivity].
  exists (firstn (length kw) t), (x :: ws), (dropWhile isWordChar (dropWhile isSpace r0)).
  split; [|split; [|split; [|split; [|split; [|split]]]]].
  - rewrite <- Ew, takeWhile_dropWhile, <- Ews, takeWhile_dropWhile.
    unfold r0. now rewrite firstn_skipn.
  - rewrite toUpperCase_firstn. exact Hst.
  - discriminate.
  - rewrite <- Ews. apply forallb_takeWhile.
  - discriminate.
  - rewrite <- Ew. apply forallb_takeWhile.
  - intros c r. apply dropWhile_head.
Qed.

Lemma matchKeywordWord_first (kw u : jsstring) :
  (matchKeywordWord kw u = None /\
   forall i, matchKeywordWordHere kw (skipn i u) = None) \/
  (exists i W, matchKeywordWord kw u = Some W /\
               matchKeywordWordHere kw (skipn i u) = Some W /\
               forall j, (j < i)%nat -> matchKeywordWordHere kw (skipn j u) = None).
Proof.
  induction u as [|a u IH].
  - left. cbn [matchKeywordWord].
    assert (E : matchKeywordWordHere kw [] = None).
    { unfold matchKeywordWordHere. destruct (startsWith [] kw); [|reflexivity].
      now rewrite skipn_nil. }
    rewrite E. split; [reflexivity|]. intros i. now rewrite skipn_nil.
  - cbn [matchKeywordWord]. destruct (matchKeywordWordHere kw (a :: u)) as [W|] eqn:E.
    + right. exists 0%nat, W. repeat split; [exact E | intros; lia].
    + destruct IH as [[H1 H2] | [i [W [H1 [H2 H3]]]]].
      * left. split; [exact H1|]. intros [|i]; [exact E | apply H2].
      * right. exists (S i), W. repeat split; [exact H1 | exact H2 |].
        intros [|j] Hj; [exact E | apply H3; lia].
Qed.

(** The regular expressions [/FROM\s+(\w+)/] and [/JOIN\s+(\w+)/], run on
    the upper-cased text, capture the word of the first reference, in upper
    case. *)
Lemma FirstReference_match (kw s : jsstring) (r : option jsstring) :
  FirstReference kw s r ->
  matchKeywordWord kw (toUpperCase s) = option_map toUpperCase r.
Proof.
  intros Hr.
  destruct (matchKeywordWord_first kw (toUpperCase s))
    as [[H1 H2] | [i [W [H1 [H2 H3]]]]].
  - rewrite H1. destruct r as [w|]; [|reflexivity].
    destruct Hr as [i [Hi _]]. apply ReferenceAt_matchHere in Hi.
    rewrite toUpperCase_skipn, H2 in Hi. discriminate.
  - rewrite H1. rewrite <- toUpperCase_skipn in H2.
    destruct (matchHere_ReferenceAt _ _ _ _ H2) as [w' [Hw' ->]].
    destruct r as [w|]; [|elim (Hr _ _ Hw')].
    destruct Hr as [i0 [Hi0 Hmin]]. simpl.
    destruct (Nat.lt_trichotomy i i0) as [Hlt | [-> | Hgt]].
    + elim (Hmin _ _ Hlt Hw').
    + apply ReferenceAt_matchHere in Hi0. rewrite H2 in Hi0. exact Hi0.
    + apply ReferenceAt_matchHere in Hi0.
      rewrite toUpperCase_skipn, (H3 _ Hgt) in Hi0. discriminate.
Qed.

Lemma FirstReference_None_intro (kw s : jsstring) :
  matchKeywordWord kw (toUpperCase s) = None -> FirstReference kw s None.
Proof.
  intros H i w HR. apply ReferenceAt_matchHere in HR.
  destruct (matchKeywordWord_first kw (toUpperCase s))
    as [[_ H2] | [j [W [H1 _]]]]; [|congruence].
  rewrite toUpperCase_skipn, H2 in HR. discriminate.
Qed.

Lemma FirstReference_Some_intro (kw s : jsstring) (i : nat) (w : jsstring) :
  ReferenceAt kw s i w ->
  (forall j, (j < i)%nat -> matchKeywordWordHere kw (toUpperCase (skipn j s)) = None) ->
  FirstReference kw s (Some w).
Proof.
  intros HR Hmin. exists i. split; [exact HR|].
  intros j w' Hj HR'. apply ReferenceAt_matchHere in HR'.
  rewrite (Hmin _ Hj) in HR'. discriminate.
Qed.

(** Every text has a first reference or none. *)
Lemma FirstReference_total (kw s : jsstring) : exists r, FirstReference kw s r.
Proof.
  destruct (matchKeywordWord_first kw (toUpperCase s))
    as [[H1 _] | [i [W [_ [H2 H3]]]]].
  - exists None. now apply FirstReference_None_intro.
  - rewrite <- toUpperCase_skipn in H2.
    destruct (matchHere_ReferenceAt _ _ _ _ H2) as [w [Hw _]].
    exists (Some w). apply (FirstReference_Some_intro _ _ i); [exact Hw|].
    intros j Hj. rewrite toUpperCase_skipn. now apply H3.
Qed.

(* ------------------------------------------------------------------ *)
(** ** The candidates of each kind *)

Lemma tableNames_schemaTables (this : SQLAutocomplete) :
  tableNames this = map name (schemaTables this).
Proof. unfold tableNames, schemaTables. now destruct (schema this). Qed.

Lemma columnsOfReference_upper (ts : list TableInfo) (r : jsstring) :
  columnsOfReference ts (toUpperCase r) = columnsOfReference ts r.
Proof. unfold columnsOfReference. now rewrite toLowerCase_upper. Qed.

Lemma streq_same (a : jsstring) : streq a a = true.
Proof. now apply streq_true. Qed.

Lemma streq_differ (a b : jsstring) : a <> b -> streq a b = false.
Proof.
  intros H. destruct (streq a b) eqn:E; [|reflexivity].
  apply streq_true in E. contradiction.
Qed.

(** The lookup of [getRelevantColumns] finds the table that the name
    denotes. *)
Lemma find_Denotes (ts : list TableInfo) (r : jsstring) (t : TableInfo) :
  Denotes ts r t ->
  find (fun t0 => streq (toLowerCase (name t0)) (toLowerCase r)) ts = Some t.
Proof.
  intros [front [back [-> [Ht Hfront]]]].
  induction front as [|x front IH]; cbn [app find].
  - now rewrite Ht, streq_same.
  - rewrite (streq_differ _ _ (Hfront x (or_introl eq_refl))).
    apply IH. intros t' Ht'. apply Hfront. now right.
Qed.

Lemma find_no_table (ts : list TableInfo) (r : jsstring) :
  (forall t, In t ts -> toLowerCase (name t) <> toLowerCase r) ->
  find (fun t0 => streq (toLowerCase (name t0)) (toLowerCase r)) ts = None.
Proof.
  induction ts as [|x ts IH]; intros H; [reflexivity|]. cbn [find].
  rewrite (streq_differ _ _ (H x (or_introl eq_refl))).
  apply IH. intros t Ht. apply H. now right.
Qed.

(** What the code pushes for a reference is what the reference contributes. *)
Lemma columnsOfReference_ColumnsOfRef (ts : list TableInfo) (ref : option jsstring)
  (cols : list jsstring) :
  ColumnsOfRef ts ref cols ->
  flat_map (columnsOfReference ts) (optList (option_map toUpperCase ref)) = cols.
Proof.
  destruct ref as [r|]; cbn [ColumnsOfRef option_map optList flat_map].
  - rewrite app_nil_r, columnsOfReference_upper. unfold columnsOfReference.
    intros [[t [Ht ->]] | [Hnone ->]].
    + now rewrite (find_Denotes ts r t Ht).
    + now rewrite (find_no_table ts r Hnone).
  - now intros ->.
Qed.

(** Every reference contributes some list of columns, and only one. *)
Lemma ColumnsOfRef_total (ts : list TableInfo) (ref : option jsstring) :
  exists cols, ColumnsOfRef ts ref cols.
Proof.
  destruct ref as [r|]; [|now exists []].
  assert (H : (exists t, Denotes ts r t) \/
              (forall t, In t ts -> toLowerCase (name t) <> toLowerCase r)).
  { induction ts as [|x ts IH]; [right; intros t []|].
    destruct (streq (toLowerCase (name x)) (toLowerCase r)) eqn:E.
    - left. exists x, [], ts. apply streq_true in E.
      split; [reflexivity|]. split; [exact E | intros t' []].
    - assert (Hx : toLowerCase (name x) <> toLowerCase r).
      { intros Hx. apply streq_true in Hx. congruence. }
      destruct IH as [[t [front [back [-> [Ht Hf]]]]] | Hnone].
      + left. exists t, (x :: front), back. split; [reflexivity|].
        split; [exact Ht|]. intros t' [<-|Ht']; [exact Hx | now apply Hf].
      + right. intros t [<-|Ht]; [exact Hx | now apply Hnone]. }
  destruct H as [[t Ht] | Hnone].
  - exists (map col_name (columns t)). left. now exists t.
  - exists []. now right.
Qed.

Lemma ColumnsOfRef_unique (ts : list TableInfo) (ref : option jsstring)
  (cols1 cols2 : list jsstring) :
  ColumnsOfRef ts ref cols1 -> ColumnsOfRef ts ref cols2 -> cols1 = cols2.
Proof.
  intros H1 H2. apply columnsOfReference_ColumnsOfRef in H1, H2. congruence.
Qed.

(** The columns that [getRelevantColumns] returns: what the two references
    contribute or, when that is nothing, every column of every table of the
    snapshot, written [table.column]. *)
Lemma getRelevantColumns_spec (this : SQLAutocomplete) (before : jsstring)
  (fromRef joinRef : option jsstring) (fromCols joinCols : list jsstring) :
  FirstReference (lit "FROM") before fromRef ->
  FirstReference (lit "JOIN") before joinRef ->
  ColumnsOfRef (schemaTables this) fromRef fromCols ->
  ColumnsOfRef (schemaTables this) joinRef joinCols ->
  getRelevantColumns this before =
    match fromCols ++ joinCols with
    | [] => concat (map (fun t => map (fun c => name t ++ lit "." ++ col_name c)
                                      (columns t))
                        (schemaTables this))
    | _ :: _ => fromCols ++ joinCols
    end.
Proof.
  intros HF HJ HFc HJc. unfold getRelevantColumns, schemaTables in *.
  destruct (schema this) as [sch|].
  - cbv zeta. rewrite (FirstReference_match _ _ _ HF), (FirstReference_match _ _ _ HJ).
    rewrite flat_map_app.
    rewrite (columnsOfReference_ColumnsOfRef _ _ _ HFc),
      (columnsOfReference_ColumnsOfRef _ _ _ HJc).
    destruct (fromCols ++ joinCols); [|reflexivity].
    unfold qualifiedColumns. apply flat_map_concat_map.
  - assert (E1 : fromCols = []).
    { destruct fromRef; cbn in HFc; [|exact HFc].
      destruct HFc as [[t [[front [back [E _]]] _]] | [_ E]]; [|exact E].
      destruct front; discriminate. }
    assert (E2 : joinCols = []).
    { destruct joinRef; cbn in HJc; [|exact HJc].
      destruct HJc as [[t [[front [back [E _]]] _]] | [_ E]]; [|exact E].
      destruct front; discriminate. }
    now rewrite E1, E2.
Qed.

(** C3. For every engine (its schema snapshot, possibly none yet), query
    and cursor offset, with [w] the current word and [fromRef], [joinRef] the
    words of the first [FROM <word>] and [JOIN <word>] of the text before
    the cursor: the keyword candidates are always produced, the table
    candidates exactly when afterFrom or afterJoin holds, the column
    candidates exactly when afterSelect, afterWhere or afterOn holds.  With
    [fromCols] and [joinCols] the columns of the tables that the two
    references denote in the snapshot (the first table with that name,
    whatever the case of the letters; nothing for a name that no table has),
    the columns offered are [fromCols] followed by [joinCols] or, when these
    are empty, every column of every table of the snapshot, in order, each
    written [table.column]; each kind is filtered by its prefix rule on [w]. *)
Theorem getSuggestions_candidates
  (this : SQLAutocomplete) (q : jsstring) (p : Z)
  (w : jsstring) (fromRef joinRef : option jsstring)
  (fromCols joinCols : list jsstring) :
  let before := substring0 q p in
  let context := getContext before in
  let result := getSuggestions this q p in
  CurrentWord before w ->
  FirstReference (lit "FROM") before fromRef ->
  FirstReference (lit "JOIN") before joinRef ->
  ColumnsOfRef (schemaTables this) fromRef fromCols ->
  ColumnsOfRef (schemaTables this) joinRef joinCols ->
  filter (ofType keyword) result =
    map (fun kw => {| label := kw; type := keyword |})
        (filter (fun kw => startsWith kw (toUpperCase w)) (keywords this)) /\
  filter (ofType table) result =
    (if afterFrom context || afterJoin context
     then map (fun t => {| label := t; type := table |})
              (filter (fun t => startsWith (toLowerCase t) (toLowerCase w))
                      (map name (schemaTables this)))
     else []) /\
  filter (ofType column) result =
    (if afterSelect context || afterWhere context || afterOn context
     then map (fun c => {| label := c; type := column |})
              (filter (fun c => startsWith (toLowerCase c) (toLowerCase w))
                      (match fromCols ++ joinCols with
                       | [] =>
                           concat (map (fun t =>
                                          map (fun c => name t ++ lit "." ++ col_name c)
                                              (columns t))
                                       (schemaTables this))
                       | _ :: _ => fromCols ++ joinCols
                       end))
     else []).
Proof.
  intros before context result Hw HF HJ HFc HJc. unfold result.
  rewrite getSuggestions_groups. fold before.
  rewrite !filter_app.
  rewrite (filter_ofType_same keyword _ (type_keywordGroup this before)).
  rewrite (filter_ofType_same table _ (type_tableGroup this before)).
  rewrite (filter_ofType_same column _ (type_columnGroup this before)).
  rewrite (filter_ofType_other keyword table _ ltac:(discriminate)
             (type_tableGroup this before)).
  rewrite (filter_ofType_other keyword column _ ltac:(discriminate)
             (type_columnGroup this before)).
  rewrite (filter_ofType_other table column _ ltac:(discriminate)
             (type_columnGroup this before)).
  rewrite (filter_ofType_other table keyword _ ltac:(discriminate)
             (type_keywordGroup this before)).
  rewrite (filter_ofType_other column table _ ltac:(discriminate)
             (type_tableGroup this before)).
  rewrite (filter_ofType_other column keyword _ ltac:(discriminate)
             (type_keywordGroup this before)).
  cbn [app]. rewrite !app_nil_r.
  unfold keywordGroup, tableGroup, columnGroup,
    keywordCandidates, tableCandidates, columnCandidates,
    shouldSuggestTables, shouldSuggestColumns.
  fold context.
  rewrite (CurrentWord_currentWordOf _ _ Hw), toUpperCase_idem, toLowerCase_upper.
  rewrite tableNames_schemaTables.
  rewrite (getRelevantColumns_spec this before fromRef joinRef fromCols joinCols
             HF HJ HFc HJc).
  repeat split.
Qed.

Lemma usersQuery_before :
  substring0 (lit "select * from USERS where n") 27 = lit "select * from USERS where n".
Proof. vm_compute. reflexivity. Qed.

Lemma usersQuery_FROM :
  FirstReference (lit "FROM") (lit "select * from USERS where n") (Some (lit "USERS")).
Proof.
  apply (FirstReference_Some_intro _ _ 9).
  - exists (lit "from"), (lit " "), (lit " where n").
    repeat split; try discriminate.
    intros c r H. inversion H. reflexivity.
  - intros j Hj.
    do 9 (destruct j as [|j]; [vm_compute; reflexivity|]). lia.
Qed.

Lemma usersQuery_JOIN :
  FirstReference (lit "JOIN") (lit "select * from USERS where n") None.
Proof. apply FirstReference_None_intro. vm_compute. reflexivity. Qed.

Lemma usersTable_Denotes :
  exists t, Denotes (schemaTables usersEngine) (lit "USERS") t /\
            map col_name (columns t) = [lit "id"; lit "name"].
Proof.
  eexists. split.
  - exists [], []. split; [reflexivity|]. split; [reflexivity | intros t' []].
  - reflexivity.
Qed.

(** A table reference written in another case than the name of the table
    gives the columns of that table; a text without table reference gives
    every column, qualified. *)
Lemma getSuggestions_candidates_witness :
  let q := lit "select * from USERS where n" in
  let before := substring0 q 27 in
  (CurrentWord before (lit "n") /\
   FirstReference (lit "FROM") before (Some (lit "USERS")) /\
   FirstReference (lit "JOIN") before None /\
   ColumnsOfRef (schemaTables usersEngine) (Some (lit "USERS")) [lit "id"; lit "name"] /\
   ColumnsOfRef (schemaTables usersEngine) None [] /\
   filter (ofType column) (getSuggestions usersEngine q 27)
     = [{| label := lit "name"; type := column |}]) /\
  (CurrentWord (substring0 (lit "SELECT u") 8) (lit "u") /\
   FirstReference (lit "FROM") (substring0 (lit "SELECT u") 8) None /\
   FirstReference (lit "JOIN") (substring0 (lit "SELECT u") 8) None /\
   filter (ofType column) (getSuggestions usersEngine (lit "SELECT u") 8)
     = [{| label := lit "users.id"; type := column |};
        {| label := lit "users.name"; type := column |}]).
Proof.
  intros q before. split.
  - assert (Hw : CurrentWord before (lit "n")).
    { unfold before, q. rewrite usersQuery_before.
      apply (CurrentWord_after (lit "select * from USERS where") " " (lit "n"));
        reflexivity. }
    assert (HF : FirstReference (lit "FROM") before (Some (lit "USERS")))
      by (unfold before, q; rewrite usersQuery_before; exact usersQuery_FROM).
    assert (HJ : FirstReference (lit "JOIN") before None)
      by (unfold before, q; rewrite usersQuery_before; exact usersQuery_JOIN).
    assert (HFc : ColumnsOfRef (schemaTables usersEngine) (Some (lit "USERS"))
                    [lit "id"; lit "name"]).
    { left. destruct usersTable_Denotes as [t [Ht Hc]]. exists t. now split. }
    assert (HJc : ColumnsOfRef (schemaTables usersEngine) None []) by reflexivity.
    split; [exact Hw|]. split; [exact HF|]. split; [exact HJ|].
    split; [exact HFc|]. split; [exact HJc|].
    pose proof (getSuggestions_candidates usersEngine q 27 (lit "n")
                  (Some (lit "USERS")) None _ _ Hw HF HJ HFc HJc) as H.
    cbv zeta in H. destruct H as [_ [_ H]]. rewrite H. vm_compute. reflexivity.
  - assert (Hw : CurrentWord (substring0 (lit "SELECT u") 8) (lit "u")).
    { apply (CurrentWord_after (lit "SELECT") " " (lit "u")); reflexivity. }
    assert (HF : FirstReference (lit "FROM") (substring0 (lit "SELECT u") 8) None)
      by (apply FirstReference_None_intro; vm_compute; reflexivity).
    assert (HJ : FirstReference (lit "JOIN") (substring0 (lit "SELECT u") 8) None)
      by (apply FirstReference_None_intro; vm_compute; reflexivity).
    split; [exact Hw|]. split; [exact HF|]. split; [exact HJ|].
    pose proof (getSuggestions_candidates usersEngine (lit "SELECT u") 8
                  (lit "u") None None [] [] Hw HF HJ eq_refl eq_refl) as H.
    cbv zeta in H. destruct H as [_ [_ H]]. rewrite H. vm_compute. reflexivity.
Defined.

(* ================================================================== *)
(** * The query history log: what the methods compute *)
(* ================================================================== *)

Lemma setTicks_same (w : World) : setTicks w (ticks w) = w.
Proof. now destruct w. Qed.

Lemma dedup_pair clk n text l :
  dedup clk n text l = (fst (dedup clk n text l), snd (dedup clk n text l)).
Proof. now destruct (dedup clk n text l). Qed.

(** The filter of [add], run: it keeps [fst (dedup ...)] and reads the clock
    up to [snd (dedup ...)]. *)
Lemma filterM_keepOnAdd_run (text : jsstring) (l : list Entry)
  (m : QueryHistoryManager) (w : World) :
  filterM (keepOnAdd text) l {| self := m; world := w |} =
  (Normal (fst (dedup (clock w) (ticks w) text l)),
   {| self := m; world := setTicks w (snd (dedup (clock w) (ticks w) text l)) |}).
Proof.
  revert w. induction l as [|h l IH]; intros w.
  - cbn. now rewrite setTicks_same.
  - cbn [filterM dedup]. unfold bind at 1. unfold keepOnAdd at 1.
    destruct (negb (hasQuery h text)).
    + unfold ret at 1. unfold bind at 1. rewrite (IH w).
      rewrite (dedup_pair (clock w) (ticks w) text l). reflexivity.
    + unfold bind at 1. unfold Date_now at 1. unfold onWorld. cbn [world self].
      unfold ret at 1. unfold bind at 1. rewrite (IH (setTicks w (S (ticks w)))).
      cbn [clock ticks setTicks].
      rewrite (dedup_pair (clock w) (S (ticks w)) text l). reflexivity.
Qed.

(** [saveToStorage], run: the fields are kept and the world is
    [savedWorld]; no exception leaves it. *)
Lemma saveToStorage_run (m : QueryHistoryManager) (w : World) :
  saveToStorage {| self := m; world := w |} =
  (Normal tt, {| self := m; world := savedWorld (storageKey m) (history m) w |}).
Proof.
  unfold saveToStorage, tryCatch, bind, hasLocalStorage, savedWorld.
  cbn [world self]. destruct (host w) as [| |ls] eqn:Hh.
  - reflexivity.
  - reflexivity.
  - unfold getHistory, getStorageKey, localStorage_setItem. cbn [world self].
    rewrite Hh. destruct (setItemThrows ls); reflexivity.
Qed.

(** [add], run. *)
Lemma addCall_run (c : AddCall) (s : State) :
  addCall c s =
  (Normal tt,
   {| self := withHistory (self s) (addedHistory s c); world := addedWorld s c |}).
Proof.
  destruct s as [[hist mx key] [clk t rnd d h cs]].
  unfold addCall, add, generateId.
  cbv [bind ret Date_now Math_random_suffix getHistory onWorld setTicks setDraws].
  cbn [world self clock ticks random draws host console history maxHistorySize
       storageKey query].
  rewrite (filterM_keepOnAdd_run (trim (call_query c)) hist).
  cbv [setHistory getMaxHistorySize setTicks].
  cbn [world self clock ticks random draws host console history maxHistorySize
       storageKey].
  unfold addedWorld, addedHistory, withHistory, keptOnAdd, ticksAfterAdd, truncate,
    addedItem, setDraws, setTicks.
  cbn [world self clock ticks random draws host console history maxHistorySize
       storageKey].
  match goal with |- context [Z.of_nat (length ?l) >? ?x] =>
    destruct (Z.of_nat (length l) >? x) end;
    cbn [world self history maxHistorySize storageKey];
    rewrite saveToStorage_run; reflexivity.
Qed.

Lemma clear_run (m : QueryHistoryManager) (w : World) :
  clear {| self := m; world := w |} =
  (Normal tt, {| self := withHistory m []; world := savedWorld (storageKey m) [] w |}).
Proof.
  unfold clear. cbv [bind setHistory]. cbn [world self].
  now rewrite saveToStorage_run.
Qed.

Lemma remove_run (itemId : jsstring) (m : QueryHistoryManager) (w : World) :
  let l := filter (fun item => negb (hasId item itemId)) (history m) in
  remove itemId {| self := m; world := w |} =
  (Normal tt, {| self := withHistory m l; world := savedWorld (storageKey m) l w |}).
Proof.
  intros l. unfold remove. cbv [bind getHistory setHistory]. cbn [world self].
  now rewrite saveToStorage_run.
Qed.

(** ** The filter of [add] *)

Lemma dedup_ticks (clk : nat -> Z) (text : jsstring) (l : list Entry) :
  forall n, (n <= snd (dedup clk n text l))%nat.
Proof.
  induction l as [|h l IH]; intros n; cbn [dedup]; [simpl; lia|].
  destruct (negb (hasQuery h text)).
  - rewrite (dedup_pair clk n text l). cbn [snd]. apply IH.
  - rewrite (dedup_pair clk (S n) text l). cbn [snd].
    specialize (IH (S n)). lia.
Qed.

(** An entry that the filter keeps was in the list, and its text differs
    or one value of the clock read by the filter is more than 60 s after its
    timestamp. *)
Lemma dedup_In (clk : nat -> Z) (text : jsstring) (l : list Entry) (x : Entry) :
  forall n, In x (fst (dedup clk n text l)) ->
    In x l /\
    (hasQuery x text = false \/
     exists k, (n <= k < snd (dedup clk n text l))%nat /\
               olderThanMinute (clk k) x = true).
Proof.
  induction l as [|h l IH]; intros n; cbn [dedup]; [intros []|].
  destruct (negb (hasQuery h text)) eqn:E.
  - rewrite (dedup_pair clk n text l). cbn [fst snd]. intros [<-|H].
    + split; [now left|]. left. now apply negb_true_iff in E.
    + destruct (IH n H) as [H1 H2]. split; [now right | exact H2].
  - rewrite (dedup_pair clk (S n) text l). cbn [fst snd].
    pose proof (dedup_ticks clk text l (S n)) as Hn.
    destruct (olderThanMinute (clk n) h) eqn:Hold.
    + intros [<-|H].
      * split; [now left|]. right. exists n. split; [lia | exact Hold].
      * destruct (IH (S n) H) as [H1 [H2|[k [Hk H2]]]].
        -- split; [now right | now left].
        -- split; [now right|]. right. exists k. split; [lia | exact H2].
    + intros H. destruct (IH (S n) H) as [H1 [H2|[k [Hk H2]]]].
      * split; [now right | now left].
      * split; [now right|]. right. exists k. split; [lia | exact H2].
Qed.



Lemma dedup_length (clk : nat -> Z) (text : jsstring) (l : list Entry) :
  forall n, (length (fst (dedup clk n text l)) <= length l)%nat.
Proof.
  induction l as [|h l IH]; intros n; cbn [dedup]; [simpl; lia|].
  destruct (negb (hasQuery h text)).
  - rewrite (dedup_pair clk n text l). cbn [fst length]. specialize (IH n). lia.
  - rewrite (dedup_pair clk (S n) text l). cbn [fst].
    specialize (IH (S n)).
    destruct (olderThanMinute (clk n) h); cbn [length]; lia.
Qed.

Lemma dedup_sorted (R : Entry -> Entry -> Prop)
  (clk : nat -> Z) (text : jsstring) (l : list Entry) :
  forall n, StronglySorted R l -> StronglySorted R (fst (dedup clk n text l)).
Proof.
  induction l as [|h l IH]; intros n Hs; cbn [dedup]; [constructor|].
  apply StronglySorted_inv in Hs as [Hs Hh].
  assert (Hkeep : forall k, StronglySorted R (h :: fst (dedup clk k text l))).
  { intros k. constructor; [now apply IH|].
    apply Forall_forall. intros x Hx. apply dedup_In in Hx as [Hx _].
    rewrite Forall_forall in Hh. now apply Hh. }
  destruct (negb (hasQuery h text)).
  - rewrite (dedup_pair clk n text l). cbn [fst]. apply Hkeep.
  - rewrite (dedup_pair clk (S n) text l). cbn [fst].
    destruct (olderThanMinute (clk n) h); [apply Hkeep | now apply IH].
Qed.



(** ** The truncation *)

Lemma truncate_firstn (m : Z) (l : list Entry) :
  0 <= m -> truncate m l = firstn (Z.to_nat m) l.
Proof.
  intros Hm. unfold truncate, slice0.
  destruct (Z.gtb_spec (Z.of_nat (length l)) m) as [Hgt|Hle].
  - destruct (Z.ltb_spec m 0); [lia | reflexivity].
  - symmetry. apply firstn_all2. lia.
Qed.

Lemma truncate_length (m : Z) (l : list Entry) :
  0 <= m -> Z.of_nat (length (truncate m l)) <= m.
Proof.
  intros Hm. rewrite (truncate_firstn m l Hm), length_firstn. lia.
Qed.

Lemma In_firstn {A} (n : nat) (l : list A) (x : A) : In x (firstn n l) -> In x l.
Proof.
  intros H. rewrite <- (firstn_skipn n l). apply in_or_app. now left.
Qed.

Lemma firstn_sorted {A} (R : A -> A -> Prop) (n : nat) (l : list A) :
  StronglySorted R l -> StronglySorted R (firstn n l).
Proof.
  revert n. induction l as [|x l IH]; intros n Hs; [now rewrite firstn_nil|].
  destruct n as [|n]; [constructor|]. cbn [firstn].
  apply StronglySorted_inv in Hs as [Hs Hx]. constructor; [now apply IH|].
  rewrite Forall_forall in *. intros y Hy. apply Hx.
  now apply (In_firstn n l).
Qed.

Lemma In_truncate (m : Z) (l : list Entry) (x : Entry) :
  In x (truncate m l) -> In x l.
Proof.
  unfold truncate, slice0.
  destruct (Z.of_nat (length l) >? m); [|trivial].
  destruct (m <? 0); apply In_firstn.
Qed.

(** Every operation that changes the log returns normally; the list it
    leaves is [mutatedHistory], the storage is the one [saveToStorage]
    leaves, and the clock only advances. *)
Lemma perform_run (op : Mutation) (s : State) :
  exists w',
    perform op s =
      (Normal tt, {| self := withHistory (self s) (mutatedHistory op s); world := w' |})
    /\ host w' = host (savedWorld (storageKey (self s)) (mutatedHistory op s) (world s))
    /\ clock w' = clock (world s) /\ (ticks (world s) <= ticks w')%nat.
Proof.
  destruct op as [c| |itemId]; cbn [perform mutatedHistory].
  - exists (addedWorld s c). split; [apply addCall_run|].
    unfold addedWorld. set (l := addedHistory s c).
    assert (Ht : (ticks (world s) <= ticksAfterAdd s c)%nat).
    { unfold ticksAfterAdd.
      pose proof (dedup_ticks (clock (world s)) (trim (call_query c))
                    (history (self s)) (S (S (ticks (world s))))). lia. }
    unfold savedWorld. cbn [host setDraws setTicks].
    destruct (host (world s)) as [| |ls]; [| |destruct (setItemThrows ls)];
      cbn [host clock ticks setConsole setHost setDraws setTicks]; auto.
  - destruct s as [m w]. eexists. split; [apply clear_run|].
    cbn [self world]. split; [reflexivity|].
    unfold savedWorld. destruct (host w) as [| |ls]; [| |destruct (setItemThrows ls)];
      cbn [host clock ticks setConsole setHost]; auto.
  - destruct s as [m w]. eexists. split; [apply remove_run|].
    cbn [self world]. split; [reflexivity|].
    unfold savedWorld. destruct (host w) as [| |ls]; [| |destruct (setItemThrows ls)];
      cbn [host clock ticks setConsole setHost]; auto.
Qed.

(** ** Loading *)


Lemma filterM_keepOnLoad_run (cutoff : Z) (elems : list StoredElement) (s : State) :
  filterM (keepOnLoad cutoff) elems s =
  if existsb isThrowing elems then (Throw TypeError, s)
  else (Normal (filter (isRecent cutoff) elems), s).
Proof.
  induction elems as [|e elems IH]; [reflexivity|].
  cbn [filterM existsb filter]. unfold bind at 1.
  destruct e as [| |it]; cbn [keepOnLoad isThrowing isRecent orb].
  - reflexivity.
  - unfold ret at 1. unfold bind at 1. rewrite IH.
    destruct (existsb isThrowing elems); reflexivity.
  - unfold ret at 1. unfold bind at 1. rewrite IH.
    destruct (existsb isThrowing elems); [reflexivity|].
    unfold ret. destruct (laterThan it cutoff); reflexivity.
Qed.

(** [loadFromStorage] returns normally, whatever the storage holds or does;
    it leaves [loadedHistory] in the list and the storage as it was. *)
Lemma loadFromStorage_run (m : QueryHistoryManager) (w : World) :
  exists w',
    loadFromStorage {| self := m; world := w |} =
      (Normal tt, {| self := withHistory m (loadedHistory m w); world := w' |})
    /\ host w' = host w /\ clock w' = clock w.
Proof.
  destruct m as [hist mx key], w as [clk t rnd d h cs].
  unfold loadFromStorage, tryCatch, loadedHistory, withHistory.
  cbv [bind hasLocalStorage getStorageKey localStorage_getItem console_warn onWorld
       setConsole].
  destruct h as [| |ls]; js_simpl; [done_run | done_run |].
  destruct (getItemThrows ls); js_simpl; [done_run|].
  destruct (stored ls key) as [[| | |elems]|]; js_simpl;
    cbv [JSON_parse ret throw Date_now onWorld setTicks Parsed_filter setHistory];
    js_simpl; try done_run.
  rewrite filterM_keepOnLoad_run.
  destruct (existsb isThrowing elems); js_simpl; done_run.
Qed.

(** The constructor returns normally and leaves the given maximum and
    [loadedHistory]. *)
Lemma newQueryHistoryManager_run (maxSize : option Z) (w : World) :
  exists w',
    newQueryHistoryManager maxSize w =
      (Normal tt,
       {| self := {| history := loadedHistory initialFields w;
                     maxHistorySize := match maxSize with Some m => m | None => 100 end;
                     storageKey := storageKey initialFields |};
          world := w' |})
    /\ host w' = host w /\ clock w' = clock w.
Proof.
  unfold newQueryHistoryManager, constructor.
  unfold bind at 1. unfold setMaxHistorySize at 1. cbn [self world].
  destruct (loadFromStorage_run
              {| history := history initialFields;
                 maxHistorySize := match maxSize with Some m => m | None => 100 end;
                 storageKey := storageKey initialFields |} w) as [w' [H1 H2]].
  exists w'. split; [|exact H2]. rewrite H1. reflexivity.
Qed.

Lemma entriesOf_map_ElemObject (l : list Entry) : entriesOf (map ElemObject l) = l.
Proof.
  unfold entriesOf. induction l as [|x l IH]; [reflexivity|]. simpl. now rewrite IH.
Qed.

(** The filter of [loadFromStorage] keeps objects only, so that the list of
    entries is the array it returns. *)
Lemma entriesOf_kept (cutoff : Z) (elems : list StoredElement) :
  map ElemObject (entriesOf (filter (isRecent cutoff) elems))
  = filter (isRecent cutoff) elems.
Proof.
  unfold entriesOf. induction elems as [|e elems IH]; [reflexivity|].
  cbn [filter]. destruct e as [| |h]; cbn [isRecent]; try exact IH.
  destruct (laterThan h cutoff); [|exact IH].
  cbn [flat_map app map]. now rewrite IH.
Qed.

Lemma existsb_isThrowing_map (l : list Entry) :
  existsb isThrowing (map ElemObject l) = false.
Proof. induction l as [|x l IH]; [reflexivity|]. exact IH. Qed.

Lemma existsb_isThrowing_In (elems : list StoredElement) :
  In ElemThrowing elems -> existsb isThrowing elems = true.
Proof.
  intros H. apply existsb_exists. exists ElemThrowing. split; [exact H | reflexivity].
Qed.

Lemma filter_isRecent_map (cutoff : Z) (l : list Entry) :
  entriesOf (filter (isRecent cutoff) (map ElemObject l))
  = filter (fun h => laterThan h cutoff) l.
Proof.
  unfold entriesOf. induction l as [|x l IH]; [reflexivity|].
  cbn [map filter isRecent]. destruct (laterThan x cutoff).
  - simpl. now rewrite <- IH.
  - exact IH.
Qed.

(** Items are read back as they were written. *)
Lemma map_written_items (items : list QueryHistoryItem) :
  map written (map Item items) = map Item items.
Proof. induction items as [|x l IH]; [reflexivity|]. cbn [map written]. now rewrite IH. Qed.

(** What is loaded from a storage that holds the entries [l] and can be
    read. *)
Lemma loadedHistory_items (m : QueryHistoryManager) (w : World) (ls : LocalStorage)
  (l : list Entry) :
  host w = Browser ls -> getItemThrows ls = false ->
  stored ls (storageKey m) = Some (JSON_stringify l) ->
  loadedHistory m w
  = filter (fun h => laterThan h (clock w (ticks w) - thirtyDays)) (map written l).
Proof.
  intros Hh Hg Hs. unfold loadedHistory. rewrite Hh, Hg, Hs.
  unfold JSON_stringify. rewrite existsb_isThrowing_map. apply filter_isRecent_map.
Qed.

(** What is loaded when reading the storage fails, or when it is empty. *)
Lemma loadedHistory_failure (m : QueryHistoryManager) (w : World) :
  storageKey m = lit "sqlite-visualizer-history" ->
  loadFails w \/ storageEmpty w -> loadedHistory m w = history m.
Proof.
  intros Hk H. unfold loadedHistory, loadFails, storageEmpty in *. rewrite Hk.
  destruct (host w) as [| |ls]; [reflexivity | reflexivity |].
  destruct (getItemThrows ls); [reflexivity|].
  destruct (stored ls (lit "sqlite-visualizer-history")) as [[| | |elems]|];
    try reflexivity.
  destruct H as [[H|H]|[_ []]]; [discriminate|].
  now rewrite (existsb_isThrowing_In _ H).
Qed.

(* ================================================================== *)
(** * The query history log: bound and order *)
(* ================================================================== *)

Lemma addedWorld_clock (s : State) (c : AddCall) :
  clock (addedWorld s c) = clock (world s).
Proof.
  unfold addedWorld, savedWorld. cbn [host setDraws setTicks].
  destruct (host (world s)) as [| |ls]; [| |destruct (setItemThrows ls)]; reflexivity.
Qed.

Lemma addedWorld_ticks (s : State) (c : AddCall) :
  ticks (addedWorld s c) = ticksAfterAdd s c.
Proof.
  unfold addedWorld, savedWorld. cbn [host setDraws setTicks].
  destruct (host (world s)) as [| |ls]; [| |destruct (setItemThrows ls)]; reflexivity.
Qed.

Lemma ticksAfterAdd_ge (s : State) (c : AddCall) :
  (S (S (ticks (world s))) <= ticksAfterAdd s c)%nat.
Proof. apply dedup_ticks. Qed.

Lemma firstn_Forall {A} (P : A -> Prop) (n : nat) (l : list A) :
  Forall P l -> Forall P (firstn n l).
Proof.
  rewrite !Forall_forall. intros H x Hx. apply H. now apply (In_firstn n l).
Qed.

Lemma newestFirst_firstn (n : nat) (l : list Entry) :
  newestFirst l -> newestFirst (firstn n l).
Proof.
  intros [H1 H2]. split; [now apply firstn_Forall | now apply firstn_sorted].
Qed.

(** One call of [add] keeps the list newest first, when the clock never
    goes back. *)
Lemma addCall_newestFirst (c : AddCall) (s : State) :
  monotone (clock (world s)) -> stamped s -> newestFirst (history (self s)) ->
  let s' := {| self := withHistory (self s) (addedHistory s c);
               world := addedWorld s c |} in
  stamped s' /\ newestFirst (history (self s')).
Proof.
  intros Hmono Hst [Hitems Hnf] s'. unfold s'. cbn [self world history withHistory].
  pose proof (ticksAfterAdd_ge s c) as Hticks.
  rewrite Forall_forall in Hitems.
  assert (Hkept : forall h, In h (keptOnAdd s c) -> In h (history (self s))).
  { intros h Hh. unfold keptOnAdd in Hh. now apply dedup_In in Hh as [Hh _]. }
  assert (Hall : newestFirst (Item (addedItem (world s) c) :: keptOnAdd s c)).
  { split.
    - constructor; [exact I|]. apply Forall_forall. intros h Hh.
      apply Hitems. now apply Hkept.
    - constructor; [unfold keptOnAdd; now apply dedup_sorted|].
      apply Forall_forall. intros h Hh. apply Hkept in Hh.
      pose proof (Hitems h Hh) as Hi. destruct h as [it|o]; [|destruct Hi].
      cbn [atLeastAsRecent timestamp addedItem]. apply (Hst it Hh). lia. }
  split.
  - unfold stamped. cbn [self world history].
    rewrite addedWorld_clock, addedWorld_ticks.
    intros h Hh k Hk. unfold addedHistory in Hh. apply In_truncate in Hh.
    destruct Hh as [E|Hh].
    + injection E as <-. cbn [timestamp addedItem]. apply Hmono. lia.
    + apply Hkept in Hh. apply (Hst h Hh). lia.
  - unfold addedHistory, truncate, slice0.
    destruct (_ >? _); [|exact Hall].
    destruct (_ <? 0); now apply newestFirst_firstn.
Qed.

Lemma addAll_invariant (calls : list AddCall) :
  forall s, 0 <= maxHistorySize (self s) ->
    Z.of_nat (length (history (self s))) <= maxHistorySize (self s) ->
    exists s',
      addAll calls s = (Normal tt, s') /\
      maxHistorySize (self s') = maxHistorySize (self s) /\
      clock (world s') = clock (world s) /\
      Z.of_nat (length (history (self s'))) <= maxHistorySize (self s) /\
      (monotone (clock (world s)) -> stamped s -> newestFirst (history (self s)) ->
       stamped s' /\ newestFirst (history (self s'))).
Proof.
  induction calls as [|c calls IH]; intros s Hm Hlen.
  - exists s. split; [reflexivity|]. split; [reflexivity|]. split; [reflexivity|].
    split; [exact Hlen|]. intros _ Hst Hnf. now split.
  - cbn [addAll]. unfold bind. rewrite addCall_run.
    set (s1 := {| self := withHistory (self s) (addedHistory s c);
                  world := addedWorld s c |}).
    assert (Hm1 : maxHistorySize (self s1) = maxHistorySize (self s)) by reflexivity.
    assert (Hlen1 : Z.of_nat (length (history (self s1))) <= maxHistorySize (self s1)).
    { rewrite Hm1. cbn [s1 self history withHistory]. unfold addedHistory.
      now apply truncate_length. }
    destruct (IH s1 ltac:(now rewrite Hm1) Hlen1) as [s' [H1 [H2 [H3 [H4 H5]]]]].
    exists s'. split; [exact H1|]. split; [now rewrite H2|].
    split; [rewrite H3; apply addedWorld_clock|].
    split; [now rewrite <- Hm1|].
    intros Hmono Hst Hnf.
    destruct (addCall_newestFirst c s Hmono Hst Hnf) as [Hst1 Hnf1].
    apply H5; [|exact Hst1 | exact Hnf1].
    cbn [s1 world]. now rewrite addedWorld_clock.
Qed.

(** C6. Starting from an empty log with a maximum [m >= 0], after any
    sequence of calls of [add] the list has at most [m] entries.  Each call
    leaves the first [m] entries of the new entry followed by the old ones it
    kept, so what is cut off is the tail; and as long as the clock never goes
    back the list is ordered newest first, so the tail holds the oldest
    entries. *)
Theorem add_never_exceeds_maximum :
  (forall (calls : list AddCall) (s0 : State),
     history (self s0) = [] ->
     0 <= maxHistorySize (self s0) ->
     exists s',
       addAll calls s0 = (Normal tt, s') /\
       maxHistorySize (self s') = maxHistorySize (self s0) /\
       Z.of_nat (length (history (self s'))) <= maxHistorySize (self s0) /\
       (monotone (clock (world s0)) -> newestFirst (history (self s')))) /\
  (forall (c : AddCall) (s : State),
     0 <= maxHistorySize (self s) ->
     exists s',
       addCall c s = (Normal tt, s') /\
       history (self s') =
         firstn (Z.to_nat (maxHistorySize (self s)))
                (Item (addedItem (world s) c) :: keptOnAdd s c) /\
       Z.of_nat (length (history (self s'))) <= maxHistorySize (self s)).
Proof.
  split.
  - intros calls s0 Hempty Hm.
    destruct (addAll_invariant calls s0 Hm) as [s' [H1 [H2 [_ [H4 H5]]]]].
    { rewrite Hempty. simpl. exact Hm. }
    exists s'. split; [exact H1|]. split; [exact H2|]. split; [exact H4|].
    intros Hmono. apply H5; [exact Hmono | |].
    + intros h Hh. rewrite Hempty in Hh. destruct Hh.
    + rewrite Hempty. split; constructor.
  - intros c s Hm. eexists. split; [apply addCall_run|].
    cbn [self history withHistory]. unfold addedHistory.
    split; [now apply truncate_firstn | now apply truncate_length].
Qed.

Lemma sampleWorld_monotone : monotone (clock sampleWorld).
Proof. intros i j Hij. cbn [clock sampleWorld]. lia. Qed.

Lemma add_never_exceeds_maximum_witness :
  let calls := [sampleCall "SELECT 1"; sampleCall "SELECT 2"; sampleCall "SELECT 3"] in
  history (self (sampleState 2)) = [] /\
  0 <= maxHistorySize (self (sampleState 2)) /\
  exists s',
    addAll calls (sampleState 2) = (Normal tt, s') /\
    maxHistorySize (self s') = maxHistorySize (self (sampleState 2)) /\
    Z.of_nat (length (history (self s'))) <= maxHistorySize (self (sampleState 2)) /\
    (monotone (clock (world (sampleState 2))) -> newestFirst (history (self s'))).
Proof.
  intros calls.
  assert (Hm : 0 <= maxHistorySize (self (sampleState 2))) by (cbn; lia).
  split; [reflexivity|]. split; [exact Hm|].
  exact (proj1 add_never_exceeds_maximum calls (sampleState 2) eq_refl Hm).
Defined.

(* ================================================================== *)
(** * The query history log: de-duplication *)
(* ================================================================== *)

Lemma streq_refl (a : jsstring) : streq a a = true.
Proof. now apply streq_true. Qed.

Lemma perform_add_ticks (c : AddCall) (s s' : State) :
  addCall c s = (Normal tt, s') -> ticks (world s') = ticksAfterAdd s c.
Proof.
  rewrite addCall_run. intros H. inversion H. cbn [world].
  apply addedWorld_ticks.
Qed.









(* ================================================================== *)
(** * The query history log: persistence *)
(* ================================================================== *)

Lemma mutatedHistory_sources (op : Mutation) (s1 s2 : State) :
  self s1 = self s2 -> sameSources (world s1) (world s2) ->
  mutatedHistory op s1 = mutatedHistory op s2.
Proof.
  destruct s1 as [m1 [ck1 t1 r1 d1 h1 cs1]], s2 as [m2 [ck2 t2 r2 d2 h2 cs2]].
  unfold sameSources. cbn [self world clock ticks random draws].
  intros -> (-> & -> & -> & ->). destruct op; reflexivity.
Qed.

(** On a log with an entry whose [query] is not a string, [search] throws. *)
Lemma search_throws (needle : jsstring) (s : State) :
  (exists h, In h (history (self s)) /\ queryOf h = None) ->
  search needle s = (Throw TypeError, s).
Proof.
  unfold search, bind, getHistory. generalize (history (self s)).
  intros l [h [Hin Hq]]. induction l as [|x l IH]; [destruct Hin|].
  cbn [filterM]. unfold bind at 1. unfold matchesSearch at 1.
  destruct (queryOf x) as [q|] eqn:Eq; [|reflexivity].
  unfold ret at 1. unfold bind at 1.
  destruct Hin as [->|Hin]; [congruence|]. now rewrite (IH Hin).
Qed.

Lemma In_entriesOf (h : Entry) (elems : list StoredElement) :
  In h (entriesOf elems) <-> In (ElemObject h) elems.
Proof.
  unfold entriesOf. rewrite in_flat_map. split.
  - intros [e [He Hh]]. destruct e as [| |x]; [destruct Hh | destruct Hh |].
    destruct Hh as [<-|[]]. exact He.
  - intros H. exists (ElemObject h). split; [exact H | now left].
Qed.

Lemma existsb_isThrowing_absent (elems : list StoredElement) :
  ~ In ElemThrowing elems -> existsb isThrowing elems = false.
Proof.
  intros H. destruct (existsb isThrowing elems) eqn:E; [|reflexivity].
  apply existsb_exists in E as [e [He Hn]]. destruct e; try discriminate.
  contradiction.
Qed.

(** What is loaded from a storage that can be read and holds an array
    without [null]: the objects that pass the filter. *)
Lemma loadedHistory_array (m : QueryHistoryManager) (w : World) (ls : LocalStorage)
  (elems : list StoredElement) :
  host w = Browser ls -> getItemThrows ls = false ->
  stored ls (storageKey m) = Some (TextArray elems) ->
  ~ In ElemThrowing elems ->
  loadedHistory m w
  = entriesOf (filter (isRecent (clock w (ticks w) - thirtyDays)) elems).
Proof.
  intros Hh Hg Hs Hn. unfold loadedHistory. rewrite Hh, Hg, Hs.
  now rewrite (existsb_isThrowing_absent elems Hn).
Qed.

(** C8. The code departs from the claim.  The part of the claim on failures
    holds: the constructor returns normally in every world, and when reading
    the storage fails (access refused, [getItem] throws, text that is not
    JSON, a value that is not an array, an array with an element on which
    the filter throws, as [null]) the log is empty, as with an empty
    storage; [add], [clear] and [remove] return
    normally in every state, and the list they leave does not depend on what
    the storage does.  But content of the wrong shape is not always a
    failure: a stored array of objects is filtered on their timestamps alone,
    so that an object that has not the shape of a history item and whose
    [timestamp] converts to a number less than 30 days old is loaded as it
    is.  With the stored text [[{"timestamp":"9999999999999"}]] the new log
    holds that object, not nothing, and [search] then throws a
    [TypeError]. *)
Theorem load_keeps_wrong_shape_entries :
  (forall (maxSize : option Z) (w : World),
     exists s,
       newQueryHistoryManager maxSize w = (Normal tt, s) /\
       (loadFails w \/ storageEmpty w -> history (self s) = [])) /\
  (forall (op : Mutation) (s1 s2 : State),
     self s1 = self s2 ->
     sameSources (world s1) (world s2) ->
     exists s1' s2',
       perform op s1 = (Normal tt, s1') /\
       perform op s2 = (Normal tt, s2') /\
       self s1' = self s2' /\
       history (self s1') = mutatedHistory op s1) /\
  (forall (maxSize : option Z) (w : World) (ls : LocalStorage)
          (elems : list StoredElement),
     host w = Browser ls ->
     getItemThrows ls = false ->
     stored ls (lit "sqlite-visualizer-history") = Some (TextArray elems) ->
     ~ In ElemThrowing elems ->
     exists s,
       newQueryHistoryManager maxSize w = (Normal tt, s) /\
       (forall h, In h (history (self s)) -> In (ElemObject h) elems) /\
       (forall o q, In (ElemObject (Foreign o)) elems ->
          f_timestamp o = Finite q ->
          (inject_Z (clock w (ticks w) - thirtyDays) < q)%Q ->
          In (Foreign o) (history (self s))) /\
       (forall it, In (ElemObject (Item it)) elems ->
          clock w (ticks w) - thirtyDays < timestamp it ->
          In (Item it) (history (self s)))) /\
  (exists s,
     newQueryHistoryManager None wrongShapeWorld = (Normal tt, s) /\
     history (self s) = [Foreign timestampOnly] /\
     length (history (self s)) = 1%nat /\
     search (lit "select") s = (Throw TypeError, s)).
Proof.
  split; [|split; [|split]].
  - intros maxSize w.
    destruct (newQueryHistoryManager_run maxSize w) as [w' [H _]].
    eexists. split; [exact H|]. cbn [self history].
    intros Hf. now rewrite (loadedHistory_failure initialFields w eq_refl Hf).
  - intros op s1 s2 Hself Hsrc.
    destruct (perform_run op s1) as [w1 [H1 _]].
    destruct (perform_run op s2) as [w2 [H2 _]].
    do 2 eexists. split; [exact H1|]. split; [exact H2|].
    cbn [self history withHistory].
    rewrite (mutatedHistory_sources op s1 s2 Hself Hsrc), Hself.
    split; reflexivity.
  - intros maxSize w ls elems Hh Hg Hs Hn.
    destruct (newQueryHistoryManager_run maxSize w) as [w' [H _]].
    eexists. split; [exact H|]. cbn [self history].
    rewrite (loadedHistory_array initialFields w ls elems Hh Hg Hs Hn).
    split; [|split].
    + intros h Hin. apply In_entriesOf in Hin. now apply filter_In in Hin as [Hin _].
    + intros o q Hin Hq Hlt. apply In_entriesOf. apply filter_In.
      split; [exact Hin|]. cbn [isRecent laterThan]. rewrite Hq.
      apply negb_true_iff.
      destruct (Qle_bool q (inject_Z (clock w (ticks w) - thirtyDays))) eqn:E;
        [|reflexivity].
      apply Qle_bool_iff in E. now apply Qlt_not_le in Hlt.
    + intros it Hin Hlt. apply In_entriesOf. apply filter_In.
      split; [exact Hin|]. cbn [isRecent laterThan].
      destruct (Z.gtb_spec (timestamp it) (clock w (ticks w) - thirtyDays));
        [reflexivity | lia].
  - destruct (newQueryHistoryManager_run None wrongShapeWorld) as [w' [H _]].
    eexists. split; [exact H|]. cbn [self history].
    assert (Hl : loadedHistory initialFields wrongShapeWorld = [Foreign timestampOnly])
      by (vm_compute; reflexivity).
    rewrite Hl. split; [reflexivity|]. split; [reflexivity|].
    apply search_throws. exists (Foreign timestampOnly).
    split; [now left | reflexivity].
Qed.



Lemma filter_laterThan_items (horizon : Z) (items : list QueryHistoryItem) :
  filter (fun h => laterThan h horizon) (map Item items)
  = map Item (filter (fun it => timestamp it >? horizon) items).
Proof.
  induction items as [|x items IH]; [reflexivity|].
  cbn [map filter laterThan]. destruct (timestamp x >? horizon); cbn [map];
    now rewrite IH.
Qed.



(** C10. The constructor does not apply the maximum to what it loads: when
    the storage holds more than [m] entries that are less than 30 days old,
    the new manager holds them all, more than [m]; the next call of [add]
    brings the list back to at most [m] entries.  This happens for a maximum
    below 50, the number of entries that are persisted. *)
Theorem constructor_ignores_maximum :
  (forall (m : Z) (w : World) (ls : LocalStorage) (items : list QueryHistoryItem),
     host w = Browser ls ->
     getItemThrows ls = false ->
     stored ls (lit "sqlite-visualizer-history")
       = Some (JSON_stringify (map Item items)) ->
     (forall it, In it items -> clock w (ticks w) - thirtyDays < timestamp it) ->
     m < Z.of_nat (length items) ->
     exists s,
       newQueryHistoryManager (Some m) w = (Normal tt, s) /\
       maxHistorySize (self s) = m /\
       history (self s) = map Item items /\
       m < Z.of_nat (length (history (self s))) /\
       (0 <= m ->
        forall c, exists s',
          addCall c s = (Normal tt, s') /\
          Z.of_nat (length (history (self s'))) <= m)) /\
  (exists (m : Z) (w : World) (s : State),
     m < 50 /\
     (Z.of_nat (length sampleItems) <= 50) /\
     storedLog w = Some (JSON_stringify (map Item sampleItems)) /\
     newQueryHistoryManager (Some m) w = (Normal tt, s) /\
     m < Z.of_nat (length (history (self s)))).
Proof.
  assert (General :
    forall (m : Z) (w : World) (ls : LocalStorage) (items : list QueryHistoryItem),
     host w = Browser ls ->
     getItemThrows ls = false ->
     stored ls (lit "sqlite-visualizer-history")
       = Some (JSON_stringify (map Item items)) ->
     (forall it, In it items -> clock w (ticks w) - thirtyDays < timestamp it) ->
     m < Z.of_nat (length items) ->
     exists s,
       newQueryHistoryManager (Some m) w = (Normal tt, s) /\
       maxHistorySize (self s) = m /\
       history (self s) = map Item items /\
       m < Z.of_nat (length (history (self s))) /\
       (0 <= m ->
        forall c, exists s',
          addCall c s = (Normal tt, s') /\
          Z.of_nat (length (history (self s'))) <= m)).
  { intros m w ls items Hh Hg Hs Hrecent Hlen.
    destruct (newQueryHistoryManager_run (Some m) w) as [w' [Hnew _]].
    eexists. split; [exact Hnew|]. cbn [self history maxHistorySize].
    assert (Hload : loadedHistory initialFields w = map Item items).
    { rewrite (loadedHistory_items initialFields w ls (map Item items) Hh Hg Hs).
      rewrite map_written_items, filter_laterThan_items. f_equal.
      apply forallb_filter_id. apply forallb_forall. intros it Hit.
      specialize (Hrecent it Hit).
      destruct (Z.gtb_spec (timestamp it) (clock w (ticks w) - thirtyDays));
        [reflexivity | lia]. }
    rewrite Hload. split; [reflexivity|]. split; [reflexivity|].
    split; [now rewrite length_map|].
    intros Hm c. eexists. split; [apply addCall_run|].
    cbn [self history withHistory]. unfold addedHistory.
    cbn [self maxHistorySize]. now apply truncate_length. }
  split; [exact General|].
  destruct (General 1 restartWorld _ sampleItems eq_refl eq_refl eq_refl)
    as [s [H1 [_ [_ [H2 _]]]]].
  - intros it [<-|[<-|[]]]; cbn; lia.
  - cbn. lia.
  - exists 1, restartWorld, s. split; [lia|]. split; [cbn; lia|].
    split; [reflexivity|]. split; [exact H1 | exact H2].
Qed.

Lemma constructor_ignores_maximum_witness :
  let ls := {| stored := fun _ : jsstring => Some (JSON_stringify (map Item sampleItems));
               getItemThrows := false; setItemThrows := false |} in
  host restartWorld = Browser ls /\
  getItemThrows ls = false /\
  stored ls (lit "sqlite-visualizer-history")
    = Some (JSON_stringify (map Item sampleItems)) /\
  (forall it, In it sampleItems ->
     clock restartWorld (ticks restartWorld) - thirtyDays < timestamp it) /\
  1 < Z.of_nat (length sampleItems) /\
  exists s,
    newQueryHistoryManager (Some 1) restartWorld = (Normal tt, s) /\
    maxHistorySize (self s) = 1 /\
    history (self s) = map Item sampleItems /\
    1 < Z.of_nat (length (history (self s))) /\
    (0 <= 1 ->
     forall c, exists s',
       addCall c s = (Normal tt, s') /\
       Z.of_nat (length (history (self s'))) <= 1).
Proof.
  intros ls.
  assert (Hr : forall it, In it sampleItems ->
                 clock restartWorld (ticks restartWorld) - thirtyDays < timestamp it)
    by (intros it [<-|[<-|[]]]; cbn; lia).
  assert (Hl : 1 < Z.of_nat (length sampleItems)) by (cbn; lia).
  split; [reflexivity|]. split; [reflexivity|]. split; [reflexivity|].
  split; [exact Hr|]. split; [exact Hl|].
  exact (proj1 constructor_ignores_maximum 1 restartWorld ls sampleItems
           eq_refl eq_refl eq_refl Hr Hl).
Defined.

(* ------------------------------------------------------------------ *)
(** ** The examples of the tests *)

Example limit_history_size :
  length (historyAfter (constructor (Some 10) ;; addAll fifteenCalls)
                       {| self := initialFields; world := sampleWorld |}) = 10%nat.
Proof. vm_compute. reflexivity. Qed.

Example add_then_search_texts :
  map queryOf (historyAfter (addAll [sampleCall "SELECT * FROM users";
                                     sampleCall "SELECT * FROM posts"])
                            (sampleState 10))
  = [Some (lit "SELECT * FROM posts"); Some (lit "SELECT * FROM users")].
Proof. vm_compute. reflexivity. Qed.

Example clear_then_restart :
  let s1 := snd ((addAll [sampleCall "SELECT 1"; sampleCall "SELECT 2"] ;; clear)
                   (sampleState 10)) in
  history (self s1) = [] /\
  history (self (snd (newQueryHistoryManager None (world s1)))) = [].
Proof. split; vm_compute; reflexivity. Qed.

(** The failures that the two [try] blocks catch do occur: in a world whose
    storage refuses writes and holds text that is not JSON, [setItem] and
    [JSON.parse] throw, and the methods around them return normally, with a
    warning on the console. *)
Example storage_can_fail :
  let s := {| self := initialFields; world := corruptWorld |} in
  fst (localStorage_setItem (storageKey initialFields) (JSON_stringify []) s)
    = Throw DOMException /\
  fst (JSON_parse TextMalformed s) = Throw SyntaxError /\
  fst (saveToStorage s) = Normal tt /\
  fst (loadFromStorage s) = Normal tt /\
  console (world (snd (loadFromStorage s)))
    = [lit "Failed to load query history from storage:"].
Proof. repeat split; vm_compute; reflexivity. Qed.

(* ================================================================== *)
(** * Further properties of the query history log *)
(* ================================================================== *)

Lemma includes_spec (s p : jsstring) :
  includes s p = true <-> exists pre post, s = pre ++ p ++ post.
Proof.
  induction s as [|a s IH]; cbn [includes].
  - rewrite orb_false_r, startsWith_app. split.
    + intros [r Hr]. now exists [], r.
    + intros [pre [post H]]. symmetry in H.
      apply app_eq_nil in H as [-> H]. apply app_eq_nil in H as [-> ->].
      now exists [].
  - rewrite orb_true_iff, startsWith_app, IH. split.
    + intros [[r Hr] | [pre [post H]]].
      * now exists [], r.
      * exists (a :: pre), post. simpl. now rewrite H.
    + intros [[|b pre] [post H]].
      * left. now exists post.
      * right. simpl in H. inversion H; subst. now exists pre, post.
Qed.

Lemma filter_Subsequence {A} (f : A -> bool) (l : list A) :
  Subsequence (filter f l) l.
Proof.
  induction l as [|x l IH]; cbn [filter]; [constructor|].
  destruct (f x); now constructor.
Qed.

Lemma Subsequence_In {A} (l1 l2 : list A) (x : A) :
  Subsequence l1 l2 -> In x l1 -> In x l2.
Proof.
  induction 1 as [|y l1 l2 _ IH|y l1 l2 _ IH]; intros Hx.
  - exact Hx.
  - right. now apply IH.
  - destruct Hx as [->|Hx]; [now left | right; now apply IH].
Qed.

(** [search], run on a log in which every [query] is a string: nothing
    throws and the state is unchanged. *)
Lemma search_run (needle : jsstring) (s : State) :
  queriesAreStrings (history (self s)) ->
  search needle s
  = (Normal (filter (containsQuery (toLowerCase needle)) (history (self s))), s).
Proof.
  unfold search, bind, getHistory. generalize (history (self s)).
  intros l Hl. induction l as [|h l IH]; [reflexivity|].
  cbn [filterM filter]. unfold bind at 1. unfold matchesSearch at 1, containsQuery at 1.
  destruct (queryOf h) as [q|] eqn:Eq; [|now elim (Hl h (or_introl eq_refl))].
  unfold ret at 1. unfold bind at 1.
  rewrite IH by (intros x Hx; apply Hl; now right). reflexivity.
Qed.

Lemma In_filter_containsQuery (needle : jsstring) (l : list Entry) (h : Entry) :
  In h (filter (containsQuery (toLowerCase needle)) l) <->
  In h l /\ exists q, queryOf h = Some q /\ ContainsIgnoringCase q needle.
Proof.
  rewrite filter_In. unfold containsQuery, ContainsIgnoringCase. split.
  - intros [Hin H]. split; [exact Hin|].
    destruct (queryOf h) as [q|]; [|discriminate].
    exists q. split; [reflexivity|]. now apply includes_spec.
  - intros [Hin [q [-> H]]]. split; [exact Hin|]. now apply includes_spec.
Qed.

Lemma sampleLog_queriesAreStrings : queriesAreStrings (history (self sampleLog)).
Proof. intros h [<-|[<-|[]]]; discriminate. Qed.

(** X1. On a log in which the [query] of every entry is a string, as [add]
    leaves it, [search] changes nothing and returns, in the order of the log,
    exactly the entries whose text contains the needle, the case of the
    letters ignored on both sides; with the empty needle it returns the
    whole log.  On a log that holds an entry without a string under [query],
    as [loadFromStorage] can leave it, [search] throws a [TypeError]. *)
Theorem search_finds_exactly (needle : jsstring) (s : State) :
  (queriesAreStrings (history (self s)) ->
   exists found,
     search needle s = (Normal found, s) /\
     Subsequence found (history (self s)) /\
     (forall h, In h found <->
                In h (history (self s)) /\
                exists q, queryOf h = Some q /\ ContainsIgnoringCase q needle) /\
     (forall it, In (Item it) found <->
                 In (Item it) (history (self s)) /\
                 ContainsIgnoringCase (query it) needle) /\
     search (toUpperCase needle) s = (Normal found, s) /\
     (needle = [] -> found = history (self s))) /\
  ((exists h, In h (history (self s)) /\ queryOf h = None) ->
   search needle s = (Throw TypeError, s)).
Proof.
  split; [|apply search_throws].
  intros Hq. eexists. split; [now apply search_run|].
  split; [apply filter_Subsequence|]. split; [|split; [|split]].
  - apply In_filter_containsQuery.
  - intros it. rewrite In_filter_containsQuery. cbn [queryOf]. split.
    + intros [Hin [q [[= <-] H]]]. now split.
    + intros [Hin H]. split; [exact Hin|]. now exists (query it).
  - rewrite (search_run _ _ Hq). now rewrite toLowerCase_upper.
  - intros ->. apply forallb_filter_id. apply forallb_forall. intros h Hh.
    unfold containsQuery. destruct (queryOf h) as [q|] eqn:E; [|now elim (Hq h Hh)].
    cbn [toLowerCase map]. apply includes_spec. exists [], (toLowerCase q).
    reflexivity.
Qed.

Lemma search_finds_exactly_witness :
  queriesAreStrings (history (self sampleLog)) /\
  exists found,
    search (lit "select 2") sampleLog = (Normal found, sampleLog) /\
    found = firstn 1 (history (self sampleLog)) /\
    search (lit "SELECT 2") sampleLog = (Normal found, sampleLog).
Proof.
  split; [exact sampleLog_queriesAreStrings|].
  destruct (proj1 (search_finds_exactly (lit "select 2") sampleLog)
              sampleLog_queriesAreStrings)
    as [found [Hrun [_ [_ [_ [Hupper _]]]]]].
  exists found. split; [exact Hrun|]. split; [|exact Hupper].
  vm_compute in Hrun. now injection Hrun as <-.
Defined.

(** X2. [remove] returns normally and deletes exactly the entries with the
    given identifier, keeping the others in order; with no such entry the
    list is unchanged, and removing a second time changes nothing more. *)
Theorem remove_deletes_by_id (itemId : jsstring) (s : State) :
  exists s',
    remove itemId s = (Normal tt, s') /\
    maxHistorySize (self s') = maxHistorySize (self s) /\
    Subsequence (history (self s')) (history (self s)) /\
    (forall h, In h (history (self s')) <->
               In h (history (self s)) /\ idOf h <> Some itemId) /\
    (forall it, In (Item it) (history (self s')) <->
                In (Item it) (history (self s)) /\ id it <> itemId) /\
    ((forall h, In h (history (self s)) -> idOf h <> Some itemId) ->
     history (self s') = history (self s)) /\
    exists s'',
      remove itemId s' = (Normal tt, s'') /\
      history (self s'') = history (self s').
Proof.
  destruct s as [m w]. eexists. split; [apply remove_run|].
  cbn [self history withHistory maxHistorySize].
  set (keep := fun item => negb (hasId item itemId)).
  assert (Hkeep : forall h, keep h = true <-> idOf h <> Some itemId).
  { intros h. unfold keep, hasId. rewrite negb_true_iff.
    destruct (idOf h) as [i|]; [|split; [discriminate | reflexivity]]. split.
    - intros H [= E]. subst i. now rewrite streq_refl in H.
    - intros H. apply streq_differ. congruence. }
  split; [reflexivity|]. split; [apply filter_Subsequence|].
  split; [|split; [|split]].
  - intros h. rewrite filter_In, Hkeep. reflexivity.
  - intros it. rewrite filter_In, Hkeep. cbn [idOf].
    split; intros [H1 H2]; (split; [exact H1|]); congruence.
  - intros H. apply forallb_filter_id. apply forallb_forall.
    intros it Hit. apply Hkeep. now apply H.
  - eexists. split; [apply remove_run|]. cbn [self history withHistory].
    apply forallb_filter_id. apply forallb_forall.
    intros it Hit. apply filter_In in Hit as [_ Hit]. exact Hit.
Qed.

Lemma savedWorld_host_failed (key : jsstring) (h : list Entry)
  (w : World) (ls : LocalStorage) :
  host w = Browser ls -> setItemThrows ls = true -> host (savedWorld key h w) = host w.
Proof. intros Hh Hs. unfold savedWorld. now rewrite Hh, Hs. Qed.

Lemma savedWorld_host_written (key : jsstring) (h : list Entry)
  (w : World) (ls : LocalStorage) :
  host w = Browser ls -> setItemThrows ls = false ->
  host (savedWorld key h w) = Browser (putItem ls key (JSON_stringify (slice0 h 50))).
Proof. intros Hh Hs. unfold savedWorld. now rewrite Hh, Hs. Qed.

(** X3. [clear] empties the list.  When the write to the storage works, a
    manager constructed afterwards on that storage starts empty; when the
    write throws, the stored text is untouched, so a manager constructed
    afterwards loads again the entries that were stored before. *)
Theorem clear_durable_iff_written (s : State) (ls : LocalStorage) :
  storageKey (self s) = lit "sqlite-visualizer-history" ->
  host (world s) = Browser ls ->
  getItemThrows ls = false ->
  exists s',
    clear s = (Normal tt, s') /\
    history (self s') = [] /\
    (setItemThrows ls = false ->
     forall maxSize w2, host w2 = host (world s') ->
       exists s2, newQueryHistoryManager maxSize w2 = (Normal tt, s2) /\
                  history (self s2) = []) /\
    (setItemThrows ls = true ->
     forall items, storedLog (world s) = Some (JSON_stringify (map Item items)) ->
     forall maxSize w2, host w2 = host (world s') ->
       exists s2, newQueryHistoryManager maxSize w2 = (Normal tt, s2) /\
                  history (self s2) =
                    map Item
                      (filter (fun it => timestamp it >? clock w2 (ticks w2) - thirtyDays)
                              items)).
Proof.
  intros Hkey Hhost Hget. destruct s as [m w]. cbn [self world] in *.
  eexists. split; [apply clear_run|]. cbn [self world history withHistory].
  split; [reflexivity|]. split.
  - intros Hset maxSize w2 Hw2.
    rewrite (savedWorld_host_written _ _ _ _ Hhost Hset) in Hw2.
    destruct (newQueryHistoryManager_run maxSize w2) as [w3 [Hnew _]].
    eexists. split; [exact Hnew|]. cbn [self history].
    rewrite (loadedHistory_items initialFields w2 _ [] Hw2 Hget).
    + reflexivity.
    + cbn [stored putItem storageKey initialFields]. now rewrite Hkey, streq_refl.
  - intros Hset items Hitems maxSize w2 Hw2.
    rewrite (savedWorld_host_failed _ _ _ _ Hhost Hset), Hhost in Hw2.
    destruct (newQueryHistoryManager_run maxSize w2) as [w3 [Hnew _]].
    eexists. split; [exact Hnew|]. cbn [self history].
    rewrite <- filter_laterThan_items, <- (map_written_items items).
    apply (loadedHistory_items initialFields w2 ls (map Item items) Hw2 Hget).
    unfold storedLog in Hitems. now rewrite Hhost in Hitems.
Qed.

Lemma clear_durable_iff_written_witness :
  let ls := {| stored := fun _ : jsstring => Some (JSON_stringify (map Item sampleItems));
               getItemThrows := false; setItemThrows := false |} in
  let s := {| self := initialFields; world := restartWorld |} in
  storageKey (self s) = lit "sqlite-visualizer-history" /\
  host (world s) = Browser ls /\
  getItemThrows ls = false /\
  exists s',
    clear s = (Normal tt, s') /\
    history (self s') = [] /\
    (setItemThrows ls = false ->
     forall maxSize w2, host w2 = host (world s') ->
       exists s2, newQueryHistoryManager maxSize w2 = (Normal tt, s2) /\
                  history (self s2) = []).
Proof.
  intros ls s. split; [reflexivity|]. split; [reflexivity|]. split; [reflexivity|].
  destruct (clear_durable_iff_written s ls eq_refl eq_refl eq_refl) as [s' [H1 [H2 [H3 _]]]].
  exists s'. split; [exact H1|]. split; [exact H2 | exact H3].
Defined.

(* ------------------------------------------------------------------ *)
(** ** The identifiers of the entries *)

Lemma uint_digits (d : Decimal.uint) :
  Forall (fun c => isDigit c = true)
         (list_ascii_of_string (NilEmpty.string_of_uint d)).
Proof. induction d; simpl; constructor; auto. Qed.

Lemma uint0_digits (d : Decimal.uint) :
  Forall (fun c => isDigit c = true)
         (list_ascii_of_string (NilZero.string_of_uint d)) /\
  list_ascii_of_string (NilZero.string_of_uint d) <> [].
Proof.
  destruct d; (split; [|discriminate]);
    try apply (uint_digits (_ d)); repeat constructor.
Qed.

Lemma digits_then_dash (u1 u2 r1 r2 : jsstring) :
  Forall (fun c => isDigit c = true) u1 ->
  Forall (fun c => isDigit c = true) u2 ->
  u1 ++ "-"%char :: r1 = u2 ++ "-"%char :: r2 -> u1 = u2.
Proof.
  intros H1. revert u2. induction H1 as [|c u1 Hc _ IH]; intros u2 H2 E.
  - destruct H2 as [|c u2 Hc _]; [reflexivity|].
    simpl in E. inversion E; subst. discriminate.
  - destruct H2 as [|c2 u2 Hc2 H2].
    + simpl in E. inversion E; subst. discriminate.
    + simpl in E. inversion E; subst. f_equal. now apply IH.
Qed.

Lemma decimal_inj (a b : Z) : decimal a = decimal b -> a = b.
Proof.
  unfold decimal. intros E.
  apply (f_equal string_of_list_ascii) in E.
  rewrite !string_of_list_ascii_of_string in E.
  apply (f_equal NilZero.int_of_string) in E.
  assert (Hn : forall z, Z.to_int z <> Decimal.Pos Decimal.Nil /\
                         Z.to_int z <> Decimal.Neg Decimal.Nil).
  { intros [|p|p]; split; try discriminate; cbn [Z.to_int]; intros H;
      inversion H as [H']; now apply Unsigned.to_uint_nonnil in H'. }
  rewrite !NilZero.isi in E by apply Hn.
  inversion E as [E']. apply (f_equal Z.of_int) in E'.
  now rewrite !DecimalZ.of_to in E'.
Qed.

(** Two identifiers are equal only if they were built from the same value
    of the clock. *)
Lemma idAt_clock (clk : nat -> Z) (i j : nat) (ri rj : jsstring) :
  idAt clk i ri = idAt clk j rj -> clk i = clk j.
Proof.
  unfold idAt, decimal. cbn [lit list_ascii_of_string app].
  intros E. apply decimal_inj. unfold decimal.
  destruct (Z.to_int (clk i)) as [di|di], (Z.to_int (clk j)) as [dj|dj];
    cbn [NilZero.string_of_int list_ascii_of_string] in *.
  - destruct (uint0_digits di) as [Hi _], (uint0_digits dj) as [Hj _].
    apply (digits_then_dash _ _ _ _ Hi Hj E).
  - destruct (uint0_digits di) as [Hi Hne].
    destruct (list_ascii_of_string (NilZero.string_of_uint di)) as [|c u];
      [congruence|].
    inversion Hi; subst. simpl in E. inversion E; subst. discriminate.
  - destruct (uint0_digits dj) as [Hj Hne].
    destruct (list_ascii_of_string (NilZero.string_of_uint dj)) as [|c u];
      [congruence|].
    inversion Hj; subst. simpl in E. inversion E; subst. discriminate.
  - destruct (uint0_digits di) as [Hi _], (uint0_digits dj) as [Hj _].
    simpl in E. inversion E as [E']. f_equal.
    apply (digits_then_dash _ _ _ _ Hi Hj E').
Qed.

Lemma addCall_ids (c : AddCall) (s : State) :
  idsStamped s -> StronglySorted (idAfter (clock (world s))) (history (self s)) ->
  let s' := {| self := withHistory (self s) (addedHistory s c);
               world := addedWorld s c |} in
  idsStamped s' /\ StronglySorted (idAfter (clock (world s))) (history (self s')).
Proof.
  intros Hst Hso s'. unfold s'. cbn [self world history withHistory].
  pose proof (ticksAfterAdd_ge s c) as Hticks.
  assert (Hkept : forall b, In b (keptOnAdd s c) -> In b (history (self s))).
  { intros b Hb. unfold keptOnAdd in Hb. now apply dedup_In in Hb as [Hb _]. }
  assert (Hall : StronglySorted (idAfter (clock (world s)))
                   (Item (addedItem (world s) c) :: keptOnAdd s c)).
  { constructor.
    - unfold keptOnAdd. now apply dedup_sorted.
    - apply Forall_forall. intros b Hb.
      destruct (Hst b (Hkept b Hb)) as [y [j [r [-> [Hj Hid]]]]].
      exists (addedItem (world s) c), y, (ticks (world s)), j,
        (random (world s) (draws (world s))), r.
      split; [reflexivity|]. split; [reflexivity|]. split; [reflexivity|].
      split; [exact Hid | exact Hj]. }
  split.
  - unfold idsStamped. cbn [self world history].
    rewrite addedWorld_clock, addedWorld_ticks.
    intros h Hh. unfold addedHistory in Hh. apply In_truncate in Hh.
    destruct Hh as [<-|Hh].
    + exists (addedItem (world s) c), (ticks (world s)),
        (random (world s) (draws (world s))).
      split; [reflexivity|]. split; [lia | reflexivity].
    + destruct (Hst h (Hkept h Hh)) as [y [j [r [-> [Hj Hid]]]]].
      exists y, j, r. split; [reflexivity|]. split; [lia | exact Hid].
  - unfold addedHistory, truncate, slice0.
    destruct (_ >? _); [|exact Hall].
    destruct (_ <? 0); now apply firstn_sorted.
Qed.

Lemma addAll_ids (calls : list AddCall) :
  forall s, idsStamped s ->
    StronglySorted (idAfter (clock (world s))) (history (self s)) ->
    exists s',
      addAll calls s = (Normal tt, s') /\
      clock (world s') = clock (world s) /\
      idsStamped s' /\
      StronglySorted (idAfter (clock (world s))) (history (self s')).
Proof.
  induction calls as [|c calls IH]; intros s Hst Hso.
  - exists s. repeat split; auto.
  - cbn [addAll]. unfold bind. rewrite addCall_run.
    destruct (addCall_ids c s Hst Hso) as [Hst1 Hso1].
    set (s1 := {| self := withHistory (self s) (addedHistory s c);
                  world := addedWorld s c |}) in *.
    assert (Hclk : clock (world s1) = clock (world s)) by apply addedWorld_clock.
    rewrite <- Hclk in Hso1.
    destruct (IH s1 Hst1 Hso1) as [s' [H1 [H2 [H3 H4]]]].
    exists s'. split; [exact H1|]. split; [now rewrite H2|].
    split; [exact H3|]. now rewrite <- Hclk.
Qed.

(** A list of entries that are all items is the image of a list of items. *)
Lemma all_items (l : list Entry) :
  (forall h, In h l -> exists it, h = Item it) ->
  exists items, l = map Item items.
Proof.
  induction l as [|h l IH]; intros H; [now exists []|].
  destruct (H h (or_introl eq_refl)) as [it ->].
  destruct IH as [items ->]; [intros x Hx; apply H; now right|].
  now exists (it :: items).
Qed.

Lemma sorted_ids_NoDup (clk : nat -> Z) (items : list QueryHistoryItem) :
  strictlyIncreasing clk -> StronglySorted (idAfter clk) (map Item items) ->
  NoDup (map id items).
Proof.
  intros Hclk. induction items as [|x items IH]; intros Hs; cbn [map];
    [constructor|].
  cbn [map] in Hs. apply StronglySorted_inv in Hs as [Hs Hx].
  constructor; [|now apply IH].
  intros Hin. apply in_map_iff in Hin as [y [Hy Hin]].
  rewrite Forall_forall in Hx.
  destruct (Hx (Item y) (in_map Item _ _ Hin))
    as [x' [y' [i [j [ra [rb [[= <-] [[= <-] [Ha [Hb Hji]]]]]]]]]].
  rewrite Ha, Hb in Hy. apply idAt_clock in Hy.
  specialize (Hclk j i Hji). lia.
Qed.

Lemma remove_one_of_unique (items : list QueryHistoryItem) (it : QueryHistoryItem) :
  NoDup (map id items) -> In it items ->
  S (length (filter (fun x => negb (hasId x (id it))) (map Item items)))
  = length (map Item items).
Proof.
  unfold hasId.
  induction items as [|x l IH]; intros Hnd Hin; [destruct Hin|].
  cbn [map] in Hnd. apply NoDup_cons_iff in Hnd as [Hx Hnd].
  cbn [map filter length idOf]. destruct Hin as [->|Hin].
  - rewrite streq_refl. cbn [negb]. f_equal.
    f_equal. apply forallb_filter_id. apply forallb_forall. intros y Hy.
    apply in_map_iff in Hy as [z [<- Hz]]. cbn [idOf].
    apply negb_true_iff. destruct (streq (id z) (id it)) eqn:E; [|reflexivity].
    apply streq_true in E. elim Hx. rewrite <- E. now apply in_map.
  - destruct (streq (id x) (id it)) eqn:E.
    + apply streq_true in E. elim Hx. rewrite E. now apply in_map.
    + cbn [negb length]. f_equal. now apply IH.
Qed.

(** X4. When the clock advances between any two readings, a log filled by
    calls of [add] from the empty log holds items with pairwise distinct
    identifiers, whatever the random suffixes; [remove] with the identifier
    of an entry of it then deletes that entry and no other. *)
Theorem ids_are_unique (calls : list AddCall) (s0 : State) :
  history (self s0) = [] ->
  strictlyIncreasing (clock (world s0)) ->
  exists s' items,
    addAll calls s0 = (Normal tt, s') /\
    history (self s') = map Item items /\
    NoDup (map id items) /\
    forall it, In it items ->
      exists s'',
        remove (id it) s' = (Normal tt, s'') /\
        S (length (history (self s''))) = length (history (self s')) /\
        ~ In (Item it) (history (self s'')).
Proof.
  intros Hempty Hclk.
  destruct (addAll_ids calls s0) as [s' [H1 [H2 [H3 H4]]]].
  { intros h Hh. rewrite Hempty in Hh. destruct Hh. }
  { rewrite Hempty. constructor. }
  destruct (all_items (history (self s'))) as [items Hitems].
  { intros h Hh. destruct (H3 h Hh) as [it [_ [_ [-> _]]]]. now exists it. }
  rewrite Hitems in H4.
  pose proof (sorted_ids_NoDup _ _ Hclk H4) as Hnd.
  exists s', items. split; [exact H1|]. split; [exact Hitems|]. split; [exact Hnd|].
  intros it Hit. destruct s' as [m w]. eexists. split; [apply remove_run|].
  cbn [self history withHistory] in *. rewrite Hitems. split.
  - now apply remove_one_of_unique.
  - intros Hin. apply filter_In in Hin as [_ Hin].
    unfold hasId in Hin. cbn [idOf] in Hin. now rewrite streq_refl in Hin.
Qed.

Lemma sampleWorld_strictlyIncreasing : strictlyIncreasing (clock sampleWorld).
Proof. intros i j Hij. cbn [clock sampleWorld]. lia. Qed.

Lemma ids_are_unique_witness :
  let calls := [sampleCall "SELECT 1"; sampleCall "SELECT 2"; sampleCall "SELECT 1"] in
  history (self (sampleState 10)) = [] /\
  strictlyIncreasing (clock (world (sampleState 10))) /\
  exists s' items,
    addAll calls (sampleState 10) = (Normal tt, s') /\
    history (self s') = map Item items /\
    NoDup (map id items).
Proof.
  intros calls. split; [reflexivity|]. split; [exact sampleWorld_strictlyIncreasing|].
  destruct (ids_are_unique calls (sampleState 10) eq_refl
              sampleWorld_strictlyIncreasing) as [s' [items [H1 [H2 [H3 _]]]]].
  exists s', items. split; [exact H1|]. split; [exact H2 | exact H3].
Defined.

(* ================================================================== *)
(** * Accepting a suggestion *)
(* ================================================================== *)

Lemma rawWord_after_space (pre : jsstring) : rawWord (pre ++ lit " ") = [].
Proof.
  apply CurrentWord_rawWord. rewrite <- (app_nil_r (pre ++ lit " ")).
  rewrite <- app_assoc. apply (CurrentWord_after pre " " []); reflexivity.
Qed.

(** X5. Accepting a suggestion replaces the word being typed, and the
    selected text, by the label and one space: with [pre] the text in front
    of the current word [w] and [post] the text behind the selection, the new
    text is [pre ++ label ++ " " ++ post], the cursor stands right behind the
    inserted space, and the current word there is empty, so that the next
    list of suggestions offers the whole vocabulary again. *)
Theorem handleSuggestionSelect_replaces_word
  (this : SQLAutocomplete) (pre w selected post : jsstring) (suggestion : Suggestion) :
  CurrentWord (pre ++ w) w ->
  let queryText := pre ++ w ++ selected ++ post in
  let selectionStart := Z.of_nat (length (pre ++ w)) in
  let selectionEnd := Z.of_nat (length (pre ++ w ++ selected)) in
  let (newQuery, newPos) :=
    handleSuggestionSelect queryText selectionStart selectionEnd suggestion in
  newQuery = pre ++ label suggestion ++ lit " " ++ post /\
  substring0 newQuery newPos = pre ++ label suggestion ++ lit " " /\
  substringFrom newQuery newPos = post /\
  rawWord (substring0 newQuery newPos) = [] /\
  filter (ofType keyword) (getSuggestions this newQuery newPos)
    = map (fun kw => {| label := kw; type := keyword |}) (keywords this).
Proof.
  intros Hw queryText selectionStart selectionEnd.
  unfold handleSuggestionSelect.
  assert (Hbefore : substring0 queryText selectionStart = pre ++ w).
  { unfold substring0, selectionStart, queryText. rewrite Nat2Z.id.
    rewrite app_assoc, firstn_app, Nat.sub_diag, firstn_all. simpl.
    apply app_nil_r. }
  assert (Hafter : substringFrom queryText selectionEnd = post).
  { unfold substringFrom, selectionEnd, queryText. rewrite Nat2Z.id.
    replace (pre ++ w ++ selected ++ post) with ((pre ++ w ++ selected) ++ post)
      by (now rewrite <- !app_assoc).
    rewrite skipn_app, Nat.sub_diag, skipn_all. reflexivity. }
  assert (Hstart :
    match matchTrailingWord (substring0 queryText selectionStart) with
    | Some w0 => selectionStart - Z.of_nat (length w0)
    | None => selectionStart
    end = Z.of_nat (length pre)).
  { rewrite Hbefore. pose proof (CurrentWord_rawWord _ _ Hw) as Hraw.
    unfold rawWord in Hraw. unfold selectionStart. rewrite length_app.
    destruct (matchTrailingWord (pre ++ w)) as [w0|]; subst w; simpl; lia. }
  rewrite Hstart, Hafter.
  assert (Hpre : substring0 queryText (Z.of_nat (length pre)) = pre).
  { unfold substring0, queryText. rewrite Nat2Z.id.
    rewrite firstn_app, Nat.sub_diag, firstn_all. simpl. apply app_nil_r. }
  rewrite Hpre.
  set (newQuery := pre ++ label suggestion ++ lit " " ++ post).
  set (newPos := Z.of_nat (length pre) + Z.of_nat (length (label suggestion)) + 1).
  assert (Hpos : Z.to_nat newPos = length (pre ++ label suggestion ++ lit " ")).
  { unfold newPos. rewrite !length_app. simpl. lia. }
  assert (Hsplit : newQuery = (pre ++ label suggestion ++ lit " ") ++ post).
  { unfold newQuery. now rewrite <- !app_assoc. }
  assert (Hb : substring0 newQuery newPos = pre ++ label suggestion ++ lit " ").
  { unfold substring0. rewrite Hpos, Hsplit.
    rewrite firstn_app, Nat.sub_diag, firstn_all. simpl. apply app_nil_r. }
  split; [reflexivity|]. split; [exact Hb|]. split; [|split].
  - unfold substringFrom. rewrite Hpos, Hsplit.
    rewrite skipn_app, Nat.sub_diag, skipn_all. reflexivity.
  - rewrite Hb, app_assoc. apply rawWord_after_space.
  - rewrite getSuggestions_groups, !filter_app.
    rewrite (filter_ofType_other keyword table _ ltac:(discriminate)
               (type_tableGroup this _)).
    rewrite (filter_ofType_other keyword column _ ltac:(discriminate)
               (type_columnGroup this _)).
    rewrite (filter_ofType_same keyword _ (type_keywordGroup this _)).
    cbn [app]. unfold keywordGroup, keywordCandidates, currentWordOf.
    rewrite Hb, app_assoc, rawWord_after_space. cbn [toUpperCase map].
    f_equal. apply forallb_filter_id. apply forallb_forall.
    intros kw _. apply startsWith_nil.
Qed.

Lemma handleSuggestionSelect_replaces_word_witness :
  CurrentWord (lit "SELECT * FROM " ++ lit "us") (lit "us") /\
  handleSuggestionSelect (lit "SELECT * FROM us") 16 16
    {| label := lit "users"; type := table |}
    = (lit "SELECT * FROM users ", 20) /\
  rawWord (substring0 (lit "SELECT * FROM users ") 20) = [].
Proof.
  assert (Hw : CurrentWord (lit "SELECT * FROM " ++ lit "us") (lit "us"))
    by (apply (CurrentWord_after (lit "SELECT * FROM") " " (lit "us")); reflexivity).
  split; [exact Hw|].
  pose proof (handleSuggestionSelect_replaces_word usersEngine
                (lit "SELECT * FROM ") (lit "us") [] []
                {| label := lit "users"; type := table |} Hw) as H.
  split; [reflexivity|].
  change (handleSuggestionSelect _ _ _ _) with (lit "SELECT * FROM users ", 20) in H.
  exact (proj1 (proj2 (proj2 (proj2 H)))).
Defined.


(* ================================================================== *)
(** * The hotkey manager *)
(* ================================================================== *)

Section HotkeyFacts.

Import Hotkeys.

Context {Handler : Type}.

Lemma streq_false (a b : jsstring) : streq a b = false <-> a <> b.
Proof.
  split.
  - intros H E. apply streq_true in E. congruence.
  - intros H. destruct (streq a b) eqn:E; [|reflexivity].
    apply streq_true in E. contradiction.
Qed.

Lemma mapGet_mapSet_same (k : jsstring) (v : Handler) (m : HandlerMap Handler) :
  mapGet k (mapSet k v m) = Some v.
Proof.
  induction m as [|[k' v'] m IH]; cbn [mapSet mapGet].
  - now rewrite streq_refl.
  - destruct (streq k' k) eqn:E; cbn [mapGet].
    + now rewrite streq_refl.
    + now rewrite E.
Qed.

Lemma mapGet_mapSet_other (k k0 : jsstring) (v : Handler) (m : HandlerMap Handler) :
  k <> k0 -> mapGet k0 (mapSet k v m) = mapGet k0 m.
Proof.
  intros Hne. induction m as [|[k' v'] m IH]; cbn [mapSet mapGet].
  - now rewrite (proj2 (streq_false k k0) Hne).
  - destruct (streq k' k) eqn:E; cbn [mapGet].
    + apply streq_true in E. subst k'.
      now rewrite (proj2 (streq_false k k0) Hne).
    + now rewrite IH.
Qed.

Lemma mapGet_mapDelete_same (k : jsstring) (m : HandlerMap Handler) :
  mapGet k (mapDelete k m) = None.
Proof.
  unfold mapDelete. induction m as [|[k' v'] m IH]; cbn [filter mapGet fst].
  - reflexivity.
  - destruct (streq k' k) eqn:E; cbn [negb mapGet]; [exact IH|].
    now rewrite E.
Qed.

Lemma mapGet_mapDelete_other (k k0 : jsstring) (m : HandlerMap Handler) :
  k <> k0 -> mapGet k0 (mapDelete k m) = mapGet k0 m.
Proof.
  intros Hne. unfold mapDelete.
  induction m as [|[k' v'] m IH]; cbn [filter mapGet fst]; [reflexivity|].
  destruct (streq k' k) eqn:E; cbn [negb mapGet].
  - apply streq_true in E. subst k'.
    now rewrite (proj2 (streq_false k k0) Hne).
  - now rewrite IH.
Qed.

Lemma mapGet_In (k : jsstring) (v : Handler) (m : HandlerMap Handler) :
  mapGet k m = Some v -> In (k, v) m.
Proof.
  induction m as [|[k' v'] m IH]; cbn [mapGet]; [discriminate|].
  destruct (streq k' k) eqn:E.
  - apply streq_true in E. intros [= ->]. left. now subst.
  - intros H. right. now apply IH.
Qed.

Lemma toLowerChar_idem (c : ascii) : toLowerChar (toLowerChar c) = toLowerChar c.
Proof. destruct c as [[] [] [] [] [] [] [] []]; reflexivity. Qed.

Lemma toLowerCase_idem (s : jsstring) : toLowerCase (toLowerCase s) = toLowerCase s.
Proof.
  unfold toLowerCase. rewrite map_map. apply map_ext. apply toLowerChar_idem.
Qed.

Lemma keyPart_lower (k : jsstring) : toLowerCase (keyPart k) = keyPart k.
Proof.
  unfold keyPart.
  repeat match goal with
         | |- context [if streq k ?x then _ else _] => destruct (streq k x); [reflexivity|]
         end.
  destruct (length k =? 1)%nat; apply toLowerCase_idem.
Qed.

(** The key string of an event is in lower case. *)
Lemma getKeyString_lower (e : KeyboardEvent) :
  toLowerCase (getKeyString e) = getKeyString e.
Proof.
  unfold getKeyString.
  destruct (ctrlKey e || metaKey e), (altKey e), (shiftKey e);
    cbn [app join]; unfold toLowerCase; rewrite ?map_app; fold toLowerCase;
    rewrite keyPart_lower; reflexivity.
Qed.

End HotkeyFacts.

(** X6. A handler registered under the key string of an event, written in
    any letter case, is the one called for that event while the manager is
    enabled; it replaces a handler registered before under that name. *)
Theorem hotkey_registered_is_dispatched {Handler : Type}
  (this : Hotkeys.HotkeyManager Handler) (e : Hotkeys.KeyboardEvent)
  (name : jsstring) (h : Handler) :
  Hotkeys.isEnabled this = true ->
  toLowerCase name = toLowerCase (Hotkeys.getKeyString e) ->
  Hotkeys.handleKeyDown (Hotkeys.register this name h) e = Some h /\
  forall h', Hotkeys.handleKeyDown
               (Hotkeys.register (Hotkeys.register this name h) name h') e = Some h'.
Proof.
  intros Hen Hname. rewrite getKeyString_lower in Hname.
  unfold Hotkeys.handleKeyDown, Hotkeys.register.
  cbn [Hotkeys.isEnabled Hotkeys.handlers]. rewrite Hen, Hname. cbn [negb].
  split; [apply mapGet_mapSet_same|]. intros h'. apply mapGet_mapSet_same.
Qed.

Lemma hotkey_registered_is_dispatched_witness :
  Hotkeys.isEnabled (Hotkeys.newHotkeyManager (Handler := jsstring)) = true /\
  toLowerCase (lit "Ctrl+Enter") = toLowerCase (Hotkeys.getKeyString ctrlEnterEvent) /\
  Hotkeys.handleKeyDown
    (Hotkeys.register Hotkeys.newHotkeyManager (lit "Ctrl+Enter") (lit "execute"))
    ctrlEnterEvent = Some (lit "execute").
Proof.
  split; [reflexivity|]. split; [reflexivity|].
  exact (proj1 (hotkey_registered_is_dispatched Hotkeys.newHotkeyManager
                  ctrlEnterEvent (lit "Ctrl+Enter") (lit "execute") eq_refl eq_refl)).
Defined.


(** X7. While the manager is disabled no handler is called, whatever is
    registered; the registrations are kept, those made while disabled
    included, and take effect again once it is enabled. *)
Theorem hotkey_disabled_dispatches_nothing {Handler : Type}
  (this : Hotkeys.HotkeyManager Handler) (e : Hotkeys.KeyboardEvent) :
  Hotkeys.handleKeyDown (Hotkeys.disable this) e = None /\
  (forall name h, Hotkeys.handleKeyDown
                    (Hotkeys.register (Hotkeys.disable this) name h) e = None) /\
  (forall name h,
     toLowerCase name = Hotkeys.getKeyString e ->
     Hotkeys.handleKeyDown
       (Hotkeys.enable (Hotkeys.register (Hotkeys.disable this) name h)) e = Some h) /\
  Hotkeys.handleKeyDown (Hotkeys.enable (Hotkeys.disable this)) e
    = Hotkeys.handleKeyDown (Hotkeys.enable this) e.
Proof.
  repeat split.
  intros name h Hname. unfold Hotkeys.handleKeyDown.
  cbn [Hotkeys.isEnabled Hotkeys.enable Hotkeys.handlers Hotkeys.register
       Hotkeys.disable negb].
  rewrite Hname. apply mapGet_mapSet_same.
Qed.

Lemma hotkey_disabled_dispatches_nothing_witness :
  toLowerCase (lit "CTRL+ENTER") = Hotkeys.getKeyString ctrlEnterEvent /\
  Hotkeys.handleKeyDown
    (Hotkeys.enable
       (Hotkeys.register (Hotkeys.disable queryBuilderHotkeys)
          (lit "CTRL+ENTER") (lit "run")))
    ctrlEnterEvent = Some (lit "run").
Proof.
  split; [reflexivity|].
  exact (proj1 (proj2 (proj2 (hotkey_disabled_dispatches_nothing
                                queryBuilderHotkeys ctrlEnterEvent)))
           (lit "CTRL+ENTER") (lit "run") eq_refl).
Defined.


(** X8. After [unregister] of a name, an event with that key string calls
    no handler; registering or unregistering a name leaves the handling of
    every event with another key string as it was. *)
Theorem hotkey_unregister_and_frame {Handler : Type}
  (this : Hotkeys.HotkeyManager Handler) (e : Hotkeys.KeyboardEvent)
  (name : jsstring) :
  (toLowerCase name = Hotkeys.getKeyString e ->
   Hotkeys.handleKeyDown (Hotkeys.unregister this name) e = None) /\
  (toLowerCase name <> Hotkeys.getKeyString e ->
   Hotkeys.handleKeyDown (Hotkeys.unregister this name) e
     = Hotkeys.handleKeyDown this e /\
   forall h, Hotkeys.handleKeyDown (Hotkeys.register this name h) e
               = Hotkeys.handleKeyDown this e).
Proof.
  unfold Hotkeys.handleKeyDown, Hotkeys.register, Hotkeys.unregister.
  cbn [Hotkeys.isEnabled Hotkeys.handlers].
  destruct (negb (Hotkeys.isEnabled this)); [repeat split|].
  split.
  - intros <-. apply mapGet_mapDelete_same.
  - intros Hne. split; [now apply mapGet_mapDelete_other|].
    intros h. now apply mapGet_mapSet_other.
Qed.

Lemma hotkey_unregister_and_frame_witness :
  toLowerCase (lit "Ctrl+Enter") = Hotkeys.getKeyString ctrlEnterEvent /\
  Hotkeys.handleKeyDown (Hotkeys.unregister queryBuilderHotkeys (lit "Ctrl+Enter"))
    ctrlEnterEvent = None /\
  toLowerCase (lit "ctrl+shift+f") <> Hotkeys.getKeyString ctrlEnterEvent /\
  Hotkeys.handleKeyDown (Hotkeys.unregister queryBuilderHotkeys (lit "ctrl+shift+f"))
    ctrlEnterEvent = Hotkeys.handleKeyDown queryBuilderHotkeys ctrlEnterEvent.
Proof.
  assert (Hne : toLowerCase (lit "ctrl+shift+f") <> Hotkeys.getKeyString ctrlEnterEvent)
    by discriminate.
  split; [reflexivity|].
  split; [exact (proj1 (hotkey_unregister_and_frame queryBuilderHotkeys
                          ctrlEnterEvent (lit "Ctrl+Enter")) eq_refl)|].
  split; [exact Hne|].
  exact (proj1 (proj2 (hotkey_unregister_and_frame queryBuilderHotkeys
                         ctrlEnterEvent (lit "ctrl+shift+f")) Hne)).
Defined.


(** X9. An event for the space bar, whose [key] is [" "], has a key
    string that ends in a space, which is none of the names of the default
    table: a manager whose handlers are registered under those names only
    (as [ctrl+space] for the autocompletion) calls none of them for it. *)
Theorem hotkey_space_bar_dispatches_nothing {Handler : Type}
  (this : Hotkeys.HotkeyManager Handler) (e : Hotkeys.KeyboardEvent) :
  Hotkeys.key e = lit " " ->
  (forall name h, In (name, h) (Hotkeys.handlers this) ->
                  In name Hotkeys.defaultHotkeyNames) ->
  Hotkeys.handleKeyDown this e = None.
Proof.
  intros Hkey Hnames. unfold Hotkeys.handleKeyDown.
  destruct (negb (Hotkeys.isEnabled this)); [reflexivity|].
  destruct (Hotkeys.mapGet (Hotkeys.getKeyString e) (Hotkeys.handlers this))
    as [h|] eqn:E; [|reflexivity].
  apply mapGet_In in E. apply Hnames in E. exfalso.
  unfold Hotkeys.getKeyString in E. rewrite Hkey in E.
  destruct (Hotkeys.ctrlKey e || Hotkeys.metaKey e), (Hotkeys.altKey e),
    (Hotkeys.shiftKey e);
    vm_compute in E; intuition discriminate.
Qed.

Lemma queryBuilderHotkeys_names (name h : jsstring) :
  In (name, h) (Hotkeys.handlers queryBuilderHotkeys) ->
  In name Hotkeys.defaultHotkeyNames.
Proof.
  intros H. vm_compute in H.
  destruct H as [H|[H|[H|[]]]]; injection H as <- _; vm_compute; tauto.
Defined.

Lemma hotkey_space_bar_dispatches_nothing_witness :
  Hotkeys.key ctrlSpaceEvent = lit " " /\
  (forall name h, In (name, h) (Hotkeys.handlers queryBuilderHotkeys) ->
                  In name Hotkeys.defaultHotkeyNames) /\
  Hotkeys.handleKeyDown queryBuilderHotkeys ctrlSpaceEvent = None.
Proof.
  split; [reflexivity|]. split; [exact queryBuilderHotkeys_names|].
  exact (hotkey_space_bar_dispatches_nothing queryBuilderHotkeys ctrlSpaceEvent
           eq_refl queryBuilderHotkeys_names).
Defined.


(* ================================================================== *)
(** * The migration manager *)
(* ================================================================== *)

Lemma StronglySorted_snoc {A : Type} (R : A -> A -> Prop) (l : list A) (x : A) :
  StronglySorted R l -> Forall (fun a => R a x) l -> StronglySorted R (l ++ [x]).
Proof.
  induction 1 as [|a l Hl IH Ha]; intros Hx; cbn [app].
  - repeat constructor.
  - inversion Hx as [|? ? Hax Hlx]; subst. constructor; [now apply IH|].
    apply Forall_app. split; [exact Ha | now constructor].
Qed.

Lemma createMigration_run (name0 up0 down0 : jsstring)
  (this : Migrations.MigrationManager) (w : World) :
  Migrations.createMigration name0 up0 down0 this w =
  (let m := {| Migrations.id := idAt (clock w) (ticks w) (random w (draws w));
               Migrations.name := name0; Migrations.up := up0;
               Migrations.down := down0;
               Migrations.timestamp := clock w (S (ticks w)) |} in
   (m, {| Migrations.migrations := Migrations.migrations this ++ [m] |},
    {| clock := clock w; ticks := S (S (ticks w)); random := random w;
       draws := S (draws w); host := host w; console := console w |})).
Proof. reflexivity. Qed.

Lemma createAll_invariant (scripts : list Migrations.Script) :
  forall (this : Migrations.MigrationManager) (w : World),
    Forall (Migrations.stamped (clock w) (ticks w)) (Migrations.migrations this) ->
    StronglySorted (Migrations.idBefore (clock w)) (Migrations.migrations this) ->
    exists this' w',
      Migrations.createAll scripts this w = (this', w') /\
      clock w' = clock w /\
      Forall (Migrations.stamped (clock w) (ticks w')) (Migrations.migrations this') /\
      StronglySorted (Migrations.idBefore (clock w)) (Migrations.migrations this') /\
      map Migrations.scriptOf (Migrations.migrations this')
        = map Migrations.scriptOf (Migrations.migrations this) ++ scripts.
Proof.
  induction scripts as [|sc scripts IH]; intros this w Hst Hso.
  - exists this, w. cbn [Migrations.createAll]. rewrite app_nil_r. auto.
  - cbn [Migrations.createAll]. rewrite createMigration_run. cbv zeta.
    set (m := {| Migrations.id := idAt (clock w) (ticks w) (random w (draws w));
                 Migrations.name := Migrations.scriptName sc |}).
    set (this1 := {| Migrations.migrations := Migrations.migrations this ++ [m] |}).
    set (w1 := {| clock := clock w; ticks := S (S (ticks w)) |}).
    assert (Hst1 : Forall (Migrations.stamped (clock w1) (ticks w1))
                     (Migrations.migrations this1)).
    { cbn [clock ticks w1 this1 Migrations.migrations]. apply Forall_app. split.
      - eapply Forall_impl; [|exact Hst]. intros a [j [r [Hj H]]].
        exists j, r. split; [lia | exact H].
      - constructor; [|constructor].
        exists (ticks w), (random w (draws w)). split; [lia|]. split; reflexivity. }
    assert (Hso1 : StronglySorted (Migrations.idBefore (clock w1))
                     (Migrations.migrations this1)).
    { cbn [clock w1 this1 Migrations.migrations].
      apply StronglySorted_snoc; [exact Hso|].
      eapply Forall_impl; [|exact Hst]. intros a [j [r [Hj [Hid _]]]].
      exists j, (ticks w), r, (random w (draws w)).
      split; [exact Hid|]. split; [reflexivity | lia]. }
    destruct (IH this1 w1 Hst1 Hso1) as [this' [w' [H1 [H2 [H3 [H4 H5]]]]]].
    exists this', w'. split; [exact H1|]. split; [exact H2|].
    split; [exact H3|]. split; [exact H4|].
    rewrite H5. cbn [this1 Migrations.migrations]. rewrite map_app, <- app_assoc.
    destruct sc; reflexivity.
Qed.

Lemma idBefore_NoDup (clk : nat -> Z) (l : list Migrations.Migration) :
  strictlyIncreasing clk -> StronglySorted (Migrations.idBefore clk) l ->
  NoDup (map Migrations.id l).
Proof.
  intros Hclk. induction 1 as [|x l _ IH Hx]; cbn [map]; constructor; [|exact IH].
  intros Hin. apply in_map_iff in Hin as [y [Hy Hin]].
  rewrite Forall_forall in Hx.
  destruct (Hx y Hin) as [i [j [ra [rb [Ha [Hb Hij]]]]]].
  rewrite Ha, Hb in Hy. apply idAt_clock in Hy.
  specialize (Hclk i j Hij). lia.
Qed.

Lemma find_by_unique_id (l : list Migrations.Migration) (m : Migrations.Migration) :
  NoDup (map Migrations.id l) -> In m l ->
  find (fun x => streq (Migrations.id x) (Migrations.id m)) l = Some m.
Proof.
  induction l as [|x l IH]; intros Hnd Hin; [destruct Hin|].
  cbn [map] in Hnd. apply NoDup_cons_iff in Hnd as [Hx Hnd].
  cbn [find]. destruct Hin as [->|Hin].
  - now rewrite streq_refl.
  - destruct (streq (Migrations.id x) (Migrations.id m)) eqn:E.
    + apply streq_true in E. elim Hx. rewrite E. now apply in_map.
    + now apply IH.
Qed.

(** X10. When the clock advances between any two readings, the manager
    filled by calls of [createMigration] from the empty one lists the
    migrations in the order of the calls, with the scripts given; their
    identifiers are pairwise distinct, whatever the random suffixes, so that
    [getById] with the identifier of a migration returns that migration; the
    [timestamp] of a migration is later than the time in its identifier; and
    [getById] returns [null] for an identifier that no migration has. *)
Theorem migrations_found_by_id (scripts : list Migrations.Script) (w0 : World) :
  strictlyIncreasing (clock w0) ->
  let (this, w) := Migrations.createAll scripts Migrations.newMigrationManager w0 in
  map Migrations.scriptOf (Migrations.getAll this) = scripts /\
  NoDup (map Migrations.id (Migrations.getAll this)) /\
  (forall m, In m (Migrations.getAll this) ->
     Migrations.getById this (Migrations.id m) = Some m /\
     exists t r, Migrations.id m = decimal t ++ lit "-" ++ r /\
                 t < Migrations.timestamp m) /\
  (forall id0, ~ In id0 (map Migrations.id (Migrations.getAll this)) ->
     Migrations.getById this id0 = None).
Proof.
  intros Hclk.
  destruct (createAll_invariant scripts Migrations.newMigrationManager w0)
    as [this [w [Hrun [_ [Hst [Hso Hsc]]]]]]; [constructor | constructor |].
  rewrite Hrun. unfold Migrations.getAll.
  pose proof (idBefore_NoDup _ _ Hclk Hso) as Hnd.
  split; [exact Hsc|]. split; [exact Hnd|]. split.
  - intros m Hm. split; [now apply find_by_unique_id|].
    rewrite Forall_forall in Hst. destruct (Hst m Hm) as [j [r [_ [Hid Hts]]]].
    exists (clock w0 j), r. split; [exact Hid|]. rewrite Hts. apply Hclk. lia.
  - intros id0 Hno. unfold Migrations.getById.
    destruct (find _ _) as [m|] eqn:E; [|reflexivity].
    apply find_some in E as [Hin Heq]. apply streq_true in Heq.
    elim Hno. rewrite <- Heq. now apply in_map.
Qed.

Lemma migrations_found_by_id_witness :
  strictlyIncreasing (clock sampleWorld) /\
  let (this, w) :=
    Migrations.createAll sampleScripts Migrations.newMigrationManager sampleWorld in
  map Migrations.scriptOf (Migrations.getAll this) = sampleScripts /\
  NoDup (map Migrations.id (Migrations.getAll this)) /\
  (forall m, In m (Migrations.getAll this) ->
     Migrations.getById this (Migrations.id m) = Some m /\
     exists t r, Migrations.id m = decimal t ++ lit "-" ++ r /\
                 t < Migrations.timestamp m) /\
  (forall id0, ~ In id0 (map Migrations.id (Migrations.getAll this)) ->
     Migrations.getById this id0 = None).
Proof.
  split; [exact sampleWorld_strictlyIncreasing|].
  exact (migrations_found_by_id sampleScripts sampleWorld
           sampleWorld_strictlyIncreasing).
Defined.

(** X11. [generateRollbackSQL] lists the rollback scripts from the newest
    migration to the oldest, and leaves the manager with its migrations in
    that reversed order: afterwards [getAll] and [generateMigrationSQL] go
    from the newest to the oldest too, and a second call of
    [generateRollbackSQL] lists the rollback scripts from the oldest to the
    newest and puts the manager back as it was. *)
Theorem generateRollbackSQL_reverses_in_place (this : Migrations.MigrationManager) :
  let (sql1, this1) := Migrations.generateRollbackSQL this in
  let (sql2, this2) := Migrations.generateRollbackSQL this1 in
  sql1 = join (Migrations.newline ++ Migrations.newline)
           (rev (map Migrations.rollbackBlock (Migrations.getAll this))) /\
  Migrations.getAll this1 = rev (Migrations.getAll this) /\
  Migrations.generateMigrationSQL this1
    = join (Migrations.newline ++ Migrations.newline)
        (rev (map Migrations.migrationBlock (Migrations.getAll this))) /\
  sql2 = join (Migrations.newline ++ Migrations.newline)
           (map Migrations.rollbackBlock (Migrations.getAll this)) /\
  this2 = this.
Proof.
  destruct this as [ms].
  unfold Migrations.generateRollbackSQL, Migrations.generateMigrationSQL,
    Migrations.getAll.
  cbn [Migrations.migrations]. rewrite !map_rev, !rev_involutive.
  repeat split.
Qed.

(* ================================================================== *)
(** * The pages of the data explorer *)
(* ================================================================== *)

Lemma firstn_add {A : Type} (a b : nat) (l : list A) :
  firstn (a + b) l = firstn a l ++ firstn b (skipn a l).
Proof.
  revert l. induction a as [|a IH]; intros l; [reflexivity|].
  destruct l as [|x l]; cbn [Nat.add firstn skipn app].
  - now rewrite firstn_nil.
  - now rewrite IH.
Qed.

(** For indexes [0 <= b <= e], [slice] takes [e - b] elements from
    position [b], as many as there are. *)
Lemma slice_nonneg {A : Type} (l : list A) (b e : Z) :
  0 <= b <= e ->
  DataExplorer.slice l b e = firstn (Z.to_nat (e - b)) (skipn (Z.to_nat b) l).
Proof.
  intros Hbe. unfold DataExplorer.slice.
  destruct (Z.ltb_spec b 0) as [?|_]; [lia|].
  destruct (Z.ltb_spec e 0) as [?|_]; [lia|].
  destruct (Z_le_gt_dec (Z.of_nat (length l)) b) as [Hlen|Hlen].
  - rewrite (skipn_all2 (n := Z.to_nat b)) by lia.
    rewrite (skipn_all2 (n := Z.to_nat (Z.min b _))) by lia.
    now rewrite !firstn_nil.
  - rewrite (Z.min_l b) by lia.
    destruct (Z_le_gt_dec (Z.of_nat (length l)) e) as [He|He].
    + rewrite (Z.min_r e) by lia.
      rewrite !firstn_all2; [reflexivity| |]; rewrite length_skipn; lia.
    + now rewrite (Z.min_l e) by lia.
Qed.

Lemma ceilDiv_bounds (n d : Z) :
  0 < d -> (DataExplorer.ceilDiv n d - 1) * d < n <= DataExplorer.ceilDiv n d * d.
Proof.
  intros Hd. unfold DataExplorer.ceilDiv.
  pose proof (Z.div_mod (- n) d ltac:(lia)) as E.
  pose proof (Z.mod_pos_bound (- n) d Hd) as B. nia.
Qed.

Lemma paginatedData_firstn {Row : Type} (data : list Row) (pageSize : Z) (p : nat) :
  0 < pageSize ->
  DataExplorer.paginatedData data pageSize (Z.of_nat (S p))
    = firstn (Z.to_nat pageSize) (skipn (p * Z.to_nat pageSize) data).
Proof.
  intros Hps. unfold DataExplorer.paginatedData, DataExplorer.endIndex,
    DataExplorer.startIndex.
  rewrite slice_nonneg by nia. f_equal; [f_equal; lia|]. f_equal. nia.
Qed.

Lemma pages_prefix {Row : Type} (data : list Row) (pageSize : Z) (n : nat) :
  0 < pageSize ->
  concat (map (fun p => DataExplorer.paginatedData data pageSize (Z.of_nat p))
              (seq 1 n))
    = firstn (n * Z.to_nat pageSize) data.
Proof.
  intros Hps. induction n as [|n IH]; [reflexivity|].
  rewrite seq_S, map_app, concat_app, IH. cbn [map concat Nat.add].
  rewrite app_nil_r, paginatedData_firstn by exact Hps.
  replace (S n * Z.to_nat pageSize)%nat
    with (n * Z.to_nat pageSize + Z.to_nat pageSize)%nat by lia.
  now rewrite firstn_add.
Qed.

(** X12. For a positive page size, the pages [1 .. totalPages] put one
    after the other are the rows, each once and in order; a page in that
    range is not empty and holds the rows that the line [Showing a to b]
    announces, [pageSize] of them unless it is the last page; a page beyond
    [totalPages] is empty. *)
Theorem pages_partition_rows {Row : Type} (data : list Row) (pageSize : Z) :
  0 < pageSize ->
  concat (DataExplorer.allPages data pageSize) = data /\
  (forall page, 1 <= page <= DataExplorer.totalPages data pageSize ->
     let rows := DataExplorer.paginatedData data pageSize page in
     rows <> [] /\
     Z.of_nat (length rows)
       = DataExplorer.shownTo data pageSize page
         - DataExplorer.shownFrom pageSize page + 1 /\
     (page < DataExplorer.totalPages data pageSize ->
      Z.of_nat (length rows) = pageSize) /\
     Z.of_nat (length rows) <= pageSize) /\
  (forall page, DataExplorer.totalPages data pageSize < page ->
     DataExplorer.paginatedData data pageSize page = []).
Proof.
  intros Hps.
  pose proof (ceilDiv_bounds (Z.of_nat (length data)) pageSize Hps) as Hb.
  fold (DataExplorer.totalPages data pageSize) in Hb.
  set (tp := DataExplorer.totalPages data pageSize) in *.
  split; [|split].
  - unfold DataExplorer.allPages. fold tp. rewrite pages_prefix by exact Hps.
    apply firstn_all2. nia.
  - intros page Hpage rows.
    assert (Hlen : Z.of_nat (length rows)
                   = Z.min (page * pageSize) (Z.of_nat (length data))
                     - (page - 1) * pageSize).
    { unfold rows, DataExplorer.paginatedData, DataExplorer.endIndex,
        DataExplorer.startIndex.
      rewrite slice_nonneg by nia. rewrite length_firstn, length_skipn. nia. }
    unfold DataExplorer.shownTo, DataExplorer.shownFrom, DataExplorer.endIndex,
      DataExplorer.startIndex.
    split; [|split; [|split]].
    + intros E. rewrite E in Hlen. cbn [length] in Hlen. nia.
    + nia.
    + intros Hlt. nia.
    + nia.
  - intros page Hpage.
    unfold DataExplorer.paginatedData, DataExplorer.endIndex, DataExplorer.startIndex.
    assert (0 <= tp) by nia.
    rewrite slice_nonneg by nia. rewrite skipn_all2; [apply firstn_nil|]. nia.
Qed.

Lemma pages_partition_rows_witness :
  0 < 2 /\
  concat (DataExplorer.allPages [1; 2; 3; 4; 5]%nat 2) = [1; 2; 3; 4; 5]%nat /\
  DataExplorer.allPages [1; 2; 3; 4; 5]%nat 2 = [[1; 2]; [3; 4]; [5]]%nat.
Proof.
  split; [lia|].
  split; [exact (proj1 (pages_partition_rows [1; 2; 3; 4; 5]%nat 2 eq_refl))
         | reflexivity].
Defined.

(** X13. For a current page in [1 .. totalPages], the page buttons show
    [min 5 totalPages] consecutive page numbers, all in [1 .. totalPages],
    the current page among them. *)
Theorem pageButtons_window (totalPages currentPage : Z) :
  1 <= currentPage <= totalPages ->
  exists first,
    DataExplorer.pageButtons totalPages currentPage
      = map (fun i => first + Z.of_nat i) (seq 0 (Z.to_nat (Z.min 5 totalPages))) /\
    1 <= first /\
    first + Z.min 5 totalPages - 1 <= totalPages /\
    first <= currentPage < first + Z.min 5 totalPages /\
    In currentPage (DataExplorer.pageButtons totalPages currentPage).
Proof.
  intros Hcp.
  set (first := DataExplorer.pageNum totalPages currentPage 0).
  assert (Hnum : forall i, DataExplorer.pageNum totalPages currentPage i = first + i).
  { intros i. unfold first, DataExplorer.pageNum.
    destruct (totalPages <=? 5); [lia|].
    destruct (currentPage <=? 3); [lia|].
    destruct (currentPage >=? totalPages - 2); lia. }
  assert (Hfirst : 1 <= first /\ first + Z.min 5 totalPages - 1 <= totalPages /\
                   first <= currentPage < first + Z.min 5 totalPages).
  { unfold first, DataExplorer.pageNum.
    destruct (Z.leb_spec totalPages 5); [lia|].
    destruct (Z.leb_spec currentPage 3); [lia|].
    destruct (Z.geb_spec currentPage (totalPages - 2)); lia. }
  assert (Hlist : DataExplorer.pageButtons totalPages currentPage
                  = map (fun i => first + Z.of_nat i)
                        (seq 0 (Z.to_nat (Z.min 5 totalPages)))).
  { unfold DataExplorer.pageButtons. apply map_ext. intros i. apply Hnum. }
  exists first. split; [exact Hlist|].
  destruct Hfirst as [H1 [H2 H3]]. repeat split; try lia.
  rewrite Hlist. apply in_map_iff. exists (Z.to_nat (currentPage - first)).
  split; [lia|]. apply in_seq. lia.
Qed.

Lemma pageButtons_window_witness :
  1 <= 7 <= 20 /\ DataExplorer.pageButtons 20 7 = [5; 6; 7; 8; 9] /\
  In 7 (DataExplorer.pageButtons 20 7).
Proof.
  split; [lia|]. split; [reflexivity|].
  destruct (pageButtons_window 20 7 ltac:(lia)) as [first [_ [_ [_ [_ H]]]]].
  exact H.
Defined.

(* ================================================================== *)
(** * The search box of the history panel *)
(* ================================================================== *)

Lemma filteredHistory_run (l : list Entry) (searchQuery : jsstring) :
  queriesAreStrings l ->
  filteredHistory l searchQuery
  = Normal (match trim searchQuery with
            | [] => l
            | _ :: _ => filter (containsQuery (toLowerCase searchQuery)) l
            end).
Proof.
  intros Hl. unfold filteredHistory. destruct (trim searchQuery); [reflexivity|].
  cbv zeta. induction l as [|h l IH]; [reflexivity|].
  cbn [filterThrowing filter]. unfold containsQuery at 1.
  destruct (queryOf h) as [q|] eqn:Eq; [|now elim (Hl h (or_introl eq_refl))].
  rewrite IH by (intros x Hx; apply Hl; now right). reflexivity.
Qed.

Lemma filteredHistory_throws (l : list Entry) (searchQuery : jsstring) :
  trim searchQuery <> [] ->
  (exists h, In h l /\ queryOf h = None) ->
  filteredHistory l searchQuery = Throw TypeError.
Proof.
  intros Ht [h [Hin Hq]]. unfold filteredHistory.
  destruct (trim searchQuery); [congruence|]. cbv zeta.
  induction l as [|x l IH]; [destruct Hin|].
  cbn [filterThrowing]. destruct (queryOf x) as [q|] eqn:Eq; [|reflexivity].
  destruct Hin as [->|Hin]; [congruence|]. now rewrite (IH Hin).
Qed.

(** X14. On a log in which the [query] of every entry is a string, the
    search box of the history panel shows what [search] of the manager
    returns for the same text, except for a text of white space only: then
    the panel shows the whole list, of which the result of [search] is a
    part.  With a blank text the panel shows the whole list whatever the log
    holds; with another text it throws a [TypeError] on a log that holds an
    entry without a string under [query]. *)
Theorem filteredHistory_agrees_with_search (searchQuery : jsstring) (s : State) :
  (queriesAreStrings (history (self s)) ->
   exists found shown,
     search searchQuery s = (Normal found, s) /\
     filteredHistory (history (self s)) searchQuery = Normal shown /\
     Subsequence found shown /\
     (trim searchQuery <> [] \/ searchQuery = [] -> shown = found) /\
     (trim searchQuery = [] -> shown = history (self s))) /\
  (trim searchQuery = [] ->
   filteredHistory (history (self s)) searchQuery = Normal (history (self s))) /\
  (trim searchQuery <> [] ->
   (exists h, In h (history (self s)) /\ queryOf h = None) ->
   filteredHistory (history (self s)) searchQuery = Throw TypeError).
Proof.
  split; [|split].
  - intros Hq. do 2 eexists. split; [now apply search_run|].
    split; [now apply filteredHistory_run|].
    destruct (trim searchQuery) as [|c t] eqn:Ht.
    + split; [apply filter_Subsequence|]. split; [|reflexivity].
      intros [H| ->]; [congruence|]. symmetry.
      apply forallb_filter_id. apply forallb_forall. intros h Hh.
      unfold containsQuery. destruct (queryOf h) as [q|] eqn:E; [|now elim (Hq h Hh)].
      cbn [toLowerCase map]. apply includes_spec. exists [], (toLowerCase q).
      reflexivity.
    + split; [|split; [reflexivity | discriminate]].
      induction (filter _ _); now constructor.
  - intros Ht. unfold filteredHistory. now rewrite Ht.
  - apply filteredHistory_throws.
Qed.

Lemma filteredHistory_agrees_with_search_witness :
  queriesAreStrings (history (self sampleLog)) /\
  (trim (lit " select 2") <> [] \/ lit " select 2" = []) /\
  exists found,
    search (lit " select 2") sampleLog = (Normal found, sampleLog) /\
    filteredHistory (history (self sampleLog)) (lit " select 2") = Normal found.
Proof.
  assert (H0 : trim (lit " select 2") <> [] \/ lit " select 2" = [])
    by (left; discriminate).
  split; [exact sampleLog_queriesAreStrings|]. split; [exact H0|].
  destruct (proj1 (filteredHistory_agrees_with_search (lit " select 2") sampleLog)
              sampleLog_queriesAreStrings)
    as [found [shown [Hrun [Hshown [_ [H _]]]]]].
  exists found. split; [exact Hrun|]. now rewrite <- (H H0).
Defined.

(* ================================================================== *)
(** * The newest entries *)
(* ================================================================== *)

Lemma newestFirst_split (l : list Entry) (n : nat) :
  newestFirst l ->
  forall a b, In (Item a) (firstn n l) -> In (Item b) (skipn n l) ->
              timestamp b <= timestamp a.
Proof.
  intros [_ Hnf]. revert n. induction Hnf as [|x l Hl IH Hx]; intros n a b Ha Hb.
  - rewrite firstn_nil in Ha. destruct Ha.
  - destruct n as [|n]; [destruct Ha|]. cbn [firstn skipn] in Ha, Hb.
    destruct Ha as [->|Ha].
    + rewrite Forall_forall in Hx.
      apply (Hx (Item b)).
      rewrite <- (firstn_skipn n l). apply in_or_app. now right.
    + now apply (IH n).
Qed.

(** X15. In a log filled by calls of [add] from the empty log, with a
    clock that never goes back, [getRecent] with a limit that is not negative
    returns the first [limit] entries, all of them when there are fewer, and
    changes nothing; no entry left out is newer than an entry returned. *)
Theorem getRecent_returns_newest (calls : list AddCall) (s0 : State) (limit : Z) :
  history (self s0) = [] ->
  0 <= maxHistorySize (self s0) ->
  monotone (clock (world s0)) ->
  0 <= limit ->
  exists s recent older,
    addAll calls s0 = (Normal tt, s) /\
    getRecent limit s = (Normal recent, s) /\
    history (self s) = recent ++ older /\
    Z.of_nat (length recent) = Z.min limit (Z.of_nat (length (history (self s)))) /\
    Forall isItem (history (self s)) /\
    forall a b, In (Item a) recent -> In (Item b) older -> timestamp b <= timestamp a.
Proof.
  intros Hempty Hmax Hmono Hlimit.
  destruct (addAll_invariant calls s0 Hmax) as [s [Hrun [_ [_ [_ Hinv]]]]].
  { rewrite Hempty. cbn [length]. lia. }
  destruct Hinv as [_ Hnf]; [exact Hmono | | |].
  { intros h Hh. rewrite Hempty in Hh. destruct Hh. }
  { rewrite Hempty. split; constructor. }
  exists s, (firstn (Z.to_nat limit) (history (self s))),
    (skipn (Z.to_nat limit) (history (self s))).
  split; [exact Hrun|]. split.
  { unfold getRecent, bind, getHistory, ret, slice0.
    destruct (Z.ltb_spec limit 0); [lia | reflexivity]. }
  split; [symmetry; apply firstn_skipn|]. split.
  { rewrite length_firstn. lia. }
  split; [exact (proj1 Hnf)|].
  apply newestFirst_split. exact Hnf.
Qed.

Lemma getRecent_returns_newest_witness :
  let calls := [sampleCall "SELECT 1"; sampleCall "SELECT 2"; sampleCall "SELECT 3"] in
  history (self (sampleState 10)) = [] /\
  0 <= maxHistorySize (self (sampleState 10)) /\
  monotone (clock (world (sampleState 10))) /\
  0 <= 2 /\
  exists s recent older,
    addAll calls (sampleState 10) = (Normal tt, s) /\
    getRecent 2 s = (Normal recent, s) /\
    history (self s) = recent ++ older /\
    forall a b, In (Item a) recent -> In (Item b) older -> timestamp b <= timestamp a.
Proof.
  intros calls. split; [reflexivity|]. split; [cbn; lia|].
  split; [exact sampleWorld_monotone|]. split; [lia|].
  destruct (getRecent_returns_newest calls (sampleState 10) 2 eq_refl
              ltac:(cbn; lia) sampleWorld_monotone ltac:(lia))
    as [s [recent [older [H1 [H2 [H3 [_ [_ H5]]]]]]]].
  exists s, recent, older. auto.
Defined.


(* ================================================================== *)
(** * The filter of the data explorer *)
(* ================================================================== *)

Lemma toLowerCase_nil (s : jsstring) : toLowerCase s = [] -> s = [].
Proof. destruct s; [reflexivity | discriminate]. Qed.

Lemma trim_nil : trim [] = [].
Proof. reflexivity. Qed.

(** X16. With a filter text that is not blank, the data explorer keeps,
    in order, exactly the rows with a cell whose text contains the filter
    text, the case of the letters ignored; [null], the number 0 and the
    empty string count as the empty text, so that a row made of such cells
    only is never kept. With a blank filter text every row is kept. *)
Theorem filterRows_keeps_matching_rows (numberToString : Q -> jsstring)
  (data : list (list SqlValue)) (filterText : jsstring) :
  (trim filterText = [] -> RowFilter.filterRows numberToString data filterText = data) /\
  (trim filterText <> [] ->
   Subsequence (RowFilter.filterRows numberToString data filterText) data /\
   (forall row,
      In row (RowFilter.filterRows numberToString data filterText) <->
      In row data /\
      exists cell, In cell row /\
        ContainsIgnoringCase (RowFilter.cellText numberToString cell) filterText) /\
   (forall row, Forall RowFilter.falsy row ->
      ~ In row (RowFilter.filterRows numberToString data filterText))).
Proof.
  unfold RowFilter.filterRows. destruct (trim filterText) as [|c t] eqn:Ht.
  - split; [reflexivity | congruence].
  - split; [discriminate|]. intros _.
    assert (Hiff : forall row,
      In row (filter (fun row =>
                existsb (fun cell =>
                   includes (toLowerCase (RowFilter.cellText numberToString cell))
                            (toLowerCase filterText)) row) data) <->
      In row data /\
      exists cell, In cell row /\
        ContainsIgnoringCase (RowFilter.cellText numberToString cell) filterText).
    { intros row. rewrite filter_In, existsb_exists.
      split; intros [Hin [cell [Hc H]]]; (split; [exact Hin|]); exists cell;
        (split; [exact Hc|]); now apply includes_spec. }
    split; [apply filter_Subsequence|]. split; [exact Hiff|].
    intros row Hfalsy Hin. apply Hiff in Hin as [_ [cell [Hc [pre [post H]]]]].
    rewrite Forall_forall in Hfalsy. specialize (Hfalsy cell Hc).
    assert (Hempty : RowFilter.cellText numberToString cell = []).
    { destruct cell as [|q|s0]; cbn [RowFilter.cellText RowFilter.falsy] in *.
      - reflexivity.
      - apply Qeq_bool_iff in Hfalsy. now rewrite Hfalsy.
      - exact Hfalsy. }
    rewrite Hempty in H. cbn [toLowerCase map] in H. symmetry in H.
    apply app_eq_nil in H as [_ H]. apply app_eq_nil in H as [H _].
    apply toLowerCase_nil in H. subst filterText. discriminate.
Qed.

Lemma filterRows_keeps_matching_rows_witness :
  trim (lit "0") <> [] /\
  Forall RowFilter.falsy [SqlNumber 0; SqlNull] /\
  ~ In [SqlNumber 0; SqlNull]
       (RowFilter.filterRows sampleNumberToString sampleRows (lit "0")) /\
  RowFilter.filterRows sampleNumberToString sampleRows (lit "0")
    = [[SqlText (lit "0"); SqlNull]].
Proof.
  assert (H0 : trim (lit "0") <> []) by discriminate.
  assert (Hf : Forall RowFilter.falsy [SqlNumber 0; SqlNull]).
  { constructor; [reflexivity|]. constructor; [exact I | constructor]. }
  split; [exact H0|]. split; [exact Hf|]. split; [|reflexivity].
  exact (proj2 (proj2 (proj2 (filterRows_keeps_matching_rows sampleNumberToString
                                sampleRows (lit "0")) H0))
           [SqlNumber 0; SqlNull] Hf).
Defined.


(* ================================================================== *)
(** * The values of the SQL export *)
(* ================================================================== *)

Lemma readStringBody_doubleQuotes (s rest : jsstring) :
  (forall r, rest <> "'"%char :: r) ->
  SqlExport.readStringBody (SqlExport.doubleQuotes s ++ "'"%char :: rest)
    = Some (s, rest).
Proof.
  intros Hrest. induction s as [|c s IH].
  - cbn. destruct rest as [|c2 r]; [reflexivity|].
    destruct (Ascii.eqb c2 "'") eqn:E; [|reflexivity].
    apply Ascii.eqb_eq in E. subst c2. now elim (Hrest r).
  - unfold SqlExport.doubleQuotes. cbn [flat_map].
    fold (SqlExport.doubleQuotes s).
    destruct (Ascii.eqb c "'") eqn:E.
    + apply Ascii.eqb_eq in E. subst c. cbn [app SqlExport.readStringBody].
      cbn [Ascii.eqb Bool.eqb andb]. now rewrite IH.
    + cbn [app SqlExport.readStringBody]. now rewrite E, IH.
Qed.

(** X17. A text value is exported between quotes with each of its quotes
    doubled: read as an SQL string literal, followed by anything that does
    not begin with a quote, it gives back the text and stops at its closing
    quote. Different texts have different literals, and no text has the
    literal of [null]. *)
Theorem sql_text_literal_round_trip (numberToString : Q -> jsstring)
  (s rest : jsstring) :
  (forall r, rest <> "'"%char :: r) ->
  SqlExport.readStringLiteral (SqlExport.sqlValue numberToString (SqlText s) ++ rest)
    = Some (s, rest) /\
  (forall s', SqlExport.sqlValue numberToString (SqlText s)
              = SqlExport.sqlValue numberToString (SqlText s') -> s = s') /\
  SqlExport.sqlValue numberToString (SqlText s)
    <> SqlExport.sqlValue numberToString SqlNull /\
  forall tableName row, exists tail,
    SqlExport.insertStatement numberToString tableName (SqlText s :: row)
      = lit "INSERT INTO " ++ tableName ++ lit " VALUES ("
        ++ SqlExport.sqlValue numberToString (SqlText s) ++ tail /\
    SqlExport.readStringLiteral (SqlExport.sqlValue numberToString (SqlText s) ++ tail)
      = Some (s, tail).
Proof.
  intros Hrest.
  assert (Hread : forall t r, (forall r', r <> "'"%char :: r') ->
    SqlExport.readStringLiteral (SqlExport.sqlValue numberToString (SqlText t) ++ r)
      = Some (t, r)).
  { intros t r Hr. cbn [SqlExport.sqlValue lit list_ascii_of_string app].
    cbn [SqlExport.readStringLiteral Ascii.eqb Bool.eqb andb].
    rewrite <- app_assoc. cbn [app]. now apply readStringBody_doubleQuotes. }
  split; [now apply Hread|]. split; [|split].
  - intros s' E.
    pose proof (Hread s [] ltac:(discriminate)) as H1.
    pose proof (Hread s' [] ltac:(discriminate)) as H2.
    rewrite E, H2 in H1. congruence.
  - cbn. discriminate.
  - intros tableName row. unfold SqlExport.insertStatement. cbn [map join].
    destruct (map (SqlExport.sqlValue numberToString) row) as [|v vs].
    + exists (lit ");"). split; [reflexivity|]. apply Hread. discriminate.
    + exists (lit ", " ++ join (lit ", ") (v :: vs) ++ lit ");").
      split; [now rewrite <- !app_assoc|]. apply Hread. discriminate.
Qed.

Lemma sql_text_literal_round_trip_witness :
  (forall r, lit ", 1);" <> "'"%char :: r) /\
  SqlExport.sqlValue sampleNumberToString (SqlText (lit "O'Brien")) = lit "'O''Brien'" /\
  SqlExport.readStringLiteral (lit "'O''Brien'" ++ lit ", 1);")
    = Some (lit "O'Brien", lit ", 1);").
Proof.
  assert (H0 : forall r, lit ", 1);" <> "'"%char :: r) by discriminate.
  split; [exact H0|]. split; [reflexivity|].
  exact (proj1 (sql_text_literal_round_trip sampleNumberToString (lit "O'Brien")
                  (lit ", 1);") H0)).
Defined.


(* ================================================================== *)
(** * What the suggestions depend on *)
(* ================================================================== *)

Lemma toUpperChar_lower (c : ascii) : toUpperChar (toLowerChar c) = toUpperChar c.
Proof. destruct c as [[] [] [] [] [] [] [] []]; reflexivity. Qed.

Lemma toUpperCase_lower (s : jsstring) : toUpperCase (toLowerCase s) = toUpperCase s.
Proof.
  unfold toUpperCase, toLowerCase. rewrite map_map. apply map_ext.
  apply toUpperChar_lower.
Qed.

Lemma CurrentWord_upper (before w : jsstring) :
  CurrentWord before w -> CurrentWord (toUpperCase before) (toUpperCase w).
Proof.
  intros [pre [Hb [Hw Hpre]]]. exists (toUpperCase pre).
  split; [now rewrite Hb, toUpperCase_app|].
  split; [rewrite forallb_toUpperCase; [exact Hw | apply isWordChar_upper]|].
  intros pre' c E. unfold toUpperCase in E.
  destruct (rev pre) as [|c0 rp] eqn:Er.
  - apply (f_equal (@rev ascii)) in Er. rewrite rev_involutive in Er. subst pre.
    destruct pre'; discriminate.
  - apply (f_equal (@rev ascii)) in Er. rewrite rev_involutive in Er.
    cbn [rev] in Er. subst pre. rewrite map_app in E. cbn [map] in E.
    apply app_inj_tail in E as [_ <-]. rewrite isWordChar_upper.
    now apply (Hpre (rev rp) c0).
Qed.

Lemma currentWordOf_upper (before : jsstring) :
  currentWordOf (toUpperCase before) = currentWordOf before.
Proof.
  rewrite (CurrentWord_currentWordOf (toUpperCase before)
             (toUpperCase (rawWord before))).
  - apply toUpperCase_idem.
  - apply CurrentWord_upper, rawWord_is_CurrentWord.
Qed.

Lemma getContext_upper (before : jsstring) :
  getContext (toUpperCase before) = getContext before.
Proof. unfold getContext. now rewrite toUpperCase_idem. Qed.

Lemma getRelevantColumns_upper (this : SQLAutocomplete) (before : jsstring) :
  getRelevantColumns this (toUpperCase before) = getRelevantColumns this before.
Proof. unfold getRelevantColumns. now rewrite toUpperCase_idem. Qed.

(** The suggestions for the text [before] in front of the cursor are those
    for that text in upper case. *)
Lemma groups_upper (this : SQLAutocomplete) (before : jsstring) :
  tableGroup this (toUpperCase before) ++ columnGroup this (toUpperCase before)
    ++ keywordGroup this (toUpperCase before)
  = tableGroup this before ++ columnGroup this before ++ keywordGroup this before.
Proof.
  unfold tableGroup, columnGroup, keywordGroup, columnCandidates.
  now rewrite currentWordOf_upper, getContext_upper, getRelevantColumns_upper.
Qed.

(** X18. The suggestions depend on the text in front of the cursor only,
    and not on the case of its letters: two texts that agree up to the
    cursor, the case of the letters ignored, get the same suggestions. So
    typing in lower case or in upper case makes no difference, and neither
    does the text behind the cursor. *)
Theorem getSuggestions_ignores_case_and_rest (this : SQLAutocomplete)
  (q q' : jsstring) (p : Z) :
  toUpperCase (substring0 q p) = toUpperCase (substring0 q' p) ->
  getSuggestions this q p = getSuggestions this q' p /\
  getSuggestions this (toUpperCase q) p = getSuggestions this q p /\
  getSuggestions this (toLowerCase q) p = getSuggestions this q p /\
  forall rest,
    getSuggestions this (substring0 q p ++ rest) (Z.of_nat (length (substring0 q p)))
      = getSuggestions this q p.
Proof.
  assert (Hdep : forall a b n m,
            toUpperCase (substring0 a n) = toUpperCase (substring0 b m) ->
            getSuggestions this a n = getSuggestions this b m).
  { intros a b n m E. rewrite !getSuggestions_groups.
    rewrite <- (groups_upper this (substring0 a n)), E. apply groups_upper. }
  intros E. split; [now apply Hdep|]. split; [|split].
  - apply Hdep. unfold substring0. now rewrite <- toUpperCase_firstn, toUpperCase_idem.
  - apply Hdep. unfold substring0.
    now rewrite !toUpperCase_firstn, toUpperCase_lower.
  - intros rest. apply Hdep. f_equal. unfold substring0 at 1. rewrite Nat2Z.id.
    now rewrite firstn_app, Nat.sub_diag, firstn_all, app_nil_r.
Qed.

Lemma getSuggestions_ignores_case_and_rest_witness :
  toUpperCase (substring0 (lit "select * from us WHERE") 16)
    = toUpperCase (substring0 (lit "SELECT * FROM US") 16) /\
  getSuggestions usersEngine (lit "select * from us WHERE") 16
    = getSuggestions usersEngine (lit "SELECT * FROM US") 16.
Proof.
  split; [reflexivity|].
  exact (proj1 (getSuggestions_ignores_case_and_rest usersEngine
                  (lit "select * from us WHERE") (lit "SELECT * FROM US") 16 eq_refl)).
Defined.

Lemma getContext_nil : getContext [] = {| afterSelect := false; afterFrom := false;
                                          afterJoin := false; afterWhere := false;
                                          afterOn := false |}.
Proof. vm_compute. reflexivity. Qed.

Lemma keywordCandidates_nil (this : SQLAutocomplete) :
  keywordCandidates this [] = map (fun kw => {| label := kw; type := keyword |})
                                  (keywords this).
Proof.
  unfold keywordCandidates. f_equal. apply forallb_filter_id.
  apply forallb_forall. intros kw _. apply startsWith_nil.
Qed.

(** X19. With the cursor at the start of the text, or in front of it, and
    so for the empty text, the suggestions are the whole vocabulary, as
    keywords and in its order, whatever the schema. Without a schema the
    suggestions are keywords at every position. *)
Theorem getSuggestions_keywords_only (this : SQLAutocomplete) (q : jsstring) (p : Z) :
  (p <= 0 ->
   getSuggestions this q p
     = map (fun kw => {| label := kw; type := keyword |}) (keywords this)) /\
  (schema this = None ->
   getSuggestions this q p = keywordCandidates this (currentWordOf (substring0 q p)) /\
   forall x, In x (getSuggestions this q p) -> type x = keyword).
Proof.
  rewrite getSuggestions_groups. split.
  - intros Hp. unfold substring0. replace (Z.to_nat p) with 0%nat by lia.
    cbn [firstn]. unfold tableGroup, columnGroup, keywordGroup.
    rewrite getContext_nil. cbn [shouldSuggestTables shouldSuggestColumns afterFrom
      afterJoin afterSelect afterWhere afterOn orb app].
    change (currentWordOf []) with (@nil ascii). apply keywordCandidates_nil.
  - intros Hs. generalize (substring0 q p). intros b.
    assert (Ht : tableGroup this b = []).
    { unfold tableGroup, tableCandidates, tableNames. rewrite Hs.
      now destruct (shouldSuggestTables _). }
    assert (Hc : columnGroup this b = []).
    { unfold columnGroup, columnCandidates, getRelevantColumns. rewrite Hs.
      now destruct (shouldSuggestColumns _). }
    rewrite Ht, Hc. cbn [app]. split; [reflexivity|].
    intros x. apply type_keywordGroup.
Qed.

Lemma getSuggestions_keywords_only_witness :
  0 <= 0 /\
  getSuggestions usersEngine (lit "SELECT * FROM users") 0
    = map (fun kw => {| label := kw; type := keyword |}) (keywords usersEngine) /\
  schema newSQLAutocomplete = None /\
  forall x, In x (getSuggestions newSQLAutocomplete (lit "SELECT * FROM ") 14) ->
            type x = keyword.
Proof.
  split; [lia|].
  split; [exact (proj1 (getSuggestions_keywords_only usersEngine
                          (lit "SELECT * FROM users") 0) ltac:(lia))|].
  split; [reflexivity|].
  exact (proj2 (proj2 (getSuggestions_keywords_only newSQLAutocomplete
                         (lit "SELECT * FROM ") 14) eq_refl)).
Defined.

(* ================================================================== *)
(** * A maximum that is not positive *)
(* ================================================================== *)

Lemma addedHistory_nothing (s : State) (c : AddCall) :
  history (self s) = [] -> maxHistorySize (self s) <= 0 -> addedHistory s c = [].
Proof.
  intros He Hm. unfold addedHistory, keptOnAdd. rewrite He. cbn [dedup fst].
  unfold truncate, slice0. cbn [length].
  destruct (Z.gtb_spec (Z.of_nat 1) (maxHistorySize (self s))); [|lia].
  destruct (Z.ltb_spec (maxHistorySize (self s)) 0).
  - replace (Z.to_nat (Z.of_nat 1 + maxHistorySize (self s))) with 0%nat by lia.
    reflexivity.
  - replace (Z.to_nat (maxHistorySize (self s))) with 0%nat by lia. reflexivity.
Qed.

(** X20. A manager whose maximum is zero or negative records nothing:
    starting from the empty log, the log is empty after any sequence of calls
    of [add], each of which returns normally; and what such a call writes to
    a working storage is the empty list. *)
Theorem nonpositive_maximum_records_nothing (calls : list AddCall) (s0 : State) :
  history (self s0) = [] ->
  maxHistorySize (self s0) <= 0 ->
  exists s,
    addAll calls s0 = (Normal tt, s) /\
    history (self s) = [] /\
    maxHistorySize (self s) = maxHistorySize (self s0) /\
    forall ls c,
      host (world s) = Browser ls -> setItemThrows ls = false ->
      exists s',
        addCall c s = (Normal tt, s') /\
        history (self s') = [] /\
        exists ls', host (world s') = Browser ls' /\
                    stored ls' (storageKey (self s)) = Some (JSON_stringify []).
Proof.
  revert s0. induction calls as [|c calls IH]; intros s0 He Hm.
  - exists s0. split; [reflexivity|]. split; [exact He|]. split; [reflexivity|].
    intros ls c Hhost Hset. rewrite addCall_run. eexists. split; [reflexivity|].
    cbn [self world history withHistory].
    rewrite (addedHistory_nothing s0 c He Hm). split; [reflexivity|].
    unfold addedWorld. rewrite (addedHistory_nothing s0 c He Hm).
    unfold savedWorld. cbn [host setDraws setTicks]. rewrite Hhost, Hset.
    cbn [host setHost]. eexists. split; [reflexivity|].
    cbn [stored putItem]. now rewrite streq_refl.
  - cbn [addAll]. unfold bind. rewrite addCall_run.
    set (s1 := {| self := withHistory (self s0) (addedHistory s0 c);
                  world := addedWorld s0 c |}).
    destruct (IH s1) as [s [H1 [H2 [H3 H4]]]].
    + cbn [s1 self history withHistory]. now apply addedHistory_nothing.
    + exact Hm.
    + exists s. split; [exact H1|]. split; [exact H2|]. split; [exact H3 | exact H4].
Qed.

Lemma nonpositive_maximum_records_nothing_witness :
  history (self (sampleState (-3))) = [] /\
  maxHistorySize (self (sampleState (-3))) <= 0 /\
  exists s,
    addAll [sampleCall "SELECT 1"; sampleCall "SELECT 2"] (sampleState (-3))
      = (Normal tt, s) /\
    history (self s) = [].
Proof.
  split; [reflexivity|]. split; [cbn; lia|].
  destruct (nonpositive_maximum_records_nothing
              [sampleCall "SELECT 1"; sampleCall "SELECT 2"] (sampleState (-3))
              eq_refl ltac:(cbn; lia)) as [s [H1 [H2 _]]].
  exists s. split; [exact H1 | exact H2].
Defined.

(* ================================================================== *)
(** * The indexes of a table *)
(* ================================================================== *)

Lemma matchParenthesised_skip (pre s : jsstring) :
  forallb (fun c => negb (Ascii.eqb c "(")) pre = true ->
  Indexes.matchParenthesised (pre ++ s) = Indexes.matchParenthesised s.
Proof.
  induction pre as [|c pre IH]; intros H; [reflexivity|].
  cbn [forallb] in H. apply andb_true_iff in H as [Hc H].
  cbn [app Indexes.matchParenthesised].
  apply negb_true_iff in Hc. rewrite Hc. now apply IH.
Qed.

Lemma matchParenthesised_here (group post : jsstring) :
  group <> [] -> forallb Indexes.notClosing group = true ->
  Indexes.matchParenthesised ("("%char :: group ++ ")"%char :: post) = Some group.
Proof.
  intros Hne Hg. cbn [Indexes.matchParenthesised Ascii.eqb Bool.eqb andb].
  rewrite takeWhile_app_run, dropWhile_app_run; try exact Hg;
    try (intros c r [= <- _]; reflexivity).
  destruct group; [congruence | reflexivity].
Qed.

Lemma split_no_sep (sep : ascii) (w : jsstring) :
  forallb (fun c => negb (Ascii.eqb c sep)) w = true -> Indexes.split sep w = [w].
Proof.
  induction w as [|c w IH]; intros H; [reflexivity|].
  cbn [forallb] in H. apply andb_true_iff in H as [Hc H].
  cbn [Indexes.split]. apply negb_true_iff in Hc. now rewrite Hc, IH.
Qed.

Lemma split_app_sep (sep : ascii) (w rest : jsstring) :
  forallb (fun c => negb (Ascii.eqb c sep)) w = true ->
  Indexes.split sep (w ++ sep :: rest) = w :: Indexes.split sep rest.
Proof.
  induction w as [|c w IH]; intros H.
  - cbn [app Indexes.split]. now rewrite Ascii.eqb_refl.
  - cbn [forallb] in H. apply andb_true_iff in H as [Hc H].
    cbn [app Indexes.split]. apply negb_true_iff in Hc. now rewrite Hc, IH.
Qed.

Lemma split_join (sep : ascii) (ws : list jsstring) :
  ws <> [] ->
  Forall (fun w => forallb (fun c => negb (Ascii.eqb c sep)) w = true) ws ->
  Indexes.split sep (join [sep] ws) = ws.
Proof.
  intros Hne H. revert Hne.
  induction H as [|w ws Hw Hws IH]; intros Hne; [now elim Hne|].
  cbn [join]. destruct ws as [|w2 ws].
  - now apply split_no_sep.
  - cbn [app]. rewrite split_app_sep by exact Hw. f_equal.
    apply IH. discriminate.
Qed.

Lemma isSpace_plain (c : ascii) :
  isSpace c = true ->
  Indexes.notClosing c = true /\ Ascii.eqb c "," = false /\ Indexes.isQuote c = false.
Proof. destruct c as [[] [] [] [] [] [] [] []]; vm_compute; intuition congruence. Qed.

Lemma isWordChar_plain (c : ascii) :
  isWordChar c = true ->
  Indexes.notClosing c = true /\ Ascii.eqb c "," = false /\ Indexes.isQuote c = false.
Proof. destruct c as [[] [] [] [] [] [] [] []]; vm_compute; intuition congruence. Qed.

Lemma isQuote_plain (c : ascii) :
  Indexes.isQuote c = true ->
  Indexes.notClosing c = true /\ Ascii.eqb c "," = false /\ isSpace c = false.
Proof. destruct c as [[] [] [] [] [] [] [] []]; vm_compute; intuition congruence. Qed.

Lemma forallb_rev {A : Type} (f : A -> bool) (l : list A) :
  forallb f (rev l) = forallb f l.
Proof.
  induction l as [|x l IH]; [reflexivity|].
  cbn [rev forallb]. rewrite forallb_app, IH. cbn [forallb].
  rewrite andb_true_r. apply andb_comm.
Qed.

(** [trim] removes the white space around a text that neither begins nor
    ends with white space. *)
Lemma trim_around (l m r : jsstring) :
  forallb isSpace l = true -> forallb isSpace r = true ->
  (forall c t, m = c :: t -> isSpace c = false) ->
  (forall c t, rev m = c :: t -> isSpace c = false) ->
  trim (l ++ m ++ r) = m.
Proof.
  intros Hl Hr Hfirst Hlast. unfold trim.
  destruct m as [|a m'].
  - cbn [app]. rewrite <- (app_nil_r (l ++ r)), dropWhile_app_run;
      [reflexivity | now rewrite forallb_app, Hl, Hr | discriminate].
  - rewrite dropWhile_app_run; [|exact Hl|].
    + rewrite rev_app_distr, dropWhile_app_run;
        [apply rev_involutive | now rewrite forallb_rev | exact Hlast].
    + intros c t E. cbn [app] in E. injection E as <- _.
      now apply (Hfirst a m').
Qed.

Lemma columnName_written (c w : jsstring) :
  Indexes.PlainName c -> Indexes.WrittenAs c w ->
  Indexes.columnName w = c /\
  forallb (fun x => negb (Ascii.eqb x ",")) w = true /\
  forallb Indexes.notClosing w = true /\ w <> [].
Proof.
  intros [Hne Hw] [l [q [r [Hl [Hr [Hq E]]]]]]. subst w.
  assert (Hq' : forallb Indexes.isQuote q = true)
    by (destruct Hq as [->|[->| ->]]; reflexivity).
  assert (Hwq : filter (fun x => negb (Indexes.isQuote x)) c = c).
  { apply forallb_filter_id. apply forallb_forall. intros x Hx.
    rewrite forallb_forall in Hw. now destruct (isWordChar_plain x (Hw x Hx)) as [_ [_ ->]]. }
  assert (Hqq : filter (fun x => negb (Indexes.isQuote x)) q = []).
  { destruct Hq as [->|[->| ->]]; reflexivity. }
  split; [|split; [|split]].
  - unfold Indexes.columnName.
    replace (l ++ q ++ c ++ q ++ r) with (l ++ (q ++ c ++ q) ++ r)
      by (now rewrite <- !app_assoc).
    rewrite (trim_around l (q ++ c ++ q) r); try assumption.
    + now rewrite !filter_app, Hwq, Hqq, app_nil_r.
    + destruct Hq as [->|[->| ->]]; cbn [app]; try (intros x t [= <- _]; reflexivity).
      rewrite app_nil_r. intros x t E.
      apply (word_head_not_space c Hne Hw [] x t). now rewrite app_nil_r.
    + rewrite !rev_app_distr.
      destruct Hq as [->|[->| ->]]; cbn [rev app];
        try (intros x t [= <- _]; reflexivity).
      rewrite app_nil_r. intros x t E.
      apply (word_head_not_space (rev c)) with (rest := []) (r := t).
      * intros H. apply (f_equal (@rev ascii)) in H.
        rewrite rev_involutive in H. contradiction.
      * now rewrite forallb_rev.
      * now rewrite app_nil_r.
  - rewrite !forallb_app. repeat (apply andb_true_iff; split);
      apply forallb_forall; intros x Hx.
    + rewrite forallb_forall in Hl. now destruct (isSpace_plain x (Hl x Hx)) as [_ [-> _]].
    + rewrite forallb_forall in Hq'. now destruct (isQuote_plain x (Hq' x Hx)) as [_ [-> _]].
    + rewrite forallb_forall in Hw. now destruct (isWordChar_plain x (Hw x Hx)) as [_ [-> _]].
    + rewrite forallb_forall in Hq'. now destruct (isQuote_plain x (Hq' x Hx)) as [_ [-> _]].
    + rewrite forallb_forall in Hr. now destruct (isSpace_plain x (Hr x Hx)) as [_ [-> _]].
  - rewrite !forallb_app. repeat (apply andb_true_iff; split);
      apply forallb_forall; intros x Hx.
    + rewrite forallb_forall in Hl. now destruct (isSpace_plain x (Hl x Hx)) as [-> _].
    + rewrite forallb_forall in Hq'. now destruct (isQuote_plain x (Hq' x Hx)) as [-> _].
    + rewrite forallb_forall in Hw. now destruct (isWordChar_plain x (Hw x Hx)) as [-> _].
    + rewrite forallb_forall in Hq'. now destruct (isQuote_plain x (Hq' x Hx)) as [-> _].
    + rewrite forallb_forall in Hr. now destruct (isSpace_plain x (Hr x Hx)) as [-> _].
  - intros E. destruct c; [congruence|].
    apply app_eq_nil in E as [_ E]. apply app_eq_nil in E as [_ E]. discriminate.
Qed.

Lemma forallb_join (f : ascii -> bool) (sep : jsstring) (ws : list jsstring) :
  forallb f sep = true -> Forall (fun w => forallb f w = true) ws ->
  forallb f (join sep ws) = true.
Proof.
  intros Hsep H. induction H as [|w ws Hw Hws IH]; [reflexivity|].
  cbn [join]. destruct ws as [|w2 ws]; [exact Hw|].
  now rewrite !forallb_app, Hw, Hsep, IH.
Qed.

(** X21. For the text of an index whose first parenthesis opens a list of
    column names made of letters, digits and underscores, separated by
    commas, each written bare, between double quotes or between backquotes
    and with white space around, the columns of the index are these names, in
    order and without the quotes. An index without text (one that SQLite
    created by itself) has no columns and is not unique; an index is unique
    exactly when its text contains [UNIQUE], in any case and anywhere. *)
Theorem index_columns_parsed (rowName : jsstring) :
  (forall pre post cols written,
     forallb (fun c => negb (Ascii.eqb c "(")) pre = true ->
     cols <> [] ->
     Forall Indexes.PlainName cols ->
     Forall2 Indexes.WrittenAs cols written ->
     idx_columns (Indexes.indexOfRow rowName
                    (Some (pre ++ lit "(" ++ join (lit ",") written ++ lit ")" ++ post)))
       = cols) /\
  idx_columns (Indexes.indexOfRow rowName None) = [] /\
  unique (Indexes.indexOfRow rowName None) = false /\
  (forall text,
     unique (Indexes.indexOfRow rowName (Some text)) = true <->
     exists pre post, toUpperCase text = pre ++ lit "UNIQUE" ++ post).
Proof.
  split; [|split; [reflexivity|split; [reflexivity|]]].
  - intros pre post cols written Hpre Hne Hplain Hwritten.
    assert (Hall : map Indexes.columnName written = cols /\
                   Forall (fun w => forallb (fun x => negb (Ascii.eqb x ",")) w = true)
                          written /\
                   Forall (fun w => forallb Indexes.notClosing w = true) written /\
                   Forall (fun w => w <> []) written).
    { clear Hne. induction Hwritten as [|c w cols written Hcw _ IH].
      - repeat split; constructor.
      - inversion Hplain as [|? ? Hc Hcs]; subst.
        destruct (columnName_written c w Hc Hcw) as [H1 [H2 [H3 H4]]].
        destruct (IH Hcs) as [I1 [I2 [I3 I4]]].
        cbn [map]. rewrite H1, I1. repeat split; now constructor. }
    destruct Hall as [Hcols [Hcomma [Hclose Hnonempty]]].
    assert (Hwne : written <> []).
    { destruct Hwritten; [congruence | discriminate]. }
    unfold Indexes.indexOfRow. cbn [idx_columns lit list_ascii_of_string app].
    rewrite matchParenthesised_skip by exact Hpre.
    rewrite matchParenthesised_here.
    + now rewrite split_join.
    + destruct written as [|w ws]; [congruence|].
      inversion Hnonempty as [|? ? Hw _]; subst. cbn [join].
      destruct ws; [exact Hw|]. intros E. apply app_eq_nil in E as [E _]. contradiction.
    + apply forallb_join; [reflexivity | exact Hclose].
  - intros text. cbn [Indexes.indexOfRow unique]. apply includes_spec.
Qed.

Lemma index_columns_parsed_witness :
  forallb (fun c => negb (Ascii.eqb c "("))
          (lit "CREATE UNIQUE INDEX idx_users ON users ") = true /\
  [lit "name"; lit "email"] <> [] /\
  Forall Indexes.PlainName [lit "name"; lit "email"] /\
  Forall2 Indexes.WrittenAs [lit "name"; lit "email"]
    [[Indexes.doubleQuote] ++ lit "name" ++ [Indexes.doubleQuote]; lit " email"] /\
  idx_columns (Indexes.indexOfRow (lit "idx_users") (Some sampleIndexSql))
    = [lit "name"; lit "email"].
Proof.
  assert (H1 : forallb (fun c => negb (Ascii.eqb c "("))
                 (lit "CREATE UNIQUE INDEX idx_users ON users ") = true)
    by reflexivity.
  assert (H2 : [lit "name"; lit "email"] <> []) by discriminate.
  assert (H3 : Forall Indexes.PlainName [lit "name"; lit "email"]).
  { repeat constructor; discriminate. }
  assert (H4 : Forall2 Indexes.WrittenAs [lit "name"; lit "email"]
                 [[Indexes.doubleQuote] ++ lit "name" ++ [Indexes.doubleQuote];
                  lit " email"]).
  { constructor; [|constructor; [|constructor]].
    - exists [], [Indexes.doubleQuote], []. repeat split; auto.
    - exists (lit " "), [], []. repeat split; auto. }
  split; [exact H1|]. split; [exact H2|]. split; [exact H3|]. split; [exact H4|].
  exact (proj1 (index_columns_parsed (lit "idx_users"))
           (lit "CREATE UNIQUE INDEX idx_users ON users ") [] _ _ H1 H2 H3 H4).
Defined.
